(** * mixaqubes: the bar-slicing and effect engine of [clips.py] and [mixaqubes.py]

    A shallow embedding of the two source files.

    - Python [float] values (gain, increment, bpm, timestamps) are IEEE
      binary64 numbers: Rocq's primitive [float].  [int(x)], [round(x)] and
      [float(n)] are written out on the binary representation.
    - The [**] operator and the float32 tensors of torch/numpy have no
      primitive counterpart; they are modelled by real numbers: a finite
      [10 ** x] is [Rpower 10 x], without rounding, and a tensor holds
      reals.  Conversions int16 -> float32 are exact, and so is every real
      value that the theorems below state with an equation (0 dB is the
      ratio 1).
    - Python objects with identity ([MemorySource]) live in a store; a
      constructor call allocates a new address.
    - Exceptions are results: [Ok v] or [Raise e].  Two outcomes have no
      Python counterpart: [StoreError], an address outside the store, and
      [NonFinite], a ratio that is an infinity or a NaN.  Python goes on
      with such a ratio and fills the tensor with it; a tensor of reals
      cannot hold it, so the embedding ends there, and no theorem below
      speaks of such a run. *)

From Stdlib Require Import String ZArith QArith Qpower Qreals Reals Lra Lia Bool Floats List.
From Stdlib.Strings Require Import Byte.
Import ListNotations.

Local Open Scope Z_scope.

(** ** Exceptions and results *)

Inductive exn : Type :=
| IndexError
| ValueError
| ZeroDivisionError
| OverflowError
| KeyError
| AttributeError
| SystemExit (code : Z)
| StoreError
| NonFinite.

Inductive result (A : Type) : Type :=
| Ok (a : A)
| Raise (e : exn).

Arguments Ok {A} a.
Arguments Raise {A} e.

Definition rbind {A B : Type} (r : result A) (k : A -> result B) : result B :=
  match r with
  | Ok a => k a
  | Raise e => Raise e
  end.

Declare Scope result_scope.
Delimit Scope result_scope with result.
Notation "'let?' x ':=' r 'in' k" := (rbind r (fun x => k))
  (at level 10, x pattern, r at level 100, k at level 200) : result_scope.
Local Open Scope result_scope.

(** ** Python numbers *)

Module Py.

(** The real number a finite binary64 value denotes; an infinity or a NaN
    is sent to 0, as is customary, and nothing below reads the value of
    one. *)
Definition SF2Q (x : spec_float) : Q :=
  match x with
  | S754_finite s m e => Qred (inject_Z (cond_Zopp s (Zpos m)) * Qpower 2 e)
  | _ => 0%Q
  end.

Definition F2R (x : float) : R := Q2R (SF2Q (Prim2SF x)).

Definition is_finite (x : float) : bool :=
  match Prim2SF x with
  | S754_zero _ | S754_finite _ _ _ => true
  | _ => false
  end.

(** [int(x)] for a float [x]: truncation toward zero. *)
Definition int (x : float) : result Z :=
  match Prim2SF x with
  | S754_zero _ => Ok 0
  | S754_finite s m e =>
      Ok (cond_Zopp s (if 0 <=? e then Zpos m * 2 ^ e else Zpos m / 2 ^ (- e)))
  | S754_infinity _ => Raise OverflowError
  | S754_nan => Raise ValueError
  end.

(** [round(x)] with one argument: the nearest integer, ties to even. *)
Definition round (x : float) : result Z :=
  match Prim2SF x with
  | S754_zero _ => Ok 0
  | S754_finite s m e =>
      Ok (cond_Zopp s
            (if 0 <=? e then Zpos m * 2 ^ e
             else
               let d := 2 ^ (- e) in
               let q := Zpos m / d in
               let r := Zpos m mod d in
               match 2 * r ?= d with
               | Lt => q
               | Gt => q + 1
               | Eq => if Z.even q then q else q + 1
               end))
  | S754_infinity _ => Raise OverflowError
  | S754_nan => Raise ValueError
  end.

(** [float(n)] for an int [n], also the implicit conversion of an int
    operand in mixed arithmetic: correctly rounded, [OverflowError] when
    the int is too large. *)
Definition float_of_int (n : Z) : result float :=
  match binary_normalize prec emax n 0 false with
  | S754_infinity _ => Raise OverflowError
  | sf => Ok (SF2Prim sf)
  end.

(** [x / y] on floats raises on a zero divisor. *)
Definition truediv (x y : float) : result float :=
  if (y =? 0)%float then Raise ZeroDivisionError else Ok (x / y)%float.

(** [l[i]] with Python's negative indices. *)
Definition getitem {A : Type} (l : list A) (i : Z) : result A :=
  let n := Z.of_nat (length l) in
  let j := if i <? 0 then n + i else i in
  if (0 <=? j) && (j <? n) then
    match nth_error l (Z.to_nat j) with
    | Some a => Ok a
    | None => Raise IndexError
    end
  else Raise IndexError.

(** [l[i:j]] for non-negative [i] and [j] (the only ones the sources use). *)
Definition slice {A : Type} (l : list A) (i j : Z) : list A :=
  firstn (Z.to_nat (j - i)) (skipn (Z.to_nat i) l).

(** [l[start::2]]. *)
Fixpoint stride2 {A : Type} (l : list A) : list A :=
  match l with
  | [] => []
  | [x] => [x]
  | x :: _ :: rest => x :: stride2 rest
  end.

(** [range(0, stop, step)]. *)
Definition range_step (stop step : Z) : result (list Z) :=
  if step =? 0 then Raise ValueError
  else
    let n :=
      if 0 <? step then (if 0 <? stop then (stop + step - 1) / step else 0)
      else (if stop <? 0 then (- stop + - step - 1) / (- step) else 0) in
    Ok (map (fun k => Z.of_nat k * step) (seq 0 (Z.to_nat n))).

(** [a % b] *)
Definition mod_ (a b : Z) : result Z :=
  if b =? 0 then Raise ZeroDivisionError else Ok (a mod b).

(** [d[k]] on a dict with string keys, as its list of items. *)
Fixpoint dict_get {V : Type} (d : list (string * V)) (k : string) : result V :=
  match d with
  | [] => Raise KeyError
  | (k', v) :: d' => if String.eqb k' k then Ok v else dict_get d' k
  end.

End Py.

(** ** Tensors (torch / numpy) *)

Module Torch.

(** A two-dimensional float32 tensor, as its list of rows. *)
Definition Tensor : Type := list (list R).

(** [t.size()[-1]] *)
Definition last_dim (t : Tensor) : nat :=
  match t with
  | [] => O
  | row :: _ => length row
  end.

(** [torch.linspace(start, end, steps)]: [steps] evenly spaced values,
    [start + i * (end - start) / (steps - 1)] for [i < steps]; a single
    step yields [start] alone. *)
Definition linspace (start stop : R) (steps : nat) : list R :=
  map (fun i => (start + INR i * ((stop - start) / (INR steps - 1)))%R)
      (seq 0 steps).

Fixpoint mul_row (row fade : list R) : list R :=
  match row, fade with
  | x :: row', r :: fade' => (x * r)%R :: mul_row row' fade'
  | _, _ => []
  end.

(** [t * fade], the vector broadcast over the rows. *)
Definition mul (t : Tensor) (fade : list R) : Tensor :=
  map (fun row => mul_row row fade) t.

End Torch.

(** ** FadeIn (clips.py, lines 110-135) *)

Module FadeIn.

Record t : Type := mk { gain : float; increment : float }.

(** [__init__] *)
Definition init : t := {| gain := (-30)%float; increment := 10%float |}.

Definition step (self : t) : t :=
  let g := (gain self + increment self)%float in
  {| gain := if (0 <? g)%float then 0%float else g;
     increment := increment self |}.

Definition is_done (self : t) : bool :=
  if (0 <=? gain self)%float then true else false.

(** The powers that round to a finite binary64 number lie below
    [2^1024 - 2^970], half a unit in the last place above the largest
    float; those that round to 0.0 are at most [2^-1075], half the smallest
    positive float. *)
Definition overflow_threshold : R := IZR (2 ^ 1024 - 2 ^ 970).

Definition underflow_threshold : R := (/ IZR (2 ^ 1075))%R.

(** [10 ** x] for a float [x], the int 10 being converted to 10.0:
    [OverflowError] when the power is too large for a float ([x] above
    308.25), 0.0 when it is too small ([x] below -323.6) and at minus
    infinity, the power itself in between.  At plus infinity the result is
    [inf] and at a NaN it is [nan]: [NonFinite]. *)
Definition pow10 (x : float) : result R :=
  match Prim2SF x with
  | S754_nan => Raise NonFinite
  | S754_infinity false => Raise NonFinite
  | S754_infinity true => Ok 0%R
  | _ =>
      let r := Rpower 10 (Py.F2R x) in
      if Rle_dec overflow_threshold r then Raise OverflowError
      else if Rle_dec r underflow_threshold then Ok 0%R
      else Ok r
  end.

(** The locals of [process]. *)
Definition start_ratio (self : t) : result R := pow10 (gain self / 20)%float.

Definition end_gain (self : t) : float :=
  let g := (gain self + increment self)%float in
  if (0 <? g)%float then 0%float else g.

Definition end_ratio (self : t) : result R := pow10 (end_gain self / 20)%float.

Definition fade (self : t) (n : nat) : result (list R) :=
  let? start_ratio := start_ratio self in
  let? end_ratio := end_ratio self in
  Ok (Torch.linspace start_ratio end_ratio n).

(** [process] returns the processed tensor and the effect as the call
    leaves it; when a ratio raises, the effect has not stepped. *)
Definition process (self : t) (torchdata : Torch.Tensor)
    : result (Torch.Tensor * t) :=
  let? fade := fade self (Torch.last_dim torchdata) in
  let proc := Torch.mul torchdata fade in
  Ok (proc, step self).

(** The effect after a sequence of [process] calls, one per tensor. *)
Fixpoint run (ts : list Torch.Tensor) (self : t) : result t :=
  match ts with
  | [] => Ok self
  | x :: ts' =>
      let? out := process self x in
      run ts' (snd out)
  end.

(** The states the gain sequence -30, -20, -10, 0 visits. *)
Definition s0 : t := init.
Definition s1 : t := {| gain := (-20)%float; increment := 10%float |}.
Definition s2 : t := {| gain := (-10)%float; increment := 10%float |}.
Definition s3 : t := {| gain := 0%float; increment := 10%float |}.

Definition reachable (f : t) : Prop := f = s0 \/ f = s1 \/ f = s2 \/ f = s3.

End FadeIn.

(** ** numpy on int16 buffers (little-endian, as on the hosts the program runs on) *)

Module Numpy.

Definition byte_to_Z (b : byte) : Z := Z.of_N (Byte.to_N b).

Definition byte_of_Z (z : Z) : byte :=
  match Byte.of_N (Z.to_N (z mod 256)) with
  | Some b => b
  | None => x00
  end.

(** The values of dtype [np.int16]. *)
Definition int16 (z : Z) : Prop := -32768 <= z < 32768.

Definition int16_of_bytes (lo hi : byte) : Z :=
  let u := byte_to_Z lo + 256 * byte_to_Z hi in
  if u <? 32768 then u else u - 65536.

Definition bytes_of_int16 (z : Z) : list byte :=
  let u := z mod 65536 in
  [byte_of_Z (u mod 256); byte_of_Z (u / 256)].

(** [np.frombuffer(data, dtype=np.int16)] *)
Fixpoint frombuffer_int16 (data : list byte) : result (list Z) :=
  match data with
  | [] => Ok []
  | [_] => Raise ValueError
  | lo :: hi :: rest =>
      let? ints := frombuffer_int16 rest in
      Ok (int16_of_bytes lo hi :: ints)
  end.

(** [np.stack((a, b))]: the two rows must have one shape. *)
Definition stack2 {A : Type} (a b : list A) : result (list (list A)) :=
  if Nat.eqb (length a) (length b) then Ok [a; b] else Raise ValueError.

Fixpoint interleave {A : Type} (a b : list A) : list A :=
  match a, b with
  | x :: a', y :: b' => x :: y :: interleave a' b'
  | _, _ => []
  end.

(** [stream[0::2] = a; stream[1::2] = b] on a fresh array of
    [a.size + b.size] elements.  The rows of a tensor have one length; rows
    of different lengths, which no tensor has, are refused. *)
Definition assign_interleaved {A : Type} (a b : list A) : result (list A) :=
  if Nat.eqb (length a) (length b) then Ok (interleave a b) else Raise ValueError.

(** Truncation toward zero. *)
Definition trunc (r : R) : Z :=
  if Rle_dec 0 r then Int_part r else - Int_part (- r).

Definition wrap16 (z : Z) : Z := (z + 32768) mod 65536 - 32768.

(** [x.astype(np.int16)] on a float32 element: the fraction is dropped; a
    value outside the int16 range, which a gain of at most 1 never
    produces, wraps. *)
Definition astype_int16 (r : R) : Z := wrap16 (trunc r).

(** [a.tobytes()] *)
Definition tobytes (a : list Z) : list byte := flat_map bytes_of_int16 a.

End Numpy.

(** ** pyglet's audio format *)

Module AudioFormat.

(** Modelled from the spec: pyglet's [AudioFormat] is not among the sources.
    The spec's data model gives its fields and the two derived sizes,
    [bytes_per_sample = channels * bits / 8] and
    [bytes_per_second = bytes_per_sample * sample_rate]. *)
Record t : Type := mk { channels : Z; sample_size : Z; sample_rate : Z }.

Definition bytes_per_sample (f : t) : Z := Z.shiftr (sample_size f) 3 * channels f.

Definition bytes_per_second (f : t) : Z := bytes_per_sample f * sample_rate f.

End AudioFormat.

(** ** MemorySource (clips.py, lines 8-41; mixaqubes.py, lines 21-54) *)

Module MemorySource.

(** [_file] is the read position of the [BytesIO] over [_data]. *)
Record t : Type := mk {
  _file : Z;
  _data : list byte;
  _max_offset : Z;
  audio_format : AudioFormat.t;
  _duration : float
}.

(** [__init__] *)
Definition init (data : list byte) (audio_format : AudioFormat.t) : result t :=
  let? bps := Py.float_of_int (AudioFormat.bytes_per_second audio_format) in
  let? len := Py.float_of_int (Z.of_nat (length data)) in
  let? duration := Py.truediv len bps in
  Ok {| _file := 0;
        _data := data;
        _max_offset := Z.of_nat (length data);
        audio_format := audio_format;
        _duration := duration |}.

(** The alignment step of [seek]. *)
Definition align (bytes_per_sample offset : Z) : Z :=
  if bytes_per_sample =? 2 then Z.land offset 0xfffffffe
  else if bytes_per_sample =? 4 then Z.land offset 0xfffffffc
  else offset.

(** [self._file.seek(pos)]: [BytesIO.seek] converts the position to a C
    [ssize_t] (64 bits on the hosts the program runs on), which raises
    [OverflowError] outside [-2^63, 2^63), and refuses a negative position
    with [ValueError]; a position past the end of the data is accepted. *)
Definition file_seek (pos : Z) : result Z :=
  if (pos <? - 2 ^ 63) || (2 ^ 63 <=? pos) then Raise OverflowError
  else if pos <? 0 then Raise ValueError
  else Ok pos.

(** [seek] *)
Definition seek (self : t) (timestamp : float) : result t :=
  let fmt := audio_format self in
  let? bps := Py.float_of_int (AudioFormat.bytes_per_second fmt) in
  let? offset := Py.int (timestamp * bps)%float in
  let offset := align (AudioFormat.bytes_per_sample fmt) offset in
  let? pos := file_seek offset in
  Ok {| _file := pos;
        _data := _data self;
        _max_offset := _max_offset self;
        audio_format := fmt;
        _duration := _duration self |}.

End MemorySource.

(** ** The object store *)

Definition addr : Type := nat.

Definition Heap : Type := list MemorySource.t.

Definition M (A : Type) : Type := Heap -> result (A * Heap).

Definition ret {A : Type} (a : A) : M A := fun h => Ok (a, h).

Definition bind {A B : Type} (m : M A) (k : A -> M B) : M B :=
  fun h =>
    match m h with
    | Ok (a, h') => k a h'
    | Raise e => Raise e
    end.

Definition lift {A : Type} (r : result A) : M A :=
  fun h =>
    match r with
    | Ok a => Ok (a, h)
    | Raise e => Raise e
    end.

Definition deref (a : addr) : M MemorySource.t :=
  fun h =>
    match nth_error h a with
    | Some o => Ok (o, h)
    | None => Raise StoreError
    end.

Definition alloc (o : MemorySource.t) : M addr :=
  fun h => Ok (length h, h ++ [o]).

(** [MemorySource(data, audio_format)] *)
Definition new_MemorySource (data : list byte) (fmt : AudioFormat.t) : M addr :=
  bind (lift (MemorySource.init data fmt)) alloc.

Declare Scope store_scope.
Delimit Scope store_scope with store.
Notation "x <- m ;; k" := (bind m (fun x => k))
  (at level 61, m at next level, right associativity) : store_scope.
Notation "' p <- m ;; k" := (bind m (fun x => let 'p := x in k))
  (at level 61, p pattern, m at next level, right associativity) : store_scope.

(** ** Clip (clips.py, lines 52-108) *)

Module Clip.

(** [current_bar] and [audio_format] are attributes that [next_bar] and
    [to_torch] create; [None] stands for "not set yet". *)
Record t : Type := mk {
  name : string;
  element : string;
  bars : list addr;
  bpm : float;
  key : string;
  bar : Z;
  magnitude : float;
  effects : list FadeIn.t;
  state : string;
  current_bar : option addr;
  audio_format : option AudioFormat.t
}.

(** [__init__] *)
Definition init (name element : string) (bars : list addr) (bpm : float)
    (key : string) : t :=
  {| name := name;
     element := element;
     bars := bars;
     bpm := bpm;
     key := key;
     bar := 0;
     magnitude := 1%float;
     effects := [FadeIn.init];
     state := "cued";
     current_bar := None;
     audio_format := None |}.

Definition set_audio_format (self : t) (fmt : AudioFormat.t) : t :=
  {| name := name self; element := element self; bars := bars self;
     bpm := bpm self; key := key self; bar := bar self;
     magnitude := magnitude self; effects := effects self;
     state := state self; current_bar := current_bar self;
     audio_format := Some fmt |}.

(** The three assignments of [next_bar]. *)
Definition update (self : t) (effects' : list FadeIn.t) (cur : addr)
    (bar' : Z) : t :=
  {| name := name self; element := element self; bars := bars self;
     bpm := bpm self; key := key self; bar := bar';
     magnitude := magnitude self; effects := effects';
     state := state self; current_bar := Some cur;
     audio_format := audio_format self |}.

(** The numpy part of [to_torch]: the two channel arrays. *)
Definition deinterleave (data : list byte) : result (list (list Z)) :=
  let? raw_ints := Numpy.frombuffer_int16 data in
  let a := Py.stride2 raw_ints in
  let b := Py.stride2 (tl raw_ints) in
  Numpy.stack2 a b.

Definition to_torch (self : t) (mem_source : MemorySource.t)
    : result (Torch.Tensor * t) :=
  let self := set_audio_format self (MemorySource.audio_format mem_source) in
  let? deinterleaved := deinterleave (MemorySource._data mem_source) in
  let sample := map (map IZR) deinterleaved in
  Ok (sample, self).

(** The numpy part of [from_torch]: the bytes of the interleaved stream. *)
Definition reinterleave (torch_audio : Torch.Tensor) : result (list byte) :=
  let stereo_channels := torch_audio in
  let? ch0 := Py.getitem stereo_channels 0 in
  let? ch1 := Py.getitem stereo_channels 1 in
  let? stream := Numpy.assign_interleaved ch0 ch1 in
  let int_stream := map Numpy.astype_int16 stream in
  Ok (Numpy.tobytes int_stream).

Definition from_torch (self : t) (torch_audio : Torch.Tensor) : M addr :=
  (data <- lift (reinterleave torch_audio) ;;
   match audio_format self with
   | Some fmt => new_MemorySource data fmt
   | None => lift (Raise AttributeError)
   end)%store.

(** The effect part of [next_bar]: the head of the chain processes the
    tensor and leaves the chain when it [is_done]. *)
Definition apply_effects (effects : list FadeIn.t) (torchdata : Torch.Tensor)
    : result (Torch.Tensor * list FadeIn.t) :=
  match effects with
  | [] => Ok (torchdata, [])
  | head :: rest =>
      let? out := FadeIn.process head torchdata in
      let torchdata := fst out in
      let head := snd out in
      if FadeIn.is_done head then Ok (torchdata, rest)
      else Ok (torchdata, head :: rest)
  end.

Definition next_bar (self : t) : M (addr * t) :=
  (let current_bar := bar self in
   src <- lift (Py.getitem (bars self) current_bar) ;;
   mem_source <- deref src ;;
   ' (torchdata, self) <- lift (to_torch self mem_source) ;;
   ' (torchdata, effects') <- lift (apply_effects (effects self) torchdata) ;;
   cur <- from_torch self torchdata ;;
   bar' <- lift (Py.mod_ (bar self + 1) (Z.of_nat (length (bars self)))) ;;
   ret (cur, update self effects' cur bar'))%store.

End Clip.

(** ** The bar slicer (mixaqubes.py, lines 351-394) *)

Module Pyglet.

(** What [pyglet.media.load] returns: a source with its format and its
    decoder.  [get_audio_data n] is the [data] of the [AudioData] the call
    returns, or [None] when it returns [None]. *)
Record Source : Type := mk {
  audio_format : AudioFormat.t;
  get_audio_data : Z -> option (list byte)
}.

(** A source over decoded PCM bytes: a read returns at most the bytes
    asked for, and nothing at the end of the data. *)
Definition pcm_source (fmt : AudioFormat.t) (pcm : list byte) : Source :=
  {| audio_format := fmt;
     get_audio_data := fun n =>
       match pcm with
       | [] => None
       | _ => Some (firstn (Z.to_nat n) pcm)
       end |}.

End Pyglet.

Module PlayerWindow.

(** One entry of the manifest [self.clips]: [bpm] is [float(entry["bpm"])],
    [beats] is [int(meta["beats"])]; a loop whose value is [null] is [None]. *)
Record LoopMeta : Type := mkLoop { beats : Z }.

Record ClipEntry : Type := mkEntry {
  bpm : float;
  key : string;
  loops : list (string * option LoopMeta)
}.

Record t : Type := mk {
  clips : list (string * ClipEntry);
  dir : string;
  active_clip : list addr;
  active_bar : Z;
  active_bpm : float;
  active_key : string
}.

(** The media files: [None] when [media_path.exists()] is false. *)
Definition FileSystem : Type := string -> option Pyglet.Source.

Definition samples_per_beat (bpm : float) (sample_rate : Z) : result Z :=
  let? spb := Py.truediv 60 bpm in
  let? sr := Py.float_of_int sample_rate in
  Py.round (spb * sr)%float.

Definition bytes_per_sample (fmt : AudioFormat.t) : Z :=
  AudioFormat.channels fmt * AudioFormat.sample_size fmt / 8.

Definition bytes_per_bar (samples_per_beat bytes_per_sample : Z) : Z :=
  4 * samples_per_beat * bytes_per_sample.

(** [[data[i:i+bytes_per_bar] for i in range(0, len(data), bytes_per_bar)]] *)
Definition bars_raw (data : list byte) (bytes_per_bar : Z)
    : result (list (list byte)) :=
  let? starts := Py.range_step (Z.of_nat (length data)) bytes_per_bar in
  Ok (map (fun i => Py.slice data i (i + bytes_per_bar)) starts).

(** The loop that fills [self.active_clip]. *)
Fixpoint make_bars (raws : list (list byte)) (fmt : AudioFormat.t)
    (acc : list addr) : M (list addr) :=
  match raws with
  | [] => ret acc
  | bar_raw :: raws' =>
      (a <- new_MemorySource bar_raw fmt ;;
       make_bars raws' fmt (acc ++ [a]))%store
  end.

Definition cache_active_clip (self : t) (fs : FileSystem) (name loop : string)
    : M (option (string * Pyglet.Source) * t) :=
  (entry <- lift (Py.dict_get (clips self) name) ;;
   meta <- lift (Py.dict_get (loops entry) loop) ;;
   match meta with
   | Some meta =>
       let media_path := (dir self ++ "/" ++ name ++ "/" ++ loop ++ ".wav")%string in
       match fs media_path with
       | Some loop =>
           let fmt := Pyglet.audio_format loop in
           let sample_rate := AudioFormat.sample_rate fmt in
           let bpm := bpm entry in
           samples_per_beat <- lift (samples_per_beat bpm sample_rate) ;;
           let bytes_per_sample := bytes_per_sample fmt in
           let beats := beats meta in
           let bytes_per_bar := bytes_per_bar samples_per_beat bytes_per_sample in
           match Pyglet.get_audio_data loop (samples_per_beat * bytes_per_sample * beats) with
           | Some full_loop =>
               bars_raw <- lift (bars_raw full_loop bytes_per_bar) ;;
               active_clip <- make_bars bars_raw fmt [] ;;
               ret (Some (name, loop),
                    {| clips := clips self; dir := dir self;
                       active_clip := active_clip; active_bar := 0;
                       active_bpm := bpm; active_key := key entry |})
           | None => lift (Raise AttributeError)
           end
       | None => lift (Raise (SystemExit 0))
       end
   | None => ret (None, self)
   end)%store.

End PlayerWindow.

(** ** Decibels

    The numeric semantics of the specification, not code: a gain in
    decibels is the amplitude ratio [10^(dB/20)], a fresh fade-in goes
    through the gains -30, -20, -10 and 0 dB, and each call ramps linearly
    from the ratio of one gain to the ratio of the next. *)

Module Decibel.

Definition ratio (db : R) : R := Rpower 10 (db / 20).

(** The gain after [k] calls, in dB: -30, -20, -10, 0, 0, ... *)
Definition gain_after (k : nat) : R := IZR (Z.min 0 (10 * Z.of_nat k - 30)).

(** Sample [i] of the linear ramp of [n] samples from [a] to [b]. *)
Definition ramp (a b : R) (n i : nat) : R :=
  (a + INR i * ((b - a) / (INR n - 1)))%R.



End Decibel.

(** ** Preconditions of [next_bar]

    Predicates of the specification, not code: what a call needs in order to
    return. *)

Module Ready.

(** A buffer that [to_torch] accepts and whose format the constructor
    accepts (a non-zero byte rate). *)
Definition playable (ms : MemorySource.t) : bool :=
  (Z.of_nat (length (MemorySource._data ms)) mod 4 =? 0) &&
  match MemorySource.init (MemorySource._data ms) (MemorySource.audio_format ms) with
  | Ok _ => true
  | Raise _ => false
  end.

Definition playable_at (h : Heap) (a : addr) : bool :=
  match nth_error h a with
  | Some ms => playable ms
  | None => false
  end.

(** Two floats with the same binary representation. *)
Definition same_float (x y : float) : bool :=
  match Prim2SF x, Prim2SF y with
  | S754_zero s, S754_zero s' => Bool.eqb s s'
  | S754_infinity s, S754_infinity s' => Bool.eqb s s'
  | S754_nan, S754_nan => true
  | S754_finite s m e, S754_finite s' m' e' =>
      Bool.eqb s s' && Pos.eqb m m' && Z.eqb e e'
  | _, _ => false
  end.

(** An effect as the program has them: a fade-in in one of the states that
    the gain sequence -30, -20, -10, 0 visits.  [FadeIn()] takes no
    argument and only [step] assigns the gain, so the program builds no
    other. *)
Definition effect_ready (f : FadeIn.t) : bool :=
  existsb (fun s => same_float (FadeIn.gain f) (FadeIn.gain s) &&
                    same_float (FadeIn.increment f) (FadeIn.increment s))
    [FadeIn.s0; FadeIn.s1; FadeIn.s2; FadeIn.s3].

(** Every bar is in the store and playable, the cursor is an index, and the
    effects are ready. *)
Definition well_formed (c : Clip.t) (h : Heap) : bool :=
  (0 <=? Clip.bar c) && (Clip.bar c <? Z.of_nat (length (Clip.bars c))) &&
  forallb (playable_at h) (Clip.bars c) &&
  forallb effect_ready (Clip.effects c).

(** A 2-row tensor with [n] columns. *)
Definition stereo (n : nat) (x : Torch.Tensor) : Prop :=
  exists a b, x = [a; b] /\ length a = n /\ length b = n.

(** What a returning call [next_bar] has done: it read the bar under the
    cursor, ran the chain on its channels, allocated the result and moved
    the cursor. *)
Definition next_bar_post (c : Clip.t) (h : Heap) (r : addr) (c' : Clip.t)
    (h' : Heap) : Prop :=
  exists src ms chans out ms',
    Py.getitem (Clip.bars c) (Clip.bar c) = Ok src /\
    nth_error h src = Some ms /\
    Clip.deinterleave (MemorySource._data ms) = Ok chans /\
    Clip.apply_effects (Clip.effects c) (map (map IZR) chans) = Ok out /\
    Clip.reinterleave (fst out) = Ok (MemorySource._data ms') /\
    MemorySource.init (MemorySource._data ms') (MemorySource.audio_format ms)
      = Ok ms' /\
    r = length h /\ h' = h ++ [ms'] /\
    c' = Clip.update (Clip.set_audio_format c (MemorySource.audio_format ms))
           (snd out) r
           ((Clip.bar c + 1) mod Z.of_nat (length (Clip.bars c))).

(** The call that took the store from [h] to [h'] and returned [r] ran the
    effect [f] on the bar under the cursor of [c]: the new buffer holds the
    channels of that bar multiplied by the ramp of [f]. *)
Definition fade_applied (f : FadeIn.t) (c : Clip.t) (h : Heap) (r : addr)
    (h' : Heap) : Prop :=
  exists src ms chans out ms',
    Py.getitem (Clip.bars c) (Clip.bar c) = Ok src /\
    nth_error h src = Some ms /\
    Clip.deinterleave (MemorySource._data ms) = Ok chans /\
    nth_error h' r = Some ms' /\
    FadeIn.process f (map (map IZR) chans) = Ok out /\
    Clip.reinterleave (fst out) = Ok (MemorySource._data ms').


(** The spec's sample count of a buffer: its frames. *)
Definition sample_count (ms : MemorySource.t) : Z :=
  Z.of_nat (length (MemorySource._data ms))
  / AudioFormat.bytes_per_sample (MemorySource.audio_format ms).

End Ready.

(** ** Slices of a loop

    Descriptions, for the specification, of what the slicer yields. *)

Module Slices.

(** The [k]-th run of [b] bytes of [data]. *)
Definition chunk (b : nat) (data : list byte) (k : nat) : list byte :=
  firstn b (skipn (k * b) data).

Definition chunks (b : nat) (data : list byte) (n : nat) : list (list byte) :=
  map (chunk b data) (seq 0 n).

(** The number of starts [range(0, len, bytes_per_bar)] yields. *)
Definition bar_count (len bytes_per_bar : Z) : nat :=
  Z.to_nat ((len + bytes_per_bar - 1) / bytes_per_bar).

(** The constructor accepts these bytes in this format. *)
Definition constructible (fmt : AudioFormat.t) (raw : list byte) : bool :=
  match MemorySource.init raw fmt with
  | Ok _ => true
  | Raise _ => false
  end.

End Slices.

(** ** Concrete buffers and clips *)

Module Example.

Definition stereo16 : AudioFormat.t :=
  {| AudioFormat.channels := 2; AudioFormat.sample_size := 16;
     AudioFormat.sample_rate := 44100 |}.

Definition mono16 : AudioFormat.t :=
  {| AudioFormat.channels := 1; AudioFormat.sample_size := 16;
     AudioFormat.sample_rate := 44100 |}.

Definition stereo32 : AudioFormat.t :=
  {| AudioFormat.channels := 2; AudioFormat.sample_size := 32;
     AudioFormat.sample_rate := 44100 |}.

(** Two stereo frames: left 1, right 2, then left 3, right 4. *)
Definition two_frames : list byte :=
  [x01; x00; x02; x00; x03; x00; x04; x00].

(** One stereo frame: left 256, right -1. *)
Definition one_frame : list byte := [x00; x01; xff; xff].


(** The object a constructor call builds. *)
Definition source (data : list byte) (fmt : AudioFormat.t) : MemorySource.t :=
  match MemorySource.init data fmt with
  | Ok m => m
  | Raise _ =>
      {| MemorySource._file := 0; MemorySource._data := data;
         MemorySource._max_offset := Z.of_nat (length data);
         MemorySource.audio_format := fmt; MemorySource._duration := 0%float |}
  end.

(** The tensor of [one_frame]: one column. *)
Definition one_frame_tensor : Torch.Tensor := [[IZR 256]; [IZR (-1)]].

Definition heap2 : Heap := [source two_frames stereo16; source one_frame stereo16].

Definition clip2 : Clip.t := Clip.init "song" "intro" [0%nat; 1%nat] 128%float "8A".



(** A 16-bit stereo format at 16 Hz: at 120 bpm a beat has 8 samples and a
    bar has 128 bytes. *)
Definition tiny16 : AudioFormat.t :=
  {| AudioFormat.channels := 2; AudioFormat.sample_size := 16;
     AudioFormat.sample_rate := 16 |}.

(** A manifest with one song of 120 bpm and one loop of 8 beats. *)
Definition window : PlayerWindow.t :=
  {| PlayerWindow.clips :=
       [("song"%string,
         {| PlayerWindow.bpm := 120%float; PlayerWindow.key := "8A";
            PlayerWindow.loops :=
              [("basic"%string, Some {| PlayerWindow.beats := 8 |})] |})];
     PlayerWindow.dir := "media";
     PlayerWindow.active_clip := [];
     PlayerWindow.active_bar := 0;
     PlayerWindow.active_bpm := 0%float;
     PlayerWindow.active_key := "" |}.

(** A file system with the loop of the manifest, holding [n] zero bytes. *)
Definition loop_file (n : nat) : Pyglet.Source := Pyglet.pcm_source tiny16 (repeat x00 n).

Definition fs_with (n : nat) : PlayerWindow.FileSystem :=
  fun path =>
    if String.eqb path "media/song/basic.wav" then Some (loop_file n) else None.


End Example.

(** ** Repeated calls of [next_bar] *)

Module Driver.

(** The chain after one call, as [next_bar] leaves it. *)
Definition chain_step (effects : list FadeIn.t) : list FadeIn.t :=
  match effects with
  | [] => []
  | head :: rest =>
      if FadeIn.is_done (FadeIn.step head) then rest else FadeIn.step head :: rest
  end.

(** [n] calls in a row, as a player that asks for one bar after the other
    makes them; the addresses of the returned buffers, in order. *)
Fixpoint calls (n : nat) (c : Clip.t) : M (list addr * Clip.t) :=
  match n with
  | O => ret ([], c)
  | S n' =>
      (' (r, c1) <- Clip.next_bar c ;;
       ' (rs, c2) <- calls n' c1 ;;
       ret (r :: rs, c2))%store
  end.

End Driver.

(** ** The player, as the window drives it *)

Module Player.

(** pyglet's [Player] is not among the sources; the window only uses its
    play flag and hands it sources and seek positions, which are logged
    here in the order of the calls. *)
Record t : Type := mk {
  playing : bool;
  queued : list addr;
  seeks : list float
}.

Definition queue (p : t) (source : addr) : t :=
  {| playing := playing p; queued := queued p ++ [source]; seeks := seeks p |}.

Definition play (p : t) : t :=
  {| playing := true; queued := queued p; seeks := seeks p |}.

Definition pause (p : t) : t :=
  {| playing := false; queued := queued p; seeks := seeks p |}.

Definition seek (p : t) (value : float) : t :=
  {| playing := playing p; queued := queued p; seeks := seeks p ++ [value] |}.

End Player.

(** ** End of stream (mixaqubes.py, lines 268-277) *)

Module Eos.

(** [on_player_eos], without the two calls that only redraw the GUI. *)
Definition on_player_eos (self : PlayerWindow.t) (player : Player.t)
    : result (PlayerWindow.t * Player.t) :=
  if negb (Nat.eqb (length (PlayerWindow.active_clip self)) 0) then
    let? source := Py.getitem (PlayerWindow.active_clip self)
                     (PlayerWindow.active_bar self) in
    let player := Player.queue player source in
    let? active_bar := Py.mod_ (PlayerWindow.active_bar self + 1)
                         (Z.of_nat (length (PlayerWindow.active_clip self))) in
    let player := Player.play player in
    Ok ({| PlayerWindow.clips := PlayerWindow.clips self;
           PlayerWindow.dir := PlayerWindow.dir self;
           PlayerWindow.active_clip := PlayerWindow.active_clip self;
           PlayerWindow.active_bar := active_bar;
           PlayerWindow.active_bpm := PlayerWindow.active_bpm self;
           PlayerWindow.active_key := PlayerWindow.active_key self |},
        player)
  else Ok (self, player).

(** [k] end-of-stream events in a row. *)
Fixpoint events (k : nat) (self : PlayerWindow.t) (player : Player.t)
    : result (PlayerWindow.t * Player.t) :=
  match k with
  | O => Ok (self, player)
  | S k' =>
      let? (self, player) := on_player_eos self player in
      events k' self player
  end.

End Eos.

(** ** Controls (mixaqubes.py, lines 76-117) *)

Module Control.

(** Coordinates are the integers of pyglet's mouse events. *)
Record t : Type := mk { x : Z; y : Z; width : Z; height : Z }.

(** The class attributes [x = y = 0], [width = height = 10]. *)
Definition default : t := {| x := 0; y := 0; width := 10; height := 10 |}.

Definition hit_test (self : t) (px py : Z) : bool :=
  (x self <? px) && (px <? x self + width self) &&
  ((y self <? py) && (py <? y self + height self)).

End Control.

Module Button.

(** [capturing] is set by [capture_events] and cleared by [release_events];
    [presses] counts the dispatched [on_press] events. *)
Record t : Type := mk {
  control : Control.t;
  charged : bool;
  capturing : bool;
  presses : nat
}.

Definition on_mouse_press (self : t) (px py : Z) : t :=
  {| control := control self; charged := true; capturing := true;
     presses := presses self |}.

Definition on_mouse_drag (self : t) (px py : Z) : t :=
  {| control := control self;
     charged := Control.hit_test (control self) px py;
     capturing := capturing self; presses := presses self |}.

Definition on_mouse_release (self : t) (px py : Z) : t :=
  {| control := control self; charged := false; capturing := false;
     presses := if Control.hit_test (control self) px py
                then S (presses self) else presses self |}.

(** A press, the drags that follow and the release. *)
Definition click (self : t) (press : Z * Z) (drags : list (Z * Z))
    (release : Z * Z) : t :=
  let self := on_mouse_press self (fst press) (snd press) in
  let self := fold_left (fun b d => on_mouse_drag b (fst d) (snd d)) drags self in
  on_mouse_release self (fst release) (snd release).

End Button.

(** ** The layout of the window (mixaqubes.py, lines 201-224, 323-326, 346-349) *)

Module Layout.

Definition GUI_PADDING : Z := 4.
Definition GUI_BUTTON_HEIGHT : Z := 16.

Record t : Type := mk {
  slider : Control.t;
  play_pause_button : Control.t;
  window_button : Control.t
}.

(** The positions [__init__] gives the three controls. *)
Definition init : t :=
  let slider :=
    {| Control.x := GUI_PADDING;
       Control.y := GUI_PADDING * 2 + GUI_BUTTON_HEIGHT;
       Control.width := Control.width Control.default;
       Control.height := Control.height Control.default |} in
  let play_pause_button :=
    {| Control.x := GUI_PADDING; Control.y := GUI_PADDING;
       Control.width := 45; Control.height := GUI_BUTTON_HEIGHT |} in
  let window_button :=
    {| Control.x := Control.x play_pause_button + Control.width play_pause_button
                    + GUI_PADDING;
       Control.y := GUI_PADDING;
       Control.width := 90; Control.height := GUI_BUTTON_HEIGHT |} in
  {| slider := slider; play_pause_button := play_pause_button;
     window_button := window_button |}.

(** What [on_resize] does to the controls. *)
Definition on_resize (self : t) (width height : Z) : t :=
  {| slider :=
       {| Control.x := Control.x (slider self);
          Control.y := Control.y (slider self);
          Control.width := width - GUI_PADDING * 2;
          Control.height := Control.height (slider self) |};
     play_pause_button := play_pause_button self;
     window_button := window_button self |}.

Definition controls (self : t) : list Control.t :=
  [slider self; play_pause_button self; window_button self].

(** [on_mouse_press]: the controls whose [on_mouse_press] runs. *)
Definition on_mouse_press (self : t) (px py : Z) : list Control.t :=
  filter (fun control => Control.hit_test control px py) (controls self).

End Layout.

(** ** The slider (mixaqubes.py, lines 137-190) *)

Module Slider.

Inductive event : Type :=
| on_begin_scroll
| on_end_scroll
| on_change (value : float).

(** [dispatched] logs the dispatched events; [scheduled] counts the
    [seek_request] calls that [pyglet.clock.schedule_once] has pending;
    [capturing] is set by [capture_events]. *)
Record t : Type := mk {
  control : Control.t;
  min : float;
  max : float;
  seek_value : option float;
  capturing : bool;
  dispatched : list event;
  scheduled : nat
}.

(** Python's [max(a, b)] and [min(a, b)]: the first argument unless the
    second is greater, respectively smaller. *)
Definition py_max (a b : float) : float := if (a <? b)%float then b else a.
Definition py_min (a b : float) : float := if (b <? a)%float then b else a.

Definition coordinate_to_value (self : t) (px : Z) : result float :=
  let? d := Py.float_of_int (px - Control.x (control self)) in
  let? w := Py.float_of_int (Control.width (control self)) in
  let? q := Py.truediv d w in
  Ok (q * (max self - min self) + min self)%float.

Definition on_mouse_press (self : t) (px py : Z) : result t :=
  let? value := coordinate_to_value self px in
  Ok {| control := control self; min := min self; max := max self;
        seek_value := seek_value self;
        capturing := true;
        dispatched := dispatched self ++ [on_begin_scroll; on_change value];
        scheduled := S (scheduled self) |}.

Definition on_mouse_drag (self : t) (px py : Z) : result t :=
  let? v := coordinate_to_value self px in
  let value := py_min (py_max v (min self)) (max self) in
  Ok {| control := control self; min := min self; max := max self;
        seek_value := Some value;
        capturing := capturing self;
        dispatched := dispatched self;
        scheduled := match seek_value self with
                     | None => S (scheduled self)
                     | Some _ => scheduled self
                     end |}.

Definition on_mouse_release (self : t) (px py : Z) : t :=
  {| control := control self; min := min self; max := max self;
     seek_value := None;
     capturing := false;
     dispatched := dispatched self ++ [on_end_scroll];
     scheduled := scheduled self |}.

Definition seek_request (self : t) : t :=
  match seek_value self with
  | Some value =>
      {| control := control self; min := min self; max := max self;
         seek_value := None;
         capturing := capturing self;
         dispatched := dispatched self ++ [on_change value];
         scheduled := scheduled self |}
  | None => self
  end.

(** What can happen to a slider: the three mouse events, and the clock
    running one pending [seek_request]. *)
Inductive input : Type :=
| Press (px py : Z)
| Drag (px py : Z)
| Release (px py : Z)
| Tick.

Inductive step : t -> input -> t -> Prop :=
| step_press (s s' : t) (px py : Z) :
    on_mouse_press s px py = Ok s' -> step s (Press px py) s'
| step_drag (s s' : t) (px py : Z) :
    on_mouse_drag s px py = Ok s' -> step s (Drag px py) s'
| step_release (s : t) (px py : Z) :
    step s (Release px py) (on_mouse_release s px py)
| step_tick (s : t) (n : nat) :
    scheduled s = S n ->
    step s Tick
      (seek_request {| control := control s; min := min s; max := max s;
                       seek_value := seek_value s; capturing := capturing s;
                       dispatched := dispatched s; scheduled := n |}).

(** The slider [__init__] builds, once placed and given its range. *)
Definition init (control : Control.t) (min max : float) : t :=
  {| control := control; min := min; max := max; seek_value := None;
     capturing := false; dispatched := []; scheduled := O |}.

Inductive reachable (s0 : t) : t -> Prop :=
| reach_init : reachable s0 s0
| reach_step (s s' : t) (i : input) :
    reachable s0 s -> step s i s' -> reachable s0 s'.

End Slider.

(** ** Scrolling (mixaqubes.py, lines 468-477) *)

Module Scroll.

(** The window's [_player_playing] and its player. *)
Record t : Type := mk { _player_playing : bool; player : Player.t }.

Definition on_begin_scroll (self : t) : t :=
  {| _player_playing := Player.playing (player self);
     player := Player.pause (player self) |}.

Definition on_change (self : t) (value : float) : t :=
  {| _player_playing := _player_playing self;
     player := Player.seek (player self) value |}.

Definition on_end_scroll (self : t) : t :=
  if _player_playing self
  then {| _player_playing := _player_playing self;
          player := Player.play (player self) |}
  else self.

(** The window handles what the slider dispatched. *)
Definition handle (self : t) (e : Slider.event) : t :=
  match e with
  | Slider.on_begin_scroll => on_begin_scroll self
  | Slider.on_end_scroll => on_end_scroll self
  | Slider.on_change value => on_change self value
  end.

End Scroll.

(** ** More concrete inputs *)

Module Sample.

(** The manifest of [Example.window] with the tempo set to 0. *)
Definition still_entry : PlayerWindow.ClipEntry :=
  {| PlayerWindow.bpm := 0%float; PlayerWindow.key := "8A";
     PlayerWindow.loops := [("basic"%string, Some {| PlayerWindow.beats := 8 |})] |}.

Definition still_window : PlayerWindow.t :=
  {| PlayerWindow.clips := [("song"%string, still_entry)];
     PlayerWindow.dir := "media"; PlayerWindow.active_clip := [];
     PlayerWindow.active_bar := 0; PlayerWindow.active_bpm := 0%float;
     PlayerWindow.active_key := "" |}.

(** A window with three cached bars at the addresses 0, 1 and 2. *)
Definition cached_window : PlayerWindow.t :=
  {| PlayerWindow.clips := []; PlayerWindow.dir := "media";
     PlayerWindow.active_clip := [0%nat; 1%nat; 2%nat];
     PlayerWindow.active_bar := 0; PlayerWindow.active_bpm := 120%float;
     PlayerWindow.active_key := "8A" |}.

Definition idle_player : Player.t :=
  {| Player.playing := false; Player.queued := []; Player.seeks := [] |}.

End Sample.

(** * Properties *)

(** ** Results *)

Lemma rbind_Ok {A B : Type} (r : result A) (k : A -> result B) (b : B) :
  rbind r k = Ok b -> exists a, r = Ok a /\ k a = Ok b.
Proof.
  destruct r as [a | e]; simpl; intros H.
  - exists a. split; [reflexivity | exact H].
  - discriminate H.
Qed.

Lemma Ok_inj {A : Type} (a b : A) : Ok a = Ok b -> a = b.
Proof. intros H. injection H as H. exact H. Qed.

(** ** The fade-in effect *)

Section FadeInFacts.

Import FadeIn.
Local Open Scope R_scope.

Lemma process_Ok (f f' : t) (x out : Torch.Tensor) :
  process f x = Ok (out, f') ->
  exists a b,
    start_ratio f = Ok a /\ end_ratio f = Ok b /\
    fade f (Torch.last_dim x) = Ok (Torch.linspace a b (Torch.last_dim x)) /\
    out = Torch.mul x (Torch.linspace a b (Torch.last_dim x)) /\
    f' = step f.
Proof.
  unfold process, fade. intros H.
  destruct (start_ratio f) as [a |]; [| discriminate H].
  destruct (end_ratio f) as [b |]; [| discriminate H].
  simpl in H. apply Ok_inj in H. injection H as <- <-.
  exists a, b. repeat split.
Qed.

Lemma fade_intro (f : t) (n : nat) (a b : R) :
  start_ratio f = Ok a -> end_ratio f = Ok b ->
  fade f n = Ok (Torch.linspace a b n).
Proof. unfold fade. intros -> ->. reflexivity. Qed.

Lemma process_intro (f : t) (x : Torch.Tensor) (a b : R) :
  start_ratio f = Ok a -> end_ratio f = Ok b ->
  process f x
  = Ok (Torch.mul x (Torch.linspace a b (Torch.last_dim x)), step f).
Proof.
  intros Ha Hb. unfold process.
  rewrite (fade_intro f _ a b Ha Hb). reflexivity.
Qed.

Lemma process_state (f f' : t) (x out : Torch.Tensor) :
  process f x = Ok (out, f') -> f' = step f.
Proof.
  intros H. destruct (process_Ok _ _ _ _ H) as (a & b & _ & _ & _ & _ & Hs).
  exact Hs.
Qed.

Lemma end_gain_step (f : t) : end_gain f = gain (step f).
Proof. reflexivity. Qed.

Lemma step_s0 : step s0 = s1.
Proof. reflexivity. Qed.

Lemma step_s1 : step s1 = s2.
Proof. reflexivity. Qed.

Lemma step_s2 : step s2 = s3.
Proof. reflexivity. Qed.

Lemma step_s3 : step s3 = s3.
Proof. reflexivity. Qed.

Lemma reachable_step (f : t) : reachable f -> reachable (step f).
Proof.
  unfold reachable.
  intros [-> | [-> | [-> | ->]]];
    [rewrite step_s0 | rewrite step_s1 | rewrite step_s2 | rewrite step_s3];
    auto.
Qed.

Lemma reachable_init : reachable init.
Proof. left. reflexivity. Qed.

Lemma F2R_of_Q (x : float) (q : Q) : Py.SF2Q (Prim2SF x) = q -> Py.F2R x = Q2R q.
Proof. unfold Py.F2R. intros ->. reflexivity. Qed.

Lemma threshold_above_1 : 1 < overflow_threshold.
Proof. unfold overflow_threshold. apply IZR_lt. reflexivity. Qed.

Lemma pow10_le (a b : R) : a <= b -> Rpower 10 a <= Rpower 10 b.
Proof. intros H. apply Rle_Rpower; [lra | exact H]. Qed.

Lemma pow10_lt (a b : R) : a < b -> Rpower 10 a < Rpower 10 b.
Proof. intros H. apply Rpower_lt; lra. Qed.

Lemma pow10_lt_1 (a : R) : a < 0 -> Rpower 10 a < 1.
Proof.
  intros H. rewrite <- (Rpower_O 10) by lra.
  apply Rpower_lt; lra.
Qed.

Lemma pow10_pos (a : R) : 0 < Rpower 10 a.
Proof. apply exp_pos. Qed.

Lemma threshold_below_hundredth : underflow_threshold < / 100.
Proof.
  unfold underflow_threshold. apply Rinv_lt_contravar.
  - apply Rmult_lt_0_compat; [lra |]. apply IZR_lt. reflexivity.
  - apply IZR_lt. reflexivity.
Qed.

Lemma pow10_minus_2 : Rpower 10 (Ropp 2) = / 100.
Proof.
  rewrite Rpower_Ropp. f_equal.
  change 2 with (INR 2). rewrite Rpower_pow by lra. simpl. lra.
Qed.

(** A finite exponent between -2 and 0 gives a power between 1/100 and 1:
    neither overflow nor underflow. *)
Lemma pow10_in_range (x : float) :
  Py.is_finite x = true -> -2 <= Py.F2R x <= 0 ->
  pow10 x = Ok (Rpower 10 (Py.F2R x)).
Proof.
  intros Hfin [Hlo Hhi].
  assert (Hlt : Rpower 10 (Py.F2R x) < overflow_threshold).
  { apply Rle_lt_trans with 1; [| apply threshold_above_1].
    rewrite <- (Rpower_O 10) by lra. apply pow10_le, Hhi. }
  assert (Hgt : underflow_threshold < Rpower 10 (Py.F2R x)).
  { apply Rlt_le_trans with (/ 100); [apply threshold_below_hundredth |].
    rewrite <- pow10_minus_2. apply pow10_le. lra. }
  unfold pow10. unfold Py.is_finite in Hfin.
  destruct (Prim2SF x) as [s | s | | s m e]; try discriminate Hfin; cbv zeta;
    destruct (Rle_dec overflow_threshold (Rpower 10 (Py.F2R x))) as [Hn | _];
    try lra;
    destruct (Rle_dec (Rpower 10 (Py.F2R x)) underflow_threshold) as [Hn | _];
    try lra; reflexivity.
Qed.

Lemma pow10_of_Q (x : float) (n d : Z) :
  Py.is_finite x = true ->
  Py.SF2Q (Prim2SF x) = (n # Z.to_pos d)%Q -> (0 < d)%Z ->
  (- 2 * d <= n <= 0)%Z ->
  pow10 x = Ok (Rpower 10 (IZR n / IZR d)).
Proof.
  intros Hfin Hq Hd [Hlo Hhi].
  assert (Hx : Py.F2R x = IZR n / IZR d).
  { rewrite (F2R_of_Q _ _ Hq). unfold Q2R. simpl Qnum. simpl Qden.
    rewrite Z2Pos.id by exact Hd. reflexivity. }
  rewrite <- Hx. apply pow10_in_range; [exact Hfin |].
  rewrite Hx. apply IZR_le in Hlo, Hhi. apply IZR_lt in Hd.
  rewrite mult_IZR in Hlo.
  assert (Hinv : 0 < / IZR d) by apply Rinv_0_lt_compat, Hd.
  assert (Hone : IZR d * / IZR d = 1) by (apply Rinv_r; lra).
  unfold Rdiv. split; nra.
Qed.

Lemma start_ratio_s0 : start_ratio s0 = Ok (Rpower 10 (-3 / 2)).
Proof.
  apply (pow10_of_Q _ (-3) 2); [reflexivity | vm_compute; reflexivity | lia | lia].
Qed.

Lemma start_ratio_s1 : start_ratio s1 = Ok (Rpower 10 (-1 / 1)).
Proof.
  apply (pow10_of_Q _ (-1) 1); [reflexivity | vm_compute; reflexivity | lia | lia].
Qed.

Lemma start_ratio_s2 : start_ratio s2 = Ok (Rpower 10 (-1 / 2)).
Proof.
  apply (pow10_of_Q _ (-1) 2); [reflexivity | vm_compute; reflexivity | lia | lia].
Qed.

Lemma start_ratio_s3 : start_ratio s3 = Ok 1.
Proof.
  transitivity (Ok (A := R) (Rpower 10 (0 / 1))).
  - apply (pow10_of_Q _ 0 1); [reflexivity | vm_compute; reflexivity | lia | lia].
  - f_equal. replace (0 / 1) with 0 by lra. apply Rpower_O. lra.
Qed.

Lemma end_ratio_step (f : t) : end_ratio f = start_ratio (step f).
Proof. reflexivity. Qed.

(** The ratios of a reachable state: both are defined, and they rise within
    (0, 1]. *)
Lemma reachable_ratios (f : t) :
  reachable f ->
  exists a b,
    start_ratio f = Ok a /\ end_ratio f = Ok b /\ 0 < a /\ a <= b /\ b <= 1.
Proof.
  intros Hf. rewrite end_ratio_step.
  destruct Hf as [-> | [-> | [-> | ->]]].
  - rewrite step_s0, start_ratio_s0, start_ratio_s1. eexists _, _.
    split; [reflexivity |]. split; [reflexivity |].
    split; [apply pow10_pos |]. split.
    + apply pow10_le. lra.
    + left. apply pow10_lt_1. lra.
  - rewrite step_s1, start_ratio_s1, start_ratio_s2. eexists _, _.
    split; [reflexivity |]. split; [reflexivity |].
    split; [apply pow10_pos |]. split.
    + apply pow10_le. lra.
    + left. apply pow10_lt_1. lra.
  - rewrite step_s2, start_ratio_s2, start_ratio_s3. eexists _, _.
    split; [reflexivity |]. split; [reflexivity |].
    split; [apply pow10_pos |]. split.
    + left. apply pow10_lt_1. lra.
    + lra.
  - rewrite step_s3, start_ratio_s3. exists 1, 1.
    split; [reflexivity |]. split; [reflexivity |]. lra.
Qed.

(** On a reachable state [process] returns. *)
Lemma reachable_process (f : t) (x : Torch.Tensor) :
  reachable f ->
  exists a b,
    start_ratio f = Ok a /\ end_ratio f = Ok b /\
    0 < a /\ a <= b /\ b <= 1 /\
    process f x
    = Ok (Torch.mul x (Torch.linspace a b (Torch.last_dim x)), step f).
Proof.
  intros Hf. destruct (reachable_ratios f Hf) as (a & b & Ha & Hb & H0 & Hab & H1).
  exists a, b. repeat split; try assumption.
  apply process_intro; assumption.
Qed.

Lemma run_cons (x : Torch.Tensor) (xs : list Torch.Tensor) (f : t) (a b : R) :
  start_ratio f = Ok a -> end_ratio f = Ok b ->
  run (x :: xs) f = run xs (step f).
Proof.
  intros Ha Hb. simpl run. rewrite (process_intro f x a b Ha Hb). reflexivity.
Qed.

Lemma reachable_run (ts : list Torch.Tensor) :
  forall f, reachable f ->
    run ts f = Ok (Nat.iter (length ts) step f) /\
    reachable (Nat.iter (length ts) step f).
Proof.
  induction ts as [| x ts IH]; intros f Hf.
  - split; [reflexivity | exact Hf].
  - destruct (reachable_ratios f Hf) as (a & b & Ha & Hb & _).
    rewrite (run_cons x ts f a b Ha Hb).
    simpl length. rewrite Nat.iter_succ_r.
    apply IH, reachable_step, Hf.
Qed.

End FadeInFacts.

(** ** Linear ramps *)

Section Linspace.

Import Torch.
Local Open Scope R_scope.

Lemma linspace_length (a b : R) (n : nat) : length (linspace a b n) = n.
Proof. unfold linspace. rewrite length_map, length_seq. reflexivity. Qed.

Lemma linspace_nth (a b : R) (n i : nat) :
  (i < n)%nat ->
  nth_error (linspace a b n) i = Some (a + INR i * ((b - a) / (INR n - 1))).
Proof.
  intros Hi. unfold linspace.
  rewrite nth_error_map, nth_error_seq.
  destruct (Nat.ltb_spec i n) as [_ | Hge]; [reflexivity | lia].
Qed.

Lemma linspace_one (a b : R) : linspace a b 1 = [a].
Proof. unfold linspace. simpl. f_equal. lra. Qed.

Lemma linspace_last (a b : R) (n : nat) : last (linspace a b (S (S n))) 0 = b.
Proof.
  unfold linspace. rewrite seq_S, map_app.
  change (map ?f [?x]) with [f x]. rewrite last_last. simpl Nat.add.
  assert (H : INR (S (S n)) - 1 = INR (S n)) by (rewrite (S_INR (S n)); lra).
  rewrite H. pose proof (pos_INR n) as Hn. rewrite S_INR in *.
  field. lra.
Qed.

Lemma linspace_monotone (a b : R) (n i j : nat) (x y : R) :
  a <= b -> (i <= j)%nat ->
  nth_error (linspace a b n) i = Some x ->
  nth_error (linspace a b n) j = Some y ->
  a <= x /\ x <= y /\ y <= b.
Proof.
  intros Hab Hij Hx Hy.
  assert (Hj : (j < n)%nat).
  { rewrite <- (linspace_length a b n). apply nth_error_Some. congruence. }
  rewrite linspace_nth in Hx by lia. rewrite linspace_nth in Hy by lia.
  injection Hx as <-. injection Hy as <-.
  destruct (Nat.eq_dec n 1) as [-> | Hn1].
  - assert (i = 0)%nat as -> by lia. assert (j = 0)%nat as -> by lia.
    simpl. lra.
  - assert (Hn : 1 < INR n) by (apply (lt_INR 1); lia).
    set (d := (b - a) / (INR n - 1)).
    assert (Hd : 0 <= d).
    { unfold d. apply Rmult_le_pos; [lra |]. left. apply Rinv_0_lt_compat. lra. }
    assert (Hend : a + (INR n - 1) * d = b) by (unfold d; field; lra).
    assert (Hi' : 0 <= INR i) by apply pos_INR.
    assert (Hij' : INR i <= INR j) by (apply le_INR; exact Hij).
    assert (Hjn : INR j <= INR n - 1).
    { replace (INR n - 1) with (INR (n - 1)).
      - apply le_INR. lia.
      - rewrite minus_INR by lia. simpl. lra. }
    repeat split; nra.
Qed.

End Linspace.

(** ** Bytes, samples and channels *)

Section Samples.

Import Numpy.

Lemma byte_to_Z_range (b : byte) : 0 <= byte_to_Z b < 256.
Proof.
  unfold byte_to_Z. pose proof (Byte.to_N_bounded b) as H.
  split; [apply N2Z.is_nonneg | lia].
Qed.

Lemma byte_of_to_Z (b : byte) : byte_of_Z (byte_to_Z b) = b.
Proof.
  unfold byte_of_Z. rewrite Z.mod_small by apply byte_to_Z_range.
  unfold byte_to_Z. rewrite N2Z.id, Byte.of_to_N. reflexivity.
Qed.

Lemma int16_of_bytes_range (lo hi : byte) : int16 (int16_of_bytes lo hi).
Proof.
  unfold int16, int16_of_bytes.
  pose proof (byte_to_Z_range lo). pose proof (byte_to_Z_range hi).
  destruct (Z.ltb_spec (byte_to_Z lo + 256 * byte_to_Z hi) 32768); lia.
Qed.

Lemma bytes_of_int16_of_bytes (lo hi : byte) :
  bytes_of_int16 (int16_of_bytes lo hi) = [lo; hi].
Proof.
  unfold bytes_of_int16, int16_of_bytes.
  pose proof (byte_to_Z_range lo) as Hlo. pose proof (byte_to_Z_range hi) as Hhi.
  set (l := byte_to_Z lo) in *. set (h := byte_to_Z hi) in *.
  assert (Hu : (if l + 256 * h <? 32768 then l + 256 * h else l + 256 * h - 65536)
               mod 65536 = l + 256 * h).
  { destruct (Z.ltb_spec (l + 256 * h) 32768).
    - apply Z.mod_small. lia.
    - symmetry. apply (Z.mod_unique_pos _ _ (-1)); lia. }
  rewrite Hu.
  assert (Hm : (l + 256 * h) mod 256 = l).
  { symmetry. apply (Z.mod_unique_pos _ _ h); lia. }
  assert (Hd : (l + 256 * h) / 256 = h).
  { symmetry. apply (Z.div_unique_pos _ _ _ l); lia. }
  rewrite Hm, Hd. unfold l, h. rewrite !byte_of_to_Z. reflexivity.
Qed.

Lemma trunc_IZR (z : Z) : trunc (IZR z) = z.
Proof.
  unfold trunc. destruct (Rle_dec 0 (IZR z)) as [_ | _].
  - symmetry. apply Int_part_spec. lra.
  - rewrite <- opp_IZR.
    rewrite <- (Int_part_spec (IZR (- z)) (- z)) by lra. lia.
Qed.

Lemma astype_int16_IZR (z : Z) : int16 z -> astype_int16 (IZR z) = z.
Proof.
  unfold int16, astype_int16, wrap16. intros H. rewrite trunc_IZR.
  rewrite Z.mod_small by lia. lia.
Qed.

(** Induction on a list two elements at a time. *)
Lemma list_pair_ind {A : Type} (P : list A -> Prop) :
  P [] -> (forall x, P [x]) -> (forall x y l, P l -> P (x :: y :: l)) ->
  forall l, P l.
Proof.
  intros Hnil Hone Hstep.
  assert (H : forall l, P l /\ forall x, P (x :: l)).
  { induction l as [| y l [IH1 IH2]].
    - split; [exact Hnil | exact Hone].
    - split; [apply IH2 | intros x; apply Hstep, IH1]. }
  intros l. apply H.
Qed.

Lemma stride2_cons {A : Type} (y : A) (l : list A) :
  Py.stride2 (y :: l) = y :: Py.stride2 (tl l).
Proof. destruct l as [| z l]; reflexivity. Qed.

Lemma stride2_length {A : Type} (l : list A) :
  (length (Py.stride2 l) + length (Py.stride2 (tl l)) = length l /\
   length (Py.stride2 (tl l)) <= length (Py.stride2 l) <=
     S (length (Py.stride2 (tl l))))%nat.
Proof.
  induction l as [| x | x y l IH] using list_pair_ind.
  - simpl. lia.
  - simpl. lia.
  - rewrite !stride2_cons. simpl tl. rewrite stride2_cons.
    simpl length. lia.
Qed.

Lemma interleave_stride2 {A : Type} (l : list A) :
  length (Py.stride2 l) = length (Py.stride2 (tl l)) ->
  interleave (Py.stride2 l) (Py.stride2 (tl l)) = l.
Proof.
  induction l as [| x | x y l IH] using list_pair_ind.
  - reflexivity.
  - simpl. discriminate.
  - rewrite !stride2_cons. simpl tl. rewrite stride2_cons.
    simpl. intros H. rewrite IH by lia. reflexivity.
Qed.

Lemma interleave_map {A B : Type} (f : A -> B) (a b : list A) :
  interleave (map f a) (map f b) = map f (interleave a b).
Proof.
  revert b. induction a as [| x a IH]; intros [| y b]; simpl;
    try reflexivity.
  rewrite IH. reflexivity.
Qed.

Lemma interleave_length {A : Type} (a b : list A) :
  length a = length b -> length (interleave a b) = (2 * length a)%nat.
Proof.
  revert b. induction a as [| x a IH]; intros [| y b]; simpl;
    try discriminate; try reflexivity.
  intros H. rewrite IH by lia. lia.
Qed.

Lemma tobytes_length (a : list Z) : length (tobytes a) = (2 * length a)%nat.
Proof.
  unfold tobytes. induction a as [| z a IH]; simpl; [reflexivity | lia].
Qed.

Lemma frombuffer_int16_Ok (data : list byte) (ints : list Z) :
  frombuffer_int16 data = Ok ints ->
  tobytes ints = data /\ Forall int16 ints /\
  length data = (2 * length ints)%nat.
Proof.
  revert ints. induction data as [| b | lo hi data IH] using list_pair_ind;
    intros ints H.
  - injection H as <-. repeat split. constructor.
  - discriminate H.
  - simpl in H. apply rbind_Ok in H. destruct H as (ints' & H' & Hk).
    injection Hk as <-. destruct (IH _ H') as (Hb & Hr & Hl).
    repeat split.
    + change (tobytes (int16_of_bytes lo hi :: ints'))
        with (bytes_of_int16 (int16_of_bytes lo hi) ++ tobytes ints').
      rewrite bytes_of_int16_of_bytes, Hb. reflexivity.
    + constructor; [apply int16_of_bytes_range | exact Hr].
    + simpl. lia.
Qed.

Lemma frombuffer_int16_even (data : list byte) :
  Nat.even (length data) = true -> exists ints, frombuffer_int16 data = Ok ints.
Proof.
  induction data as [| b | lo hi data IH] using list_pair_ind; intros H.
  - exists []. reflexivity.
  - discriminate H.
  - destruct (IH H) as (ints & Hi). exists (int16_of_bytes lo hi :: ints).
    simpl. rewrite Hi. reflexivity.
Qed.

Lemma map_astype_IZR (l : list Z) :
  Forall int16 l -> map astype_int16 (map IZR l) = l.
Proof.
  induction 1 as [| z l Hz _ IH]; simpl; [reflexivity |].
  rewrite astype_int16_IZR, IH by exact Hz. reflexivity.
Qed.

End Samples.

(** ** Deinterleaving and reinterleaving *)

Section Channels.

Import Numpy Clip Ready.

Lemma deinterleave_Ok (data : list byte) (chans : list (list Z)) :
  deinterleave data = Ok chans ->
  exists a b,
    chans = [a; b] /\ length a = length b /\
    tobytes (interleave a b) = data /\ Forall int16 (interleave a b) /\
    length data = (4 * length a)%nat.
Proof.
  unfold deinterleave. intros H.
  apply rbind_Ok in H. destruct H as (raw & Hraw & Hstack).
  unfold stack2 in Hstack.
  destruct (Nat.eqb_spec (length (Py.stride2 raw)) (length (Py.stride2 (tl raw))))
    as [Hlen | _]; [| discriminate Hstack].
  injection Hstack as <-.
  destruct (frombuffer_int16_Ok _ _ Hraw) as (Hb & Hr & Hl).
  pose proof (stride2_length raw) as [Hsum _].
  exists (Py.stride2 raw), (Py.stride2 (tl raw)).
  rewrite (interleave_stride2 raw Hlen).
  repeat split; try assumption. lia.
Qed.

Lemma deinterleave_total (data : list byte) :
  Z.of_nat (length data) mod 4 = 0 -> exists chans, deinterleave data = Ok chans.
Proof.
  intros Hmod. apply Z.mod_divide in Hmod; [| lia]. destruct Hmod as [k Hk].
  assert (Heven : Nat.even (length data) = true).
  { apply Nat.even_spec. exists (2 * Z.to_nat k)%nat. lia. }
  destruct (frombuffer_int16_even data Heven) as (raw & Hraw).
  destruct (frombuffer_int16_Ok _ _ Hraw) as (_ & _ & Hl).
  pose proof (stride2_length raw) as [Hsum Hle].
  unfold deinterleave. rewrite Hraw. simpl rbind. unfold stack2.
  destruct (Nat.eqb_spec (length (Py.stride2 raw)) (length (Py.stride2 (tl raw))))
    as [_ | Hne].
  - eexists. reflexivity.
  - exfalso. lia.
Qed.

Lemma deinterleave_aligned (data : list byte) (chans : list (list Z)) :
  deinterleave data = Ok chans -> Z.of_nat (length data) mod 4 = 0.
Proof.
  intros H. destruct (deinterleave_Ok _ _ H) as (a & b & _ & _ & _ & _ & Hl).
  rewrite Hl. rewrite Nat2Z.inj_mul, Z.mul_comm. apply Z.mod_mul. lia.
Qed.

Lemma reinterleave_stereo (n : nat) (x : Torch.Tensor) :
  stereo n x ->
  exists a b,
    x = [a; b] /\
    reinterleave x = Ok (tobytes (map astype_int16 (interleave a b))) /\
    length (tobytes (map astype_int16 (interleave a b))) = (4 * n)%nat.
Proof.
  intros (a & b & -> & Ha & Hb). exists a, b. split; [reflexivity |].
  split.
  - unfold reinterleave, assign_interleaved. simpl.
    rewrite Ha, Hb, Nat.eqb_refl. reflexivity.
  - rewrite tobytes_length, length_map, interleave_length by lia. lia.
Qed.

Lemma to_torch_Ok (self self' : Clip.t) (ms : MemorySource.t) (x : Torch.Tensor) :
  to_torch self ms = Ok (x, self') ->
  exists chans,
    deinterleave (MemorySource._data ms) = Ok chans /\
    x = map (map IZR) chans /\
    self' = set_audio_format self (MemorySource.audio_format ms).
Proof.
  unfold to_torch. intros H. apply rbind_Ok in H.
  destruct H as (chans & Hc & Hk). injection Hk as <- <-.
  exists chans. repeat split. exact Hc.
Qed.

Lemma to_torch_stereo (data : list byte) (chans : list (list Z)) :
  deinterleave data = Ok chans ->
  stereo (length data / 4) (map (map IZR) chans).
Proof.
  intros H. destruct (deinterleave_Ok _ _ H) as (a & b & -> & Hab & _ & _ & Hl).
  exists (map IZR a), (map IZR b). rewrite !length_map.
  assert (Hq : (length data / 4 = length a)%nat).
  { rewrite Hl, Nat.mul_comm. apply Nat.div_mul. lia. }
  repeat split; lia.
Qed.

(** The round trip on the bytes. *)
Lemma reinterleave_deinterleave (data : list byte) (chans : list (list Z)) :
  deinterleave data = Ok chans ->
  reinterleave (map (map IZR) chans) = Ok data.
Proof.
  intros H. destruct (deinterleave_Ok _ _ H) as (a & b & -> & Hab & Hb & Hr & _).
  unfold reinterleave, assign_interleaved. simpl.
  rewrite !length_map, Hab, Nat.eqb_refl. simpl.
  rewrite interleave_map, map_astype_IZR by exact Hr.
  rewrite Hb. reflexivity.
Qed.

Lemma mul_row_length (row fade : list R) :
  length fade = length row -> length (Torch.mul_row row fade) = length row.
Proof.
  revert fade. induction row as [| x row IH]; intros [| r fade]; simpl;
    try discriminate; try reflexivity.
  intros H. rewrite IH by lia. reflexivity.
Qed.

Lemma process_stereo (n : nat) (f f' : FadeIn.t) (x out : Torch.Tensor) :
  stereo n x -> FadeIn.process f x = Ok (out, f') -> stereo n out.
Proof.
  intros (a & b & -> & Ha & Hb) H.
  destruct (process_Ok _ _ _ _ H) as (r0 & r1 & _ & _ & _ & -> & _).
  unfold Torch.mul, Torch.last_dim. simpl map.
  eexists _, _. split; [reflexivity |].
  split; rewrite mul_row_length; rewrite ?linspace_length; lia.
Qed.

Lemma apply_effects_Ok (effs : list FadeIn.t) (x : Torch.Tensor)
    (out : Torch.Tensor * list FadeIn.t) :
  apply_effects effs x = Ok out ->
  match effs with
  | [] => out = (x, [])
  | e :: rest =>
      exists y, FadeIn.process e x = Ok (y, FadeIn.step e) /\
                out = (y, if FadeIn.is_done (FadeIn.step e) then rest
                          else FadeIn.step e :: rest)
  end.
Proof.
  destruct effs as [| e rest]; simpl; intros H.
  - apply Ok_inj in H. symmetry. exact H.
  - destruct (FadeIn.process e x) as [[y e'] |] eqn:Hp; [| discriminate H].
    pose proof (process_state _ _ _ _ Hp) as ->.
    simpl in H. exists y. split; [reflexivity |].
    destruct (FadeIn.is_done (FadeIn.step e)); apply Ok_inj in H;
      symmetry; exact H.
Qed.

Lemma apply_effects_stereo (n : nat) (effs : list FadeIn.t) (x : Torch.Tensor)
    (out : Torch.Tensor * list FadeIn.t) :
  stereo n x -> apply_effects effs x = Ok out -> stereo n (fst out).
Proof.
  intros Hx H. apply apply_effects_Ok in H.
  destruct effs as [| e rest].
  - subst out. exact Hx.
  - destruct H as (y & Hp & ->). apply (process_stereo n e _ x y Hx Hp).
Qed.

(** The effects are ready exactly when they are reachable. *)
Lemma same_float_eq (x y : float) : same_float x y = true -> x = y.
Proof.
  unfold same_float. intros H. apply Prim2SF_inj.
  destruct (Prim2SF x) as [s | s | | s m e], (Prim2SF y) as [s' | s' | | s' m' e'];
    try discriminate H; try reflexivity.
  - apply Bool.eqb_prop in H. subst s'. reflexivity.
  - apply Bool.eqb_prop in H. subst s'. reflexivity.
  - apply andb_prop in H. destruct H as [H He].
    apply andb_prop in H. destruct H as [Hs Hm].
    apply Bool.eqb_prop in Hs. apply Pos.eqb_eq in Hm. apply Z.eqb_eq in He.
    subst. reflexivity.
Qed.

Lemma effect_ready_reachable (f : FadeIn.t) :
  effect_ready f = true -> FadeIn.reachable f.
Proof.
  unfold effect_ready. intros H. apply existsb_exists in H.
  destruct H as (s & Hin & Hs). apply andb_prop in Hs. destruct Hs as [Hg Hi].
  apply same_float_eq in Hg, Hi.
  assert (Hf : f = s).
  { destruct f as [g i], s as [g' i']. simpl in Hg, Hi. subst. reflexivity. }
  subst s. unfold FadeIn.reachable.
  destruct Hin as [<- | [<- | [<- | [<- | []]]]]; auto.
Qed.

Lemma reachable_effect_ready (f : FadeIn.t) :
  FadeIn.reachable f -> effect_ready f = true.
Proof. intros [-> | [-> | [-> | ->]]]; reflexivity. Qed.

Lemma effects_ready_step (e : FadeIn.t) (rest : list FadeIn.t) :
  forallb effect_ready (e :: rest) = true ->
  forallb effect_ready
    (if FadeIn.is_done (FadeIn.step e) then rest else FadeIn.step e :: rest) = true.
Proof.
  simpl. intros H. apply andb_prop in H. destruct H as [He Hrest].
  destruct (FadeIn.is_done (FadeIn.step e)); [exact Hrest |].
  simpl. rewrite Hrest, andb_true_r.
  apply reachable_effect_ready, reachable_step, effect_ready_reachable, He.
Qed.

(** Ready effects process every tensor. *)
Lemma apply_effects_ready (effs : list FadeIn.t) (x : Torch.Tensor) :
  forallb effect_ready effs = true ->
  exists out, apply_effects effs x = Ok out.
Proof.
  destruct effs as [| e rest]; intros H.
  - eexists. reflexivity.
  - simpl in H. apply andb_prop in H. destruct H as [He _].
    apply effect_ready_reachable in He.
    destruct (reachable_process e x He) as (a & b & _ & _ & _ & _ & _ & Hp).
    simpl. rewrite Hp. simpl.
    destruct (FadeIn.is_done (FadeIn.step e)); eexists; reflexivity.
Qed.

Lemma init_same_length (d1 d2 : list byte) (fmt : AudioFormat.t)
    (m1 : MemorySource.t) :
  length d1 = length d2 -> MemorySource.init d1 fmt = Ok m1 ->
  exists m2,
    MemorySource.init d2 fmt = Ok m2 /\ MemorySource._data m2 = d2 /\
    MemorySource.audio_format m2 = fmt /\ MemorySource._file m2 = 0.
Proof.
  unfold MemorySource.init. intros Hlen H. rewrite <- Hlen.
  apply rbind_Ok in H. destruct H as (bps & H1 & H).
  apply rbind_Ok in H. destruct H as (len & H2 & H).
  apply rbind_Ok in H. destruct H as (dur & H3 & _).
  rewrite H1. simpl rbind. rewrite H2. simpl rbind. rewrite H3. simpl rbind.
  eexists. repeat split.
Qed.

Lemma init_Ok (d : list byte) (fmt : AudioFormat.t) (m : MemorySource.t) :
  MemorySource.init d fmt = Ok m ->
  MemorySource._data m = d /\ MemorySource.audio_format m = fmt /\
  MemorySource._file m = 0 /\ MemorySource._max_offset m = Z.of_nat (length d).
Proof.
  unfold MemorySource.init. intros H.
  apply rbind_Ok in H. destruct H as (bps & _ & H).
  apply rbind_Ok in H. destruct H as (len & _ & H).
  apply rbind_Ok in H. destruct H as (dur & _ & H).
  injection H as <-. repeat split.
Qed.

End Channels.

(** ** One call of [next_bar] *)

Section NextBar.

Import Clip Ready.

Lemma getitem_Ok {A : Type} (l : list A) (i : Z) (a : A) :
  Py.getitem l i = Ok a -> l <> [].
Proof.
  unfold Py.getitem. intros H ->. simpl in H.
  destruct (i <? 0); simpl in H;
    destruct ((0 <=? i) && (i <? 0)) eqn:E; try discriminate H; lia.
Qed.

Lemma getitem_index {A : Type} (l : list A) (i : Z) :
  0 <= i < Z.of_nat (length l) ->
  exists a, Py.getitem l i = Ok a /\ nth_error l (Z.to_nat i) = Some a.
Proof.
  intros Hi. unfold Py.getitem.
  destruct (Z.ltb_spec i 0) as [Hneg | _]; [lia |].
  destruct (Z.leb_spec 0 i) as [_ | Hneg]; [| lia].
  destruct (Z.ltb_spec i (Z.of_nat (length l))) as [_ | Hge]; [| lia].
  simpl. destruct (nth_error l (Z.to_nat i)) as [a |] eqn:E.
  - exists a. split; reflexivity.
  - apply nth_error_None in E. lia.
Qed.

Lemma next_bar_inv (c c' : Clip.t) (h h' : Heap) (r : addr) :
  next_bar c h = Ok ((r, c'), h') -> next_bar_post c h r c' h'.
Proof.
  unfold next_bar, bind, lift, deref. intros H.
  destruct (Py.getitem (bars c) (bar c)) as [src |] eqn:Hsrc; [| discriminate H].
  destruct (nth_error h src) as [ms |] eqn:Hms; [| discriminate H].
  destruct (to_torch c ms) as [[x c1] |] eqn:Ht; [| discriminate H].
  destruct (to_torch_Ok _ _ _ _ Ht) as (chans & Hc & -> & ->).
  change (effects (set_audio_format c (MemorySource.audio_format ms)))
    with (effects c) in H.
  destruct (apply_effects (effects c) (map (map IZR) chans)) as [[x' effs'] |] eqn:Ha;
    [| discriminate H].
  unfold from_torch, new_MemorySource, bind, lift, alloc, ret in H.
  destruct (reinterleave x') as [data' |] eqn:Hre; [| discriminate H].
  cbn [audio_format set_audio_format bars bar] in H.
  destruct (MemorySource.init data' (MemorySource.audio_format ms))
    as [ms' |] eqn:Hinit; [| discriminate H].
  destruct (Py.mod_ _ _) as [bar' |] eqn:Hmod; [| discriminate H].
  injection H as <- <- <-.
  unfold Py.mod_ in Hmod.
  destruct (Z.eqb_spec (Z.of_nat (length (bars c))) 0) as [_ | _];
    [discriminate Hmod |]. injection Hmod as <-.
  destruct (init_Ok _ _ _ Hinit) as (Hd & _).
  exists src, ms, chans, (x', effs'), ms'. rewrite Hd. simpl fst. simpl snd.
  repeat split; assumption.
Qed.

Lemma next_bar_intro (c c' : Clip.t) (h h' : Heap) (r : addr) :
  next_bar_post c h r c' h' -> next_bar c h = Ok ((r, c'), h').
Proof.
  intros (src & ms & chans & [x' effs'] & ms' & Hsrc & Hms & Hc & Ha & Hre & Hinit
           & -> & -> & ->).
  unfold next_bar, bind, lift, deref. rewrite Hsrc, Hms.
  unfold to_torch. rewrite Hc. simpl rbind. cbv iota beta.
  change (effects (set_audio_format c (MemorySource.audio_format ms)))
    with (effects c).
  rewrite Ha. cbv iota beta.
  simpl fst in Hre. simpl snd.
  unfold from_torch, new_MemorySource, bind, lift, alloc, ret.
  rewrite Hre. cbn [audio_format set_audio_format bars bar]. rewrite Hinit.
  unfold Py.mod_.
  destruct (Z.eqb_spec (Z.of_nat (length (bars c))) 0) as [Hz | _].
  - apply getitem_Ok in Hsrc. destruct (bars c); [congruence | discriminate Hz].
  - reflexivity.
Qed.

(** A call returns as soon as the bar under the cursor is playable and the
    effects are ready. *)
Lemma next_bar_total (c : Clip.t) (h : Heap) (src : addr) :
  Py.getitem (bars c) (bar c) = Ok src -> playable_at h src = true ->
  forallb effect_ready (effects c) = true ->
  exists c' ms', next_bar c h = Ok ((length h, c'), h ++ [ms']).
Proof.
  unfold playable_at, playable. intros Hsrc Hp Heffs.
  destruct (nth_error h src) as [ms |] eqn:Hms; [| discriminate Hp].
  apply andb_prop in Hp. destruct Hp as [Hal Hinit].
  apply Z.eqb_eq in Hal.
  destruct (MemorySource.init _ _) as [m0 |] eqn:Hm0; [| discriminate Hinit].
  destruct (deinterleave_total _ Hal) as (chans & Hc).
  pose proof (to_torch_stereo _ _ Hc) as Hst.
  destruct (apply_effects_ready (effects c) (map (map IZR) chans) Heffs)
    as (out & Hout).
  apply (apply_effects_stereo _ (effects c) _ out) in Hst; [| exact Hout].
  destruct (reinterleave_stereo _ _ Hst) as (a & b & _ & Hre & Hlen).
  destruct (deinterleave_Ok _ _ Hc) as (a0 & b0 & _ & _ & _ & _ & Hl).
  assert (Hsame : length (MemorySource._data ms)
                  = length (Numpy.tobytes (map Numpy.astype_int16 (Numpy.interleave a b)))).
  { rewrite Hlen. rewrite Hl at 2. rewrite (Nat.mul_comm 4 (length a0)), Nat.div_mul by lia.
    exact Hl. }
  destruct (init_same_length _ _ _ _ Hsame Hm0) as (ms' & Hinit' & Hd' & _).
  eexists _, ms'. apply next_bar_intro.
  exists src, ms, chans, out, ms'. rewrite Hd'.
  repeat split; try eassumption; reflexivity.
Qed.

End NextBar.

(** ** Sequences of calls *)

Section Calls.

Import Clip Ready.

Lemma apply_effects_snd (effs : list FadeIn.t) (x : Torch.Tensor)
    (out : Torch.Tensor * list FadeIn.t) :
  apply_effects effs x = Ok out ->
  snd out =
  match effs with
  | [] => []
  | e :: rest => if FadeIn.is_done (FadeIn.step e) then rest else FadeIn.step e :: rest
  end.
Proof.
  intros H. apply apply_effects_Ok in H. destruct effs as [| e rest].
  - subst out. reflexivity.
  - destruct H as (y & _ & ->). reflexivity.
Qed.

Lemma apply_effects_fst (effs : list FadeIn.t) (x : Torch.Tensor)
    (out : Torch.Tensor * list FadeIn.t) :
  apply_effects effs x = Ok out ->
  match effs with
  | [] => fst out = x
  | e :: _ => FadeIn.process e x = Ok (fst out, FadeIn.step e)
  end.
Proof.
  intros H. apply apply_effects_Ok in H. destruct effs as [| e rest].
  - subst out. reflexivity.
  - destruct H as (y & Hp & ->). exact Hp.
Qed.

Lemma post_fields (c c' : Clip.t) (h h' : Heap) (r : addr) :
  next_bar_post c h r c' h' ->
  bars c' = bars c /\
  bar c' = (bar c + 1) mod Z.of_nat (length (bars c)) /\
  effects c' =
    match effects c with
    | [] => []
    | e :: rest => if FadeIn.is_done (FadeIn.step e) then rest else FadeIn.step e :: rest
    end /\
  r = length h /\ (exists ms', h' = h ++ [ms']) /\ current_bar c' = Some r.
Proof.
  intros (src & ms & chans & out & ms' & _ & _ & _ & Ha & _ & _ & -> & -> & ->).
  cbn [update bars bar effects current_bar set_audio_format].
  rewrite (apply_effects_snd _ _ _ Ha). repeat split. exists ms'. reflexivity.
Qed.

Lemma post_cursor (c c' : Clip.t) (h h' : Heap) (r : addr) :
  next_bar_post c h r c' h' -> 0 <= bar c' < Z.of_nat (length (bars c')).
Proof.
  intros Hpost. destruct (post_fields _ _ _ _ _ Hpost) as (-> & -> & _).
  destruct Hpost as (src & _ & _ & _ & _ & Hsrc & _).
  apply getitem_Ok in Hsrc. apply Z.mod_pos_bound.
  destruct (bars c); [congruence | simpl length; lia].
Qed.

Lemma post_fade (c c' : Clip.t) (h h' : Heap) (r : addr) (f : FadeIn.t)
    (rest : list FadeIn.t) :
  effects c = f :: rest -> next_bar_post c h r c' h' -> fade_applied f c h r h'.
Proof.
  intros He (src & ms & chans & out & ms' & Hsrc & Hms & Hc & Ha & Hre & _ & -> & ->
              & _).
  apply apply_effects_fst in Ha. rewrite He in Ha.
  exists src, ms, chans, (fst out, FadeIn.step f), ms'.
  repeat split; try assumption.
  rewrite nth_error_app2, Nat.sub_diag by lia. reflexivity.
Qed.

Lemma playable_at_app (h l : Heap) (a : addr) :
  playable_at h a = true -> playable_at (h ++ l) a = true.
Proof.
  unfold playable_at. destruct (nth_error h a) as [ms |] eqn:E; [| discriminate].
  rewrite nth_error_app1 by (apply nth_error_Some; congruence).
  rewrite E. trivial.
Qed.

Lemma playable_at_lt (h : Heap) (a : addr) :
  playable_at h a = true -> (a < length h)%nat.
Proof.
  unfold playable_at. destruct (nth_error h a) as [ms |] eqn:E; [| discriminate].
  intros _. apply nth_error_Some. congruence.
Qed.

Lemma forallb_playable_app (h l : Heap) (bs : list addr) :
  forallb (playable_at h) bs = true -> forallb (playable_at (h ++ l)) bs = true.
Proof.
  rewrite !forallb_forall. intros H a Ha. apply playable_at_app, H, Ha.
Qed.

(** A call on a clip whose bars are all playable and whose effects are
    ready returns, whatever position in the bars the cursor has. *)
Lemma next_bar_playable (c : Clip.t) (h : Heap) :
  0 <= bar c < Z.of_nat (length (bars c)) ->
  forallb (playable_at h) (bars c) = true ->
  forallb effect_ready (effects c) = true ->
  exists c' ms',
    next_bar c h = Ok ((length h, c'), h ++ [ms']) /\
    next_bar_post c h (length h) c' (h ++ [ms']).
Proof.
  intros Hbar Hall Heffs.
  destruct (getitem_index _ _ Hbar) as (src & Hsrc & Hnth).
  assert (Hp : playable_at h src = true).
  { rewrite forallb_forall in Hall. apply Hall.
    apply nth_error_In with (n := Z.to_nat (bar c)). exact Hnth. }
  destruct (next_bar_total c h src Hsrc Hp Heffs) as (c' & ms' & Hcall).
  exists c', ms'. split; [exact Hcall | apply next_bar_inv, Hcall].
Qed.

Lemma well_formed_spec (c : Clip.t) (h : Heap) :
  well_formed c h = true <->
  0 <= bar c < Z.of_nat (length (bars c)) /\
  forallb (playable_at h) (bars c) = true /\
  forallb effect_ready (effects c) = true.
Proof.
  unfold well_formed. rewrite !andb_true_iff, Z.leb_le, Z.ltb_lt. tauto.
Qed.

End Calls.

Section Chains.

Import Clip Ready.

Lemma cons_neq {A : Type} (x : A) (l : list A) : x :: l <> l.
Proof. intros H. apply (f_equal (@length A)) in H. simpl in H. lia. Qed.

Lemma is_done_s0 : FadeIn.is_done FadeIn.s0 = false.
Proof. reflexivity. Qed.




(** The invariant of the clip: a call on a well-formed clip returns and
    leaves a well-formed clip. *)
Lemma next_bar_chain (c : Clip.t) (h : Heap) :
  well_formed c h = true ->
  exists c' ms',
    next_bar c h = Ok ((length h, c'), h ++ [ms']) /\
    next_bar_post c h (length h) c' (h ++ [ms']) /\
    well_formed c' (h ++ [ms']) = true.
Proof.
  intros Hwf. apply well_formed_spec in Hwf. destruct Hwf as (Hbar & Hall & Heffs).
  destruct (next_bar_playable c h Hbar Hall Heffs) as (c' & ms' & Hcall & Hpost).
  exists c', ms'. repeat split; try assumption.
  apply well_formed_spec. split; [| split].
  - apply (post_cursor _ _ _ _ _ Hpost).
  - destruct (post_fields _ _ _ _ _ Hpost) as (-> & _).
    apply forallb_playable_app, Hall.
  - destruct (post_fields _ _ _ _ _ Hpost) as (_ & _ & -> & _).
    destruct (effects c) as [| e rest]; [reflexivity |].
    apply effects_ready_step, Heffs.
Qed.

Lemma post_new_object (c c' : Clip.t) (h h' : Heap) (r : addr) :
  next_bar_post c h r c' h' ->
  exists src ms chans out ms',
    Py.getitem (bars c) (bar c) = Ok src /\ nth_error h src = Some ms /\
    deinterleave (MemorySource._data ms) = Ok chans /\
    nth_error h' r = Some ms' /\
    apply_effects (effects c) (map (map IZR) chans) = Ok out /\
    reinterleave (fst out) = Ok (MemorySource._data ms') /\
    MemorySource.audio_format ms' = MemorySource.audio_format ms.
Proof.
  intros (src & ms & chans & out & ms' & Hsrc & Hms & Hc & Ha & Hre & Hinit & -> & ->
            & _).
  exists src, ms, chans, out, ms'. repeat split; try assumption.
  - rewrite nth_error_app2, Nat.sub_diag by lia. reflexivity.
  - apply (init_Ok _ _ _ Hinit).
Qed.

End Chains.

(** ** The calls of a fresh fade-in *)

Section FadeInCalls.

Import FadeIn.
Local Open Scope R_scope.

Lemma gain_after_cases (k : nat) :
  Decibel.gain_after k
  = match k with
    | O => -30
    | 1%nat => -20
    | 2%nat => -10
    | _ => 0
    end.
Proof.
  unfold Decibel.gain_after.
  destruct k as [| [| [| k]]]; try reflexivity.
  rewrite Z.min_l by lia. reflexivity.
Qed.

Lemma ratio_after (k : nat) :
  Decibel.ratio (Decibel.gain_after k)
  = match k with
    | O => Rpower 10 (-3 / 2)
    | 1%nat => Rpower 10 (-1 / 1)
    | 2%nat => Rpower 10 (-1 / 2)
    | _ => 1
    end.
Proof.
  unfold Decibel.ratio. rewrite gain_after_cases.
  destruct k as [| [| [| k]]].
  - f_equal. lra.
  - f_equal. lra.
  - f_equal. lra.
  - replace (0 / 20) with 0 by lra. apply Rpower_O. lra.
Qed.

Lemma ratio_after_done (k : nat) :
  (3 <= k)%nat -> Decibel.ratio (Decibel.gain_after k) = 1.
Proof.
  intros Hk. rewrite ratio_after.
  destruct k as [| [| [| k]]]; try lia. reflexivity.
Qed.

Lemma iter_step_s3 (n : nat) : Nat.iter n step s3 = s3.
Proof. induction n as [| n IH]; [reflexivity |]. simpl. rewrite IH. apply step_s3. Qed.

Lemma iter_step_init (n : nat) :
  Nat.iter n step init
  = match n with
    | O => s0
    | 1%nat => s1
    | 2%nat => s2
    | _ => s3
    end.
Proof.
  destruct n as [| [| [| n]]]; try reflexivity.
  rewrite !Nat.iter_succ_r.
  change (step (step (step init))) with s3. apply iter_step_s3.
Qed.

Lemma ratio_after_rises (k : nat) :
  0 < Decibel.ratio (Decibel.gain_after k) /\
  Decibel.ratio (Decibel.gain_after k) <= Decibel.ratio (Decibel.gain_after (S k)) /\
  Decibel.ratio (Decibel.gain_after (S k)) <= 1 /\
  ((k < 3)%nat ->
   Decibel.ratio (Decibel.gain_after k) < Decibel.ratio (Decibel.gain_after (S k))).
Proof.
  rewrite !ratio_after.
  destruct k as [| [| [| k]]].
  - split; [apply pow10_pos |]. split; [apply pow10_le; lra |].
    split; [left; apply pow10_lt_1; lra |]. intros _. apply pow10_lt. lra.
  - split; [apply pow10_pos |]. split; [apply pow10_le; lra |].
    split; [left; apply pow10_lt_1; lra |]. intros _. apply pow10_lt. lra.
  - split; [apply pow10_pos |]. split; [left; apply pow10_lt_1; lra |].
    split; [lra |]. intros _. apply pow10_lt_1. lra.
  - split; [lra |]. split; [lra |]. split; [lra |]. lia.
Qed.

End FadeInCalls.

(** ** From a tensor to bytes and back *)

Section Reverse.

Import Numpy.

Lemma byte_to_of_Z (z : Z) : byte_to_Z (byte_of_Z z) = z mod 256.
Proof.
  unfold byte_to_Z, byte_of_Z.
  assert (Hr : 0 <= z mod 256 < 256) by (apply Z.mod_pos_bound; lia).
  pose proof (Byte.to_of_N_option_map (Z.to_N (z mod 256))) as H.
  destruct (N.leb_spec (Z.to_N (z mod 256)) 255) as [_ | Hgt]; [| lia].
  destruct (Byte.of_N (Z.to_N (z mod 256))) as [b |]; [| discriminate H].
  simpl in H. injection H as ->. apply Z2N.id. lia.
Qed.

Lemma int16_of_bytes_of_int16 (z : Z) :
  int16 z ->
  match bytes_of_int16 z with
  | [lo; hi] => int16_of_bytes lo hi = z
  | _ => False
  end.
Proof.
  unfold int16, bytes_of_int16, int16_of_bytes. intros Hz.
  rewrite !byte_to_of_Z.
  set (u := z mod 65536).
  assert (Hu : 0 <= u < 65536) by (apply Z.mod_pos_bound; lia).
  assert (Hq : 0 <= u / 256 < 256).
  { split; [apply Z.div_pos; lia | apply Z.div_lt_upper_bound; lia]. }
  rewrite (Z.mod_small (u / 256)) by exact Hq.
  rewrite Z.mod_mod by lia.
  replace (u mod 256 + 256 * (u / 256)) with u
    by (pose proof (Z.div_mod u 256); lia).
  destruct (Z.ltb_spec u 32768) as [Hlt | Hge].
  - destruct (Z.le_gt_cases 0 z) as [Hpos | Hneg].
    + unfold u. apply Z.mod_small. lia.
    + exfalso. assert (Hz' : u = z + 65536).
      { unfold u. symmetry. apply (Z.mod_unique_pos _ _ (-1)); lia. }
      lia.
  - destruct (Z.le_gt_cases 0 z) as [Hpos | Hneg].
    + exfalso. assert (Hz' : u = z) by (unfold u; apply Z.mod_small; lia). lia.
    + assert (Hz' : u = z + 65536).
      { unfold u. symmetry. apply (Z.mod_unique_pos _ _ (-1)); lia. }
      lia.
Qed.

Lemma frombuffer_tobytes (ints : list Z) :
  Forall int16 ints -> frombuffer_int16 (tobytes ints) = Ok ints.
Proof.
  induction 1 as [| z ints Hz _ IH]; [reflexivity |].
  change (tobytes (z :: ints)) with (bytes_of_int16 z ++ tobytes ints).
  pose proof (int16_of_bytes_of_int16 z Hz) as Hb.
  unfold bytes_of_int16 in *. simpl app. simpl frombuffer_int16.
  rewrite IH. simpl rbind. rewrite Hb. reflexivity.
Qed.

Lemma stride2_interleave {A : Type} (a : list A) :
  forall b : list A,
    length a = length b ->
    Py.stride2 (interleave a b) = a /\ Py.stride2 (tl (interleave a b)) = b.
Proof.
  induction a as [| x a IH]; intros [| y b] Hlen; try discriminate Hlen;
    [split; reflexivity |].
  simpl in Hlen. destruct (IH b) as [Ha Hb]; [lia |].
  simpl interleave. split.
  - change (Py.stride2 (x :: y :: interleave a b))
      with (x :: Py.stride2 (interleave a b)).
    rewrite Ha. reflexivity.
  - simpl tl. rewrite stride2_cons, Hb. reflexivity.
Qed.

Lemma Forall_interleave {A : Type} (P : A -> Prop) (a : list A) :
  forall b : list A,
    Forall P a -> Forall P b -> Forall P (interleave a b).
Proof.
  induction a as [| x a IH]; intros [| y b] Ha Hb; simpl; try constructor.
  - inversion Ha. assumption.
  - constructor; [inversion Hb; assumption |].
    apply IH; [inversion Ha | inversion Hb]; assumption.
Qed.




End Reverse.

(** ** The samples of a faded bar *)

Section FadedBars.

Import Numpy Clip Ready.
Local Open Scope R_scope.




(** The ratios of the effect after [k] steps. *)
Lemma iter_ratios (k : nat) :
  let f := Nat.iter k FadeIn.step FadeIn.init in
  FadeIn.reachable f /\
  Py.F2R (FadeIn.gain f) = Decibel.gain_after k /\
  FadeIn.start_ratio f = Ok (Decibel.ratio (Decibel.gain_after k)) /\
  FadeIn.end_ratio f = Ok (Decibel.ratio (Decibel.gain_after (S k))).
Proof.
  intros f. unfold f. rewrite end_ratio_step, <- Nat.iter_succ.
  rewrite !iter_step_init, !ratio_after, gain_after_cases.
  destruct k as [| [| [| k]]].
  - split; [left; reflexivity |].
    split; [| split; [apply start_ratio_s0 | apply start_ratio_s1]].
    unfold Py.F2R. vm_compute Py.SF2Q. unfold Q2R. simpl. lra.
  - split; [right; left; reflexivity |].
    split; [| split; [apply start_ratio_s1 | apply start_ratio_s2]].
    unfold Py.F2R. vm_compute Py.SF2Q. unfold Q2R. simpl. lra.
  - split; [right; right; left; reflexivity |].
    split; [| split; [apply start_ratio_s2 | apply start_ratio_s3]].
    unfold Py.F2R. vm_compute Py.SF2Q. unfold Q2R. simpl. lra.
  - split; [right; right; right; reflexivity |].
    split; [| split; apply start_ratio_s3].
    unfold Py.F2R. vm_compute Py.SF2Q. unfold Q2R. simpl. lra.
Qed.

(** The state after [k] calls and its two ratios. *)
Lemma run_init (xs : list Torch.Tensor) :
  let f := Nat.iter (length xs) FadeIn.step FadeIn.init in
  FadeIn.run xs FadeIn.init = Ok f /\
  FadeIn.reachable f /\
  Py.F2R (FadeIn.gain f) = Decibel.gain_after (length xs) /\
  FadeIn.start_ratio f = Ok (Decibel.ratio (Decibel.gain_after (length xs))) /\
  FadeIn.end_ratio f = Ok (Decibel.ratio (Decibel.gain_after (S (length xs)))).
Proof.
  intros f. destruct (reachable_run xs FadeIn.init reachable_init) as [Hrun _].
  split; [exact Hrun |]. apply iter_ratios.
Qed.











End FadedBars.

Section FadeInGains.

Import Clip Ready.
Local Open Scope R_scope.






End FadeInGains.

(** * The claims *)

(** C1 (amended).  A returning [process] leaves the effect as one [step]
    leaves it.  From the initial state (gain -30, increment 10) three calls
    return; the effect is not done after the first and the second call and
    is done after the third; the gains are -20, -10 and 0.  The third call
    ramps up to the ratio 1 (0 dB), and on a bar of at least two samples per
    channel the last sample of its ramp is exactly 1. *)
Theorem fadein_done_after_three_calls :
  (forall (f f' : FadeIn.t) (x out : Torch.Tensor),
     FadeIn.process f x = Ok (out, f') -> f' = FadeIn.step f) /\
  (forall x1 x2 x3 : Torch.Tensor,
     exists out1 f1 out2 f2 out3 f3 ramp3,
       FadeIn.process FadeIn.init x1 = Ok (out1, f1) /\
       FadeIn.process f1 x2 = Ok (out2, f2) /\
       FadeIn.process f2 x3 = Ok (out3, f3) /\
       FadeIn.is_done FadeIn.init = false /\
       FadeIn.is_done f1 = false /\
       FadeIn.is_done f2 = false /\
       FadeIn.is_done f3 = true /\
       FadeIn.gain f1 = (-20)%float /\
       FadeIn.gain f2 = (-10)%float /\
       FadeIn.gain f3 = 0%float /\
       FadeIn.fade f2 (Torch.last_dim x3) = Ok ramp3 /\
       out3 = Torch.mul x3 ramp3 /\
       FadeIn.end_ratio f2 = Ok 1%R /\
       forall n : nat,
         exists ramp,
           FadeIn.fade f2 (S (S n)) = Ok ramp /\ last ramp 0%R = 1%R).
Proof.
  split; [intros f f' x out; apply process_state |].
  intros x1 x2 x3.
  assert (He : FadeIn.end_ratio FadeIn.s2 = Ok 1%R).
  { rewrite end_ratio_step, step_s2. apply start_ratio_s3. }
  pose proof (process_intro FadeIn.s0 x1 _ _ start_ratio_s0 start_ratio_s1) as H1.
  pose proof (process_intro FadeIn.s1 x2 _ _ start_ratio_s1 start_ratio_s2) as H2.
  pose proof (process_intro FadeIn.s2 x3 _ _ start_ratio_s2 He) as H3.
  rewrite step_s0 in H1. rewrite step_s1 in H2. rewrite step_s2 in H3.
  eexists _, FadeIn.s1, _, FadeIn.s2, _, FadeIn.s3, _.
  split; [exact H1 |]. split; [exact H2 |]. split; [exact H3 |].
  repeat (split; [reflexivity |]).
  split; [apply (fade_intro _ _ _ _ start_ratio_s2 He) |].
  split; [reflexivity |]. split; [exact He |].
  intros n. eexists. split; [apply (fade_intro _ _ _ _ start_ratio_s2 He) |].
  apply linspace_last.
Qed.

(** C1, as stated, fails on a bar of one sample per channel: the ramp of the
    third call is the start ratio 10^(-1/2) alone, which is below 1. *)
Lemma fadein_one_sample_ramp :
  let x := Example.one_frame_tensor in
  exists out1 f1 out2 f2,
    FadeIn.process FadeIn.init x = Ok (out1, f1) /\
    FadeIn.process f1 x = Ok (out2, f2) /\
    FadeIn.fade f2 (Torch.last_dim x) = Ok [Rpower 10 (-1 / 2)] /\
    (last [Rpower 10 (-1 / 2)] 0 < 1)%R.
Proof.
  intros x.
  pose proof (process_intro FadeIn.s0 x _ _ start_ratio_s0 start_ratio_s1) as H1.
  pose proof (process_intro FadeIn.s1 x _ _ start_ratio_s1 start_ratio_s2) as H2.
  rewrite step_s0 in H1. rewrite step_s1 in H2.
  eexists _, FadeIn.s1, _, FadeIn.s2.
  split; [exact H1 |]. split; [exact H2 |]. split.
  - rewrite (fade_intro FadeIn.s2 _ _ 1%R start_ratio_s2).
    + simpl Torch.last_dim. rewrite linspace_one. reflexivity.
    + rewrite end_ratio_step, step_s2. apply start_ratio_s3.
  - simpl last. apply pow10_lt_1. lra.
Qed.

(** C7 (amended).  After any sequence of [process] calls from the initial
    state the effect is at the gain [min(0, 10 k - 30)] dB, [k] being the
    number of calls, and the next call returns.  Its ramp goes from
    [start_ratio = 10^(gain/20)] to [end_ratio], the ratio of the next
    gain, with [0 < start_ratio <= end_ratio <= 1], strictly rising until
    the effect is done.  The ramp has one sample per frame, its first sample
    is [start_ratio], its samples never decrease and never leave
    [start_ratio, end_ratio], and on a bar of at least two frames its last
    sample is [end_ratio]; on a bar of one frame it is [start_ratio] alone.
    The call after it starts where this one ended, and the gain is at
    most 0. *)
Theorem fadein_ratio_monotone :
  forall (xs : list Torch.Tensor) (x : Torch.Tensor),
    let k := length xs in
    let a := Decibel.ratio (Decibel.gain_after k) in
    let b := Decibel.ratio (Decibel.gain_after (S k)) in
    exists f out f',
      FadeIn.run xs FadeIn.init = Ok f /\
      Py.F2R (FadeIn.gain f) = Decibel.gain_after k /\
      FadeIn.start_ratio f = Ok a /\
      FadeIn.end_ratio f = Ok b /\
      (0 < a)%R /\ (a <= b)%R /\ (b <= 1)%R /\
      ((k < 3)%nat -> (a < b)%R) /\
      FadeIn.process f x = Ok (out, f') /\
      FadeIn.start_ratio f' = Ok b /\
      (FadeIn.gain f <=? 0)%float = true /\
      (FadeIn.gain f' <=? 0)%float = true /\
      (exists ramp,
         FadeIn.fade f (Torch.last_dim x) = Ok ramp /\ out = Torch.mul x ramp) /\
      forall n : nat,
        exists ramp,
          FadeIn.fade f n = Ok ramp /\
          length ramp = n /\
          ((1 <= n)%nat -> nth_error ramp 0 = Some a) /\
          ((2 <= n)%nat -> last ramp 0%R = b) /\
          (n = 1%nat -> ramp = [a]) /\
          forall (i j : nat) (u v : R),
            (i <= j)%nat ->
            nth_error ramp i = Some u ->
            nth_error ramp j = Some v ->
            (a <= u /\ u <= v /\ v <= b)%R.
Proof.
  intros xs x k a b.
  destruct (run_init xs) as (Hrun & Hreach & Hgain & Ha & Hb). fold k a b in Ha, Hb, Hgain.
  set (f := Nat.iter (length xs) FadeIn.step FadeIn.init) in *.
  destruct (ratio_after_rises k) as (H0 & Hab & H1 & Hlt). fold a b in H0, Hab, H1, Hlt.
  assert (Hle : forall g, FadeIn.reachable g -> (FadeIn.gain g <=? 0)%float = true).
  { intros g [-> | [-> | [-> | ->]]]; reflexivity. }
  exists f, (Torch.mul x (Torch.linspace a b (Torch.last_dim x))), (FadeIn.step f).
  split; [exact Hrun |]. split; [exact Hgain |].
  split; [exact Ha |]. split; [exact Hb |].
  split; [exact H0 |]. split; [exact Hab |]. split; [exact H1 |].
  split; [exact Hlt |].
  split; [apply process_intro; assumption |].
  split; [rewrite <- end_ratio_step; exact Hb |].
  split; [apply Hle, Hreach |].
  split; [apply Hle, reachable_step, Hreach |].
  split.
  { eexists. split; [apply (fade_intro _ _ _ _ Ha Hb) | reflexivity]. }
  intros n. exists (Torch.linspace a b n).
  split; [apply (fade_intro _ _ _ _ Ha Hb) |].
  split; [apply linspace_length |].
  split.
  { intros Hn. rewrite linspace_nth by lia. f_equal. simpl INR. lra. }
  split.
  { intros Hn. destruct n as [| [| n]]; try lia. apply linspace_last. }
  split.
  { intros ->. apply linspace_one. }
  intros i j u v Hij Hu Hv.
  exact (linspace_monotone _ _ _ _ _ _ _ Hab Hij Hu Hv).
Qed.

(** C7, as stated, fails on a bar of one sample per channel: the ramp of the
    first call is the start ratio 10^(-3/2) alone and does not run up to the
    end ratio 10^(-1). *)
Lemma fadein_ramp_stops_short :
  exists ramp b,
    FadeIn.fade FadeIn.init (Torch.last_dim Example.one_frame_tensor) = Ok ramp /\
    FadeIn.end_ratio FadeIn.init = Ok b /\
    (last ramp 0 < b)%R.
Proof.
  exists [Rpower 10 (-3 / 2)], (Rpower 10 (-1 / 1)).
  assert (Hb : FadeIn.end_ratio FadeIn.s0 = Ok (Rpower 10 (-1 / 1))).
  { rewrite end_ratio_step, step_s0. apply start_ratio_s1. }
  split; [| split; [exact Hb |]].
  - rewrite (fade_intro FadeIn.s0 _ _ _ start_ratio_s0 Hb).
    simpl Torch.last_dim. rewrite linspace_one. reflexivity.
  - simpl last. apply pow10_lt. lra.
Qed.

(** C2.  Whenever a call of [next_bar] returns: with a non-empty chain, the
    head processes the bar under the cursor, and it leaves the chain in this
    very call exactly when it [is_done] right after [process] (otherwise it
    stays, in its new state, at the head); with an empty chain the new
    buffer has the bytes and the format of the bar. *)
Theorem effect_chain_pops_when_done :
  forall (c c' : Clip.t) (h h' : Heap) (r : addr),
    Clip.next_bar c h = Ok ((r, c'), h') ->
    exists src ms chans,
      Py.getitem (Clip.bars c) (Clip.bar c) = Ok src /\
      nth_error h src = Some ms /\
      Clip.deinterleave (MemorySource._data ms) = Ok chans /\
      match Clip.effects c with
      | [] =>
          Clip.effects c' = [] /\
          exists ms',
            nth_error h' r = Some ms' /\
            MemorySource._data ms' = MemorySource._data ms /\
            MemorySource.audio_format ms' = MemorySource.audio_format ms
      | head :: rest =>
          exists out head',
            FadeIn.process head (map (map IZR) chans) = Ok (out, head') /\
            (FadeIn.is_done head' = true <-> Clip.effects c' = rest) /\
            (FadeIn.is_done head' = false <-> Clip.effects c' = head' :: rest) /\
            Ready.fade_applied head c h r h'
      end.
Proof.
  intros c c' h h' r Hcall. apply next_bar_inv in Hcall.
  destruct (post_fields _ _ _ _ _ Hcall) as (_ & _ & Heff & _).
  destruct (post_new_object _ _ _ _ _ Hcall)
    as (src & ms & chans & out & ms' & Hsrc & Hms & Hc & Hnew & Ha & Hre & Hfmt).
  exists src, ms, chans. repeat split; try assumption.
  apply apply_effects_fst in Ha.
  destruct (Clip.effects c) as [| head rest] eqn:He.
  - split; [exact Heff |]. exists ms'. repeat split; try assumption.
    rewrite Ha, (reinterleave_deinterleave _ _ Hc) in Hre.
    injection Hre as <-. reflexivity.
  - exists (fst out), (FadeIn.step head). split; [exact Ha |].
    rewrite Heff.
    destruct (FadeIn.is_done (FadeIn.step head)) eqn:Hd.
    + repeat split; intros; try reflexivity; try discriminate.
      * symmetry in H. exfalso. apply (cons_neq _ _ H).
      * apply (post_fade _ _ _ _ _ _ _ He Hcall).
    + repeat split; intros; try reflexivity; try discriminate.
      * exfalso. apply (cons_neq _ _ H).
      * apply (post_fade _ _ _ _ _ _ _ He Hcall).
Qed.

(** C2 at the freshly built two-bar clip: the call returns and the fade-in,
    not done after one call, stays at the head. *)
Lemma effect_chain_pops_when_done_witness :
  exists (r : addr) (c' : Clip.t) (h' : Heap),
    Clip.next_bar Example.clip2 Example.heap2 = Ok ((r, c'), h') /\
    Clip.effects c' = [FadeIn.s1].
Proof.
  destruct (next_bar_playable Example.clip2 Example.heap2) as (c' & ms' & Hcall & _).
  - simpl. lia.
  - reflexivity.
  - reflexivity.
  - exists (length Example.heap2), c', (Example.heap2 ++ [ms']).
    split; [exact Hcall |].
    destruct (effect_chain_pops_when_done _ _ _ _ _ Hcall)
      as (src & ms & chans & _ & _ & _ & Hmatch).
    simpl in Hmatch. destruct Hmatch as (out & head' & Hp & _ & Hstay & _).
    apply process_state in Hp. subst head'.
    apply Hstay. reflexivity.
Defined.

(** C3.  A returning call on a clip with bars reads the bar under the cursor
    and moves the cursor to [(cursor + 1) mod len(bars)], which is an index
    again; a well-formed clip (playable bars, the cursor an index, effects
    as the program builds them) stays well-formed, so every call returns.  A
    fresh clip over two playable bars returns two different new buffers, the
    cursor goes 0, 1, 0, and the chain still holds the fade-in, not done. *)
Theorem next_bar_advances_cursor :
  (forall (c c' : Clip.t) (h h' : Heap) (r : addr),
     Clip.bars c <> [] ->
     Clip.next_bar c h = Ok ((r, c'), h') ->
     Ready.next_bar_post c h r c' h' /\
     Clip.bars c' = Clip.bars c /\
     Clip.bar c' = (Clip.bar c + 1) mod Z.of_nat (length (Clip.bars c)) /\
     0 <= Clip.bar c' < Z.of_nat (length (Clip.bars c'))) /\
  (forall (c : Clip.t) (h : Heap),
     Ready.well_formed c h = true ->
     exists r c' h',
       Clip.next_bar c h = Ok ((r, c'), h') /\ Ready.well_formed c' h' = true) /\
  (forall (name element : string) (a0 a1 : addr) (bpm : float) (key : string)
          (h : Heap),
     Ready.playable_at h a0 = true ->
     Ready.playable_at h a1 = true ->
     let c := Clip.init name element [a0; a1] bpm key in
     exists r1 c1 h1 r2 c2 h2,
       Clip.next_bar c h = Ok ((r1, c1), h1) /\
       Clip.next_bar c1 h1 = Ok ((r2, c2), h2) /\
       r1 <> r2 /\ ~ In r1 [a0; a1] /\ ~ In r2 [a0; a1] /\
       Clip.bar c = 0 /\ Clip.bar c1 = 1 /\ Clip.bar c2 = 0 /\
       Clip.effects c2 = [FadeIn.s2] /\ FadeIn.is_done FadeIn.s2 = false).
Proof.
  split; [| split].
  - intros c c' h h' r _ Hcall. apply next_bar_inv in Hcall.
    destruct (post_fields _ _ _ _ _ Hcall) as (Hbars & Hbar & _).
    repeat split; try assumption; apply (post_cursor _ _ _ _ _ Hcall).
  - intros c h Hwf.
    destruct (next_bar_chain c h Hwf) as (c' & ms' & Hcall & _ & Hwf').
    exists (length h), c', (h ++ [ms']). split; assumption.
  - intros name element a0 a1 bpm key h H0 H1 c.
    assert (Hwf : Ready.well_formed c h = true).
    { apply well_formed_spec. split; [simpl; lia |].
      split; [| reflexivity].
      simpl. rewrite H0, H1. reflexivity. }
    destruct (next_bar_chain c h Hwf) as (c1 & ms1 & Hcall1 & Hpost1 & Hwf1).
    destruct (next_bar_chain c1 _ Hwf1) as (c2 & ms2 & Hcall2 & Hpost2 & _).
    destruct (post_fields _ _ _ _ _ Hpost1) as (Hbars1 & Hbar1 & Heff1 & _).
    destruct (post_fields _ _ _ _ _ Hpost2) as (_ & Hbar2 & Heff2 & _).
    simpl in Hbars1, Hbar1, Heff1.
    rewrite Hbars1, Hbar1, Heff1 in *. simpl in Hbar2, Heff2.
    apply playable_at_lt in H0, H1.
    exists (length h), c1, (h ++ [ms1]), (length (h ++ [ms1])), c2,
      ((h ++ [ms1]) ++ [ms2]).
    split; [exact Hcall1 |]. split; [exact Hcall2 |].
    rewrite length_app. simpl length.
    split; [lia |]. split; [simpl; lia |]. split; [simpl; lia |].
    split; [reflexivity |]. split; [rewrite Hbar1; reflexivity |].
    split; [rewrite Hbar2; reflexivity |].
    split; [rewrite Heff2; reflexivity | reflexivity].
Qed.

(** C3 at the two-bar clip of the examples. *)
Lemma next_bar_advances_cursor_witness :
  exists r1 c1 h1 r2 c2 h2,
    Clip.next_bar Example.clip2 Example.heap2 = Ok ((r1, c1), h1) /\
    Clip.next_bar c1 h1 = Ok ((r2, c2), h2) /\
    r1 <> r2 /\ Clip.bar c1 = 1 /\ Clip.bar c2 = 0 /\
    Clip.effects c2 = [FadeIn.s2].
Proof.
  destruct next_bar_advances_cursor as (_ & _ & Hscenario).
  destruct (Hscenario "song"%string "intro"%string 0%nat 1%nat 128%float
              "8A"%string Example.heap2 eq_refl eq_refl)
    as (r1 & c1 & h1 & r2 & c2 & h2 & H1 & H2 & Hne & _ & _ & _ & Hb1 & Hb2 & He & _).
  exists r1, c1, h1, r2, c2, h2. repeat split; assumption.
Defined.

(** C4.  On a buffer whose byte length is a multiple of 4, [to_torch]
    returns, and reinterleaving its tensor untouched gives back the bytes of
    the buffer; [from_torch] then allocates the very object the constructor
    builds from these bytes and the format of the buffer. *)
Theorem deinterleave_reinterleave_roundtrip :
  forall (self : Clip.t) (ms : MemorySource.t) (h : Heap),
    Z.of_nat (length (MemorySource._data ms)) mod 4 = 0 ->
    exists x self',
      Clip.to_torch self ms = Ok (x, self') /\
      Clip.reinterleave x = Ok (MemorySource._data ms) /\
      forall m0 : MemorySource.t,
        MemorySource.init (MemorySource._data ms) (MemorySource.audio_format ms)
          = Ok m0 ->
        Clip.from_torch self' x h = Ok (length h, h ++ [m0]) /\
        MemorySource._data m0 = MemorySource._data ms.
Proof.
  intros self ms h Hal.
  destruct (deinterleave_total _ Hal) as (chans & Hc).
  exists (map (map IZR) chans),
    (Clip.set_audio_format self (MemorySource.audio_format ms)).
  pose proof (reinterleave_deinterleave _ _ Hc) as Hre.
  split; [| split].
  - unfold Clip.to_torch. rewrite Hc. reflexivity.
  - exact Hre.
  - intros m0 Hm0. split; [| apply (init_Ok _ _ _ Hm0)].
    unfold Clip.from_torch, new_MemorySource, bind, lift, alloc.
    rewrite Hre. cbn [Clip.audio_format Clip.set_audio_format].
    rewrite Hm0. reflexivity.
Qed.

(** C4 on the two stereo frames of the examples. *)
Lemma deinterleave_reinterleave_roundtrip_witness :
  exists x self',
    Clip.to_torch Example.clip2 (Example.source Example.two_frames Example.stereo16)
      = Ok (x, self') /\
    Clip.reinterleave x = Ok Example.two_frames.
Proof.
  destruct (deinterleave_reinterleave_roundtrip Example.clip2
              (Example.source Example.two_frames Example.stereo16) [] eq_refl)
    as (x & self' & Ht & Hre & _).
  exists x, self'. split; [exact Ht | exact Hre].
Defined.

(** C9 (amended).  [to_torch] returns exactly when the byte length is a
    multiple of 4, and then it yields two arrays, whatever channel count the
    format states, each of [len(data) / 4] elements; for a 16-bit stereo
    format these are one array per channel, each as long as the sample count
    of the buffer. *)
Theorem to_torch_two_channel_arrays :
  forall (self : Clip.t) (ms : MemorySource.t),
    ((exists x self', Clip.to_torch self ms = Ok (x, self')) <->
     Z.of_nat (length (MemorySource._data ms)) mod 4 = 0) /\
    forall (x : Torch.Tensor) (self' : Clip.t),
      Clip.to_torch self ms = Ok (x, self') ->
      length x = 2%nat /\
      Forall (fun row => Z.of_nat (length row)
                         = Z.of_nat (length (MemorySource._data ms)) / 4) x /\
      (AudioFormat.channels (MemorySource.audio_format ms) = 2 ->
       AudioFormat.sample_size (MemorySource.audio_format ms) = 16 ->
       Z.of_nat (length x) = AudioFormat.channels (MemorySource.audio_format ms) /\
       Forall (fun row => Z.of_nat (length row) = Ready.sample_count ms) x).
Proof.
  intros self ms. split.
  - split.
    + intros (x & self' & Ht). destruct (to_torch_Ok _ _ _ _ Ht) as (chans & Hc & _).
      apply (deinterleave_aligned _ _ Hc).
    + intros Hal. destruct (deinterleave_total _ Hal) as (chans & Hc).
      eexists _, _. unfold Clip.to_torch. rewrite Hc. reflexivity.
  - intros x self' Ht. destruct (to_torch_Ok _ _ _ _ Ht) as (chans & Hc & -> & _).
    destruct (deinterleave_Ok _ _ Hc) as (a & b & -> & Hab & _ & _ & Hl).
    assert (Hq : Z.of_nat (length (MemorySource._data ms)) / 4 = Z.of_nat (length a)).
    { rewrite Hl, Nat2Z.inj_mul, Z.mul_comm. apply Z.div_mul. lia. }
    assert (Hrows : Forall (fun row => Z.of_nat (length row)
                       = Z.of_nat (length (MemorySource._data ms)) / 4)
                      (map (map IZR) [a; b])).
    { simpl. rewrite Hq. repeat constructor; rewrite length_map; lia. }
    split; [reflexivity |]. split; [exact Hrows |].
    intros Hch Hsz. split; [rewrite Hch; reflexivity |].
    unfold Ready.sample_count, AudioFormat.bytes_per_sample.
    rewrite Hch, Hsz. exact Hrows.
Qed.

(** C9 on the two stereo frames of the examples. *)
Lemma to_torch_two_channel_arrays_witness :
  exists x self',
    Clip.to_torch Example.clip2 (Example.source Example.two_frames Example.stereo16)
      = Ok (x, self') /\
    length x = 2%nat.
Proof.
  destruct (to_torch_two_channel_arrays Example.clip2
              (Example.source Example.two_frames Example.stereo16)) as [[_ Hret] Hshape].
  destruct (Hret eq_refl) as (x & self' & Ht).
  exists x, self'. split; [exact Ht |].
  apply (Hshape x self' Ht).
Defined.

(** C9, as stated, fails on a mono buffer: eight bytes of 16-bit mono audio
    are four samples of one channel, and [to_torch] yields two arrays of two
    elements. *)
Lemma to_torch_ignores_channel_count :
  let ms := Example.source Example.two_frames Example.mono16 in
  AudioFormat.channels (MemorySource.audio_format ms) = 1 /\
  Ready.sample_count ms = 4 /\
  exists x self',
    Clip.to_torch Example.clip2 ms = Ok (x, self') /\
    length x = 2%nat /\
    Forall (fun row => length row = 2%nat) x.
Proof.
  intros ms. split; [reflexivity |]. split; [reflexivity |].
  exists (map (map IZR) [[1; 3]; [2; 4]]),
    (Clip.set_audio_format Example.clip2 Example.mono16).
  split; [reflexivity |]. split; [reflexivity |].
  repeat constructor.
Qed.




(** ** Seeking *)

Section Seek.

Import MemorySource.

Lemma land_low_bits_clear (x m k : Z) :
  0 <= k -> Z.land m (Z.ones k) = 0 -> Z.land x m mod 2 ^ k = 0.
Proof.
  intros Hk Hm. rewrite <- Z.land_ones by exact Hk.
  rewrite <- Z.land_assoc, Hm. apply Z.land_0_r.
Qed.

Lemma land_round_down (x m k n : Z) :
  0 <= k -> 0 <= n -> Z.land m (Z.ones k) = 0 -> Z.lor m (Z.ones k) = Z.ones n ->
  0 <= x < 2 ^ n -> Z.land x m = 2 ^ k * (x / 2 ^ k).
Proof.
  intros Hk Hn Hdisj Hall Hx.
  assert (Hsplit : x = Z.land x m + x mod 2 ^ k).
  { rewrite <- (Z.land_ones x k) by exact Hk.
    rewrite Z.add_nocarry_lxor, Z.lxor_lor.
    - rewrite <- Z.land_lor_distr_r, Hall, Z.land_ones by exact Hn.
      symmetry. apply Z.mod_small, Hx.
    - rewrite Z.land_assoc, (Z.land_comm (Z.land x m) x), Z.land_assoc,
        <- Z.land_assoc, Hdisj. apply Z.land_0_r.
    - rewrite Z.land_assoc, (Z.land_comm (Z.land x m) x), Z.land_assoc,
        <- Z.land_assoc, Hdisj. apply Z.land_0_r. }
  assert (Hpos : 0 < 2 ^ k) by (apply Z.pow_pos_nonneg; lia).
  pose proof (Z.div_mod x (2 ^ k)) as Hdm. lia.
Qed.

Lemma align4_mod (offset : Z) : align 4 offset mod 4 = 0.
Proof. apply (land_low_bits_clear offset 0xfffffffc 2); [lia | reflexivity]. Qed.

Lemma align2_mod (offset : Z) : align 2 offset mod 2 = 0.
Proof. apply (land_low_bits_clear offset 0xfffffffe 1); [lia | reflexivity]. Qed.

Lemma align4_round (offset : Z) :
  0 <= offset < 2 ^ 32 -> align 4 offset = 4 * (offset / 4).
Proof.
  intros H. apply (land_round_down offset 0xfffffffc 2 32); try lia; reflexivity.
Qed.

Lemma align2_round (offset : Z) :
  0 <= offset < 2 ^ 32 -> align 2 offset = 2 * (offset / 2).
Proof.
  intros H. apply (land_round_down offset 0xfffffffe 1 32); try lia; reflexivity.
Qed.

Lemma land_mask32_range (x m : Z) :
  Z.land m (Z.ones 32) = m -> 0 <= Z.land x m < 2 ^ 32.
Proof.
  intros Hm. rewrite <- Hm, Z.land_assoc, Z.land_ones by lia.
  apply Z.mod_pos_bound. lia.
Qed.

Lemma align_range (bytes_per_sample offset : Z) :
  bytes_per_sample = 2 \/ bytes_per_sample = 4 ->
  0 <= align bytes_per_sample offset < 2 ^ 32.
Proof.
  intros [-> | ->]; unfold align; simpl Z.eqb; cbv iota;
    apply land_mask32_range; reflexivity.
Qed.

Lemma int_total (x : float) :
  Py.is_finite x = true -> exists z, Py.int x = Ok z.
Proof.
  unfold Py.is_finite, Py.int.
  destruct (Prim2SF x); intros H; try discriminate H; eexists; reflexivity.
Qed.

(** On a non-negative float, [int] is the floor. *)
Lemma int_floor (x : float) (z : Z) :
  (0 <=? x)%float = true -> Py.int x = Ok z ->
  0 <= z /\
  (inject_Z z <= Py.SF2Q (Prim2SF x))%Q /\
  (Py.SF2Q (Prim2SF x) < inject_Z z + 1)%Q.
Proof.
  rewrite leb_spec. change (Prim2SF 0) with (S754_zero false).
  unfold Py.int, Py.SF2Q.
  destruct (Prim2SF x) as [s | s | | s m e]; intros Hle Hint;
    try discriminate Hint.
  - injection Hint as <-. split; [lia |]. split; [apply Qle_refl | reflexivity].
  - destruct s; [discriminate Hle |]. apply Ok_inj in Hint. subst z.
    change (cond_Zopp false ?v) with v. rewrite Qred_correct.
    destruct e as [| p | p].
    + change (0 <=? 0) with true. cbv iota.
      change (2 ^ 0) with 1. change ((2 ^ 0)%Q) with 1%Q.
      rewrite Z.mul_1_r, Qmult_1_r.
      split; [lia |]. split; [apply Qle_refl |].
      rewrite <- (Qplus_0_r (inject_Z (Z.pos m))) at 1.
      apply Qplus_lt_r. reflexivity.
    + change (0 <=? Z.pos p) with true. cbv iota.
      assert (Hq : (inject_Z (Z.pos m * 2 ^ Z.pos p)
                    == inject_Z (Z.pos m) * 2 ^ Z.pos p)%Q).
      { rewrite inject_Z_mult, Zpower_Qpower by lia. reflexivity. }
      rewrite Hq. split; [| split].
      * apply Z.mul_nonneg_nonneg; [lia | apply Z.pow_nonneg; lia].
      * apply Qle_refl.
      * rewrite <- (Qplus_0_r (inject_Z (Z.pos m) * 2 ^ Z.pos p)) at 1.
        apply Qplus_lt_r. reflexivity.
    + change (0 <=? Z.neg p) with false. cbv iota.
      change (- Z.neg p) with (Z.pos p).
      change ((2 ^ Z.neg p)%Q) with (/ (2 ^ Z.pos p))%Q.
      assert (Hd : 0 < 2 ^ Z.pos p) by (apply Z.pow_pos_nonneg; lia).
      set (d := 2 ^ Z.pos p) in *.
      assert (Hq : (2 ^ Z.pos p == inject_Z d)%Q).
      { unfold d. rewrite Zpower_Qpower by lia. reflexivity. }
      rewrite Hq.
      assert (Hdq : (0 < inject_Z d)%Q).
      { change 0%Q with (inject_Z 0). rewrite <- Zlt_Qlt. exact Hd. }
      pose proof (Z.mul_div_le (Z.pos m) d Hd) as Hlo.
      pose proof (Z.mul_succ_div_gt (Z.pos m) d Hd) as Hhi.
      split; [| split].
      * apply Z.div_pos; lia.
      * apply Qle_shift_div_l; [exact Hdq |].
        rewrite <- inject_Z_mult, <- Zle_Qle. lia.
      * apply Qlt_shift_div_r; [exact Hdq |].
        change 1%Q with (inject_Z 1).
        rewrite <- inject_Z_plus, <- inject_Z_mult, <- Zlt_Qlt. lia.
Qed.

Lemma file_seek_Ok (pos z : Z) :
  file_seek pos = Ok z -> z = pos /\ 0 <= pos < 2 ^ 63.
Proof.
  unfold file_seek.
  destruct (Z.ltb_spec pos (- 2 ^ 63)) as [_ | Hlo]; [discriminate |].
  destruct (Z.leb_spec (2 ^ 63) pos) as [_ | Hhi]; [discriminate |].
  destruct (Z.ltb_spec pos 0) as [_ | H0]; [discriminate |].
  simpl. intros H. apply Ok_inj in H. lia.
Qed.

Lemma file_seek_in_range (pos : Z) :
  0 <= pos < 2 ^ 63 -> file_seek pos = Ok pos.
Proof.
  intros H. unfold file_seek.
  destruct (Z.ltb_spec pos (- 2 ^ 63)) as [Hlo | _]; [lia |].
  destruct (Z.leb_spec (2 ^ 63) pos) as [Hhi | _]; [lia |].
  destruct (Z.ltb_spec pos 0) as [H0 | _]; [lia | reflexivity].
Qed.

Lemma seek_Ok (ms ms' : MemorySource.t) (timestamp : float) :
  seek ms timestamp = Ok ms' ->
  exists bps offset,
    Py.float_of_int (AudioFormat.bytes_per_second (audio_format ms)) = Ok bps /\
    Py.int (timestamp * bps)%float = Ok offset /\
    _file ms' = align (AudioFormat.bytes_per_sample (audio_format ms)) offset /\
    0 <= _file ms' < 2 ^ 63 /\
    _data ms' = _data ms /\ audio_format ms' = audio_format ms /\
    _max_offset ms' = _max_offset ms /\ _duration ms' = _duration ms.
Proof.
  unfold seek. intros H.
  apply rbind_Ok in H. destruct H as (bps & Hbps & H).
  apply rbind_Ok in H. destruct H as (offset & Hoff & H).
  apply rbind_Ok in H. destruct H as (pos & Hpos & H).
  apply file_seek_Ok in Hpos. destruct Hpos as [-> Hrange].
  apply Ok_inj in H. subst ms'. exists bps, offset.
  repeat split; try assumption; apply Hrange.
Qed.

Lemma seek_total (ms : MemorySource.t) (timestamp bps : float) :
  AudioFormat.bytes_per_sample (audio_format ms) = 2 \/
  AudioFormat.bytes_per_sample (audio_format ms) = 4 ->
  Py.float_of_int (AudioFormat.bytes_per_second (audio_format ms)) = Ok bps ->
  Py.is_finite (timestamp * bps)%float = true ->
  exists ms', seek ms timestamp = Ok ms'.
Proof.
  intros Hbs Hbps Hfin. destruct (int_total _ Hfin) as (offset & Hoff).
  unfold seek. rewrite Hbps. simpl rbind. rewrite Hoff. simpl rbind.
  rewrite file_seek_in_range by (pose proof (align_range _ offset Hbs); lia).
  eexists. reflexivity.
Qed.

End Seek.

(** C6 (defect).  [seek] aligns the offset for 2 and 4 bytes per sample
    only.  A 32-bit stereo buffer has frames of 8 bytes, no mask applies,
    and at 0.125 s the read position is the offset 44100 itself, 4 bytes
    into a frame, where the rounding down that the claim and the comment
    of the code describe gives 44096.  The same call on a 16-bit stereo
    buffer is rounded down, from 22050 to 22048. *)
Theorem seek_leaves_8_byte_frames_unaligned :
  let ms := Example.source Example.two_frames Example.stereo32 in
  let bs := AudioFormat.bytes_per_sample (MemorySource.audio_format ms) in
  bs = 8 /\
  (exists ms',
     MemorySource.seek ms 0.125%float = Ok ms' /\
     MemorySource._file ms' = 44100 /\
     MemorySource._file ms' mod bs = 4 /\
     bs * (44100 / bs) = 44096 /\
     MemorySource._file ms' <> bs * (44100 / bs)) /\
  (exists ms',
     MemorySource.seek (Example.source Example.two_frames Example.stereo16)
       0.125%float = Ok ms' /\
     MemorySource._file ms' = 4 * (22050 / 4) /\
     MemorySource._file ms' = 22048).
Proof.
  intros ms bs. split; [reflexivity |]. split.
  - eexists. split; [reflexivity |]. split; [reflexivity |].
    split; [reflexivity |]. split; [reflexivity | discriminate].
  - eexists. split; [reflexivity |]. split; reflexivity.
Qed.

(** ** Slicing *)

Section Slicing.

Import PlayerWindow Slices.

Lemma firstn_plus {A : Type} (a c : nat) (l : list A) :
  firstn (a + c) l = firstn a l ++ firstn c (skipn a l).
Proof.
  revert l. induction a as [| a IH]; intros l; [reflexivity |].
  destruct l as [| x l]; simpl.
  - rewrite firstn_nil. reflexivity.
  - rewrite IH. reflexivity.
Qed.

Lemma concat_chunks (b : nat) (data : list byte) (n : nat) :
  forall start,
    concat (map (chunk b data) (seq start n))
    = firstn (n * b) (skipn (start * b) data).
Proof.
  induction n as [| n IH]; intros start; [reflexivity |].
  simpl seq. simpl map. simpl concat. rewrite IH.
  change (S n * b)%nat with (b + n * b)%nat. rewrite firstn_plus.
  unfold chunk. rewrite skipn_skipn. reflexivity.
Qed.

Lemma chunks_length (b : nat) (data : list byte) (n : nat) :
  length (chunks b data n) = n.
Proof. unfold chunks. rewrite length_map, length_seq. reflexivity. Qed.

Lemma chunks_concat (b : nat) (data : list byte) (n : nat) :
  (length data <= n * b)%nat -> concat (chunks b data n) = data.
Proof.
  intros H. unfold chunks. rewrite concat_chunks. simpl skipn.
  apply firstn_all2, H.
Qed.

Lemma chunk_length_full (b : nat) (data : list byte) (k n : nat) :
  length data = (n * b)%nat -> (k < n)%nat -> length (chunk b data k) = b.
Proof.
  intros Hl Hk. unfold chunk. rewrite length_firstn, length_skipn, Hl. nia.
Qed.



Lemma bar_count_ge (len bpb : Z) :
  0 <= len -> 0 < bpb -> len <= Z.of_nat (bar_count len bpb) * bpb.
Proof.
  intros Hlen Hb. unfold bar_count.
  assert (Hq : 0 <= (len + bpb - 1) / bpb) by (apply Z.div_pos; lia).
  rewrite Z2Nat.id by exact Hq.
  pose proof (Z.mul_succ_div_gt (len + bpb - 1) bpb Hb). lia.
Qed.

Lemma bar_count_divisible (len bpb : Z) :
  0 <= len -> 0 < bpb -> len mod bpb = 0 ->
  Z.of_nat (bar_count len bpb) = len / bpb /\
  len = Z.of_nat (bar_count len bpb) * bpb.
Proof.
  intros Hlen Hb Hmod. unfold bar_count.
  apply Z.mod_divide in Hmod; [| lia]. destruct Hmod as [k ->].
  assert (Hk : 0 <= k) by nia.
  assert (Hq : (k * bpb + bpb - 1) / bpb = k).
  { symmetry. apply (Z.div_unique_pos _ _ _ (bpb - 1)); lia. }
  rewrite Hq, Z2Nat.id, Z.div_mul by lia. split; reflexivity.
Qed.

Lemma bars_raw_chunks (data : list byte) (bpb : Z) :
  0 < bpb ->
  bars_raw data bpb
  = Ok (chunks (Z.to_nat bpb) data (bar_count (Z.of_nat (length data)) bpb)).
Proof.
  intros Hb. unfold bars_raw, Py.range_step.
  destruct (Z.eqb_spec bpb 0) as [E | _]; [lia |].
  destruct (Z.ltb_spec 0 bpb) as [_ | E]; [| lia].
  assert (Hn : (if 0 <? Z.of_nat (length data)
                then (Z.of_nat (length data) + bpb - 1) / bpb else 0)
               = (Z.of_nat (length data) + bpb - 1) / bpb).
  { destruct (Z.ltb_spec 0 (Z.of_nat (length data))) as [_ | E]; [reflexivity |].
    assert (Hz : Z.of_nat (length data) = 0) by lia. rewrite Hz.
    symmetry. apply Z.div_small. lia. }
  rewrite Hn. simpl rbind. f_equal. unfold chunks, bar_count.
  rewrite map_map. apply map_ext. intros k.
  unfold Py.slice, chunk. f_equal; [f_equal; lia |].
  f_equal. rewrite Z2Nat.inj_mul, Nat2Z.id by lia. reflexivity.
Qed.

Lemma constructible_spec (fmt : AudioFormat.t) (raw : list byte) :
  constructible fmt raw = true -> exists m, MemorySource.init raw fmt = Ok m.
Proof.
  unfold constructible. destruct (MemorySource.init raw fmt) as [m |];
    [intros _; exists m; reflexivity | discriminate].
Qed.

Lemma make_bars_Ok (fmt : AudioFormat.t) (raws : list (list byte)) :
  forall (acc : list addr) (h : Heap),
    forallb (constructible fmt) raws = true ->
    exists mss,
      make_bars raws fmt acc h
      = Ok (acc ++ seq (length h) (length raws), h ++ mss) /\
      map MemorySource._data mss = raws /\
      Forall (fun m => MemorySource.audio_format m = fmt) mss.
Proof.
  induction raws as [| raw raws IH]; intros acc h Hall.
  - exists []. simpl. unfold ret. rewrite !app_nil_r.
    repeat split. constructor.
  - simpl in Hall. apply andb_prop in Hall. destruct Hall as [Hraw Hall].
    destruct (constructible_spec _ _ Hraw) as (m & Hm).
    destruct (IH (acc ++ [length h]) (h ++ [m]) Hall) as (mss & Hcall & Hdata & Hfmt).
    destruct (init_Ok _ _ _ Hm) as (Hd & Hf & _).
    exists (m :: mss). split; [| split].
    + simpl make_bars. unfold new_MemorySource, bind, lift, alloc. rewrite Hm.
      cbv beta iota. etransitivity; [exact Hcall |].
      rewrite length_app. simpl length.
      rewrite <- !app_assoc. simpl. rewrite Nat.add_1_r. reflexivity.
    + simpl. rewrite Hd, Hdata. reflexivity.
    + constructor; assumption.
Qed.

(** What [cache_active_clip] does on a loop that is in the manifest and on
    disk, whatever amount of data the decoder returns. *)
Lemma cache_active_clip_returns (self : PlayerWindow.t) (fs : FileSystem)
    (name loop : string) (entry : ClipEntry) (meta : LoopMeta)
    (src : Pyglet.Source) (spb : Z) (full_loop : list byte) (h : Heap) :
  Py.dict_get (clips self) name = Ok entry ->
  Py.dict_get (loops entry) loop = Ok (Some meta) ->
  fs (dir self ++ "/" ++ name ++ "/" ++ loop ++ ".wav")%string = Some src ->
  samples_per_beat (bpm entry) (AudioFormat.sample_rate (Pyglet.audio_format src))
    = Ok spb ->
  Pyglet.get_audio_data src
    (spb * bytes_per_sample (Pyglet.audio_format src) * beats meta)
    = Some full_loop ->
  0 < bytes_per_bar spb (bytes_per_sample (Pyglet.audio_format src)) ->
  forallb (constructible (Pyglet.audio_format src))
    (chunks (Z.to_nat (bytes_per_bar spb (bytes_per_sample (Pyglet.audio_format src))))
       full_loop
       (bar_count (Z.of_nat (length full_loop))
          (bytes_per_bar spb (bytes_per_sample (Pyglet.audio_format src)))))
    = true ->
  exists mss self',
    cache_active_clip self fs name loop h = Ok ((Some (name, src), self'), h ++ mss) /\
    active_clip self' = seq (length h) (length mss) /\
    active_bar self' = 0 /\
    map MemorySource._data mss
    = chunks (Z.to_nat (bytes_per_bar spb (bytes_per_sample (Pyglet.audio_format src))))
        full_loop
        (bar_count (Z.of_nat (length full_loop))
           (bytes_per_bar spb (bytes_per_sample (Pyglet.audio_format src)))) /\
    Forall (fun m => MemorySource.audio_format m = Pyglet.audio_format src) mss.
Proof.
  intros Hentry Hmeta Hfs Hspb Hget Hb Hall.
  destruct (make_bars_Ok _ _ [] h Hall) as (mss & Hmake & Hdata & Hfmt).
  assert (Hlen : length mss = bar_count (Z.of_nat (length full_loop))
                   (bytes_per_bar spb (bytes_per_sample (Pyglet.audio_format src)))).
  { rewrite <- (length_map MemorySource._data), Hdata. apply chunks_length. }
  eexists mss, _. split; [| split; [| split; [| split]]].
  - unfold cache_active_clip, bind, lift, ret.
    rewrite Hentry, Hmeta, Hfs, Hspb, Hget.
    rewrite (bars_raw_chunks _ _ Hb). rewrite Hmake. reflexivity.
  - cbn [active_clip]. rewrite chunks_length, Hlen. reflexivity.
  - reflexivity.
  - exact Hdata.
  - exact Hfmt.
Qed.

End Slicing.

(** C5 (amended).  At 44100 Hz and 128 bpm a beat has 20672 samples and a
    16-bit stereo bar has 330752 bytes.  When the bytes the decoder
    delivers are a multiple of the positive [bytes_per_bar], the slicer
    returns as many bars as [bytes_per_bar] goes into them, each of
    [bytes_per_bar] bytes and in the format of the loop; their lengths sum
    to [bytes_per_bar * bar_count] and their bytes, in order, are the bytes
    delivered.  The bars are [beats / 4] when the decoder delivered the
    [samples_per_beat * bytes_per_sample * beats] bytes asked for. *)
Theorem bar_slicer_divisible_input :
  PlayerWindow.samples_per_beat 128%float 44100 = Ok 20672 /\
  PlayerWindow.bytes_per_sample Example.stereo16 = 4 /\
  PlayerWindow.bytes_per_bar 20672 4 = 330752 /\
  forall (self : PlayerWindow.t) (fs : PlayerWindow.FileSystem)
         (name loop : string) (entry : PlayerWindow.ClipEntry)
         (meta : PlayerWindow.LoopMeta) (src : Pyglet.Source) (spb : Z)
         (full_loop : list byte) (h : Heap),
    Py.dict_get (PlayerWindow.clips self) name = Ok entry ->
    Py.dict_get (PlayerWindow.loops entry) loop = Ok (Some meta) ->
    fs (PlayerWindow.dir self ++ "/" ++ name ++ "/" ++ loop ++ ".wav")%string
      = Some src ->
    PlayerWindow.samples_per_beat (PlayerWindow.bpm entry)
      (AudioFormat.sample_rate (Pyglet.audio_format src)) = Ok spb ->
    Pyglet.get_audio_data src
      (spb * PlayerWindow.bytes_per_sample (Pyglet.audio_format src)
       * PlayerWindow.beats meta) = Some full_loop ->
    0 < PlayerWindow.bytes_per_bar spb
          (PlayerWindow.bytes_per_sample (Pyglet.audio_format src)) ->
    Z.of_nat (length full_loop)
      mod PlayerWindow.bytes_per_bar spb
            (PlayerWindow.bytes_per_sample (Pyglet.audio_format src)) = 0 ->
    forallb (Slices.constructible (Pyglet.audio_format src))
      (Slices.chunks
         (Z.to_nat (PlayerWindow.bytes_per_bar spb
                      (PlayerWindow.bytes_per_sample (Pyglet.audio_format src))))
         full_loop
         (Slices.bar_count (Z.of_nat (length full_loop))
            (PlayerWindow.bytes_per_bar spb
               (PlayerWindow.bytes_per_sample (Pyglet.audio_format src)))))
      = true ->
    exists mss self',
      PlayerWindow.cache_active_clip self fs name loop h
        = Ok ((Some (name, src), self'), h ++ mss) /\
      PlayerWindow.active_clip self' = seq (length h) (length mss) /\
      Z.of_nat (length mss)
        = Z.of_nat (length full_loop)
          / PlayerWindow.bytes_per_bar spb
              (PlayerWindow.bytes_per_sample (Pyglet.audio_format src)) /\
      Forall (fun m =>
                Z.of_nat (length (MemorySource._data m))
                = PlayerWindow.bytes_per_bar spb
                    (PlayerWindow.bytes_per_sample (Pyglet.audio_format src)) /\
                MemorySource.audio_format m = Pyglet.audio_format src) mss /\
      Z.of_nat (list_sum (map (fun m => length (MemorySource._data m)) mss))
        = PlayerWindow.bytes_per_bar spb
            (PlayerWindow.bytes_per_sample (Pyglet.audio_format src))
          * Z.of_nat (length mss) /\
      concat (map MemorySource._data mss) = full_loop /\
      (Z.of_nat (length full_loop)
         = spb * PlayerWindow.bytes_per_sample (Pyglet.audio_format src)
           * PlayerWindow.beats meta ->
       Z.of_nat (length mss) = PlayerWindow.beats meta / 4 /\
       PlayerWindow.beats meta mod 4 = 0).
Proof.
  split; [vm_compute; reflexivity |]. split; [reflexivity |].
  split; [reflexivity |].
  intros self fs name loop entry meta src spb full_loop h
    Hentry Hmeta Hfs Hspb Hget Hb Hmod Hall.
  set (bps := PlayerWindow.bytes_per_sample (Pyglet.audio_format src)) in *.
  set (bpb := PlayerWindow.bytes_per_bar spb bps) in *.
  destruct (cache_active_clip_returns self fs name loop entry meta src spb
              full_loop h Hentry Hmeta Hfs Hspb Hget Hb Hall)
    as (mss & self' & Hcall & Hclip & _ & Hdata & Hfmt).
  fold bps in Hdata. fold bpb in Hdata.
  destruct (bar_count_divisible (Z.of_nat (length full_loop)) bpb) as [Hcount Hfull];
    [lia | exact Hb | exact Hmod |].
  set (n := Slices.bar_count (Z.of_nat (length full_loop)) bpb) in *.
  assert (Hn : length mss = n).
  { rewrite <- (length_map MemorySource._data), Hdata. apply chunks_length. }
  assert (Hfull' : length full_loop = (n * Z.to_nat bpb)%nat) by nia.
  assert (Hq : spb * bps <> 0).
  { unfold bpb, PlayerWindow.bytes_per_bar in Hb. nia. }
  assert (Hbpb : bpb = spb * bps * 4).
  { unfold bpb, PlayerWindow.bytes_per_bar. ring. }
  assert (Hcat : concat (map MemorySource._data mss) = full_loop).
  { rewrite Hdata. apply chunks_concat. lia. }
  exists mss, self'.
  split; [exact Hcall |]. split; [exact Hclip |].
  split; [| split; [| split; [| split]]].
  - rewrite Hn. exact Hcount.
  - apply Forall_forall. intros m Hm. split.
    + assert (Hin : In (MemorySource._data m) (Slices.chunks (Z.to_nat bpb) full_loop n)).
      { rewrite <- Hdata. apply in_map, Hm. }
      unfold Slices.chunks in Hin. apply in_map_iff in Hin.
      destruct Hin as (k & Hk & Hkn). apply in_seq in Hkn.
      rewrite <- Hk, (chunk_length_full _ _ k n Hfull') by lia. lia.
    + rewrite Forall_forall in Hfmt. apply Hfmt, Hm.
  - rewrite <- (map_map MemorySource._data (@length byte)), <- length_concat, Hcat.
    rewrite Hn. lia.
  - exact Hcat.
  - intros Hlen. split.
    + rewrite Hn, Hcount, Hlen, Hbpb. apply Z.div_mul_cancel_l; [lia | exact Hq].
    + rewrite Hlen, Hbpb in Hmod.
      rewrite Z.mul_mod_distr_l in Hmod by (lia || exact Hq). nia.
Qed.

(** C5 on the loop of the examples: 256 bytes, 8 beats, bars of 128 bytes. *)
Lemma bar_slicer_divisible_input_witness :
  exists mss self',
    PlayerWindow.cache_active_clip Example.window (Example.fs_with 256)
      "song" "basic" []
      = Ok ((Some ("song"%string, Example.loop_file 256), self'), [] ++ mss) /\
    Z.of_nat (length mss) = 256 / 128 /\
    Z.of_nat (length mss) = 8 / 4.
Proof.
  destruct bar_slicer_divisible_input as (_ & _ & _ & Hslice).
  destruct (Hslice Example.window (Example.fs_with 256) "song"%string
              "basic"%string
              {| PlayerWindow.bpm := 120%float; PlayerWindow.key := "8A";
                 PlayerWindow.loops :=
                   [("basic"%string, Some {| PlayerWindow.beats := 8 |})] |}
              {| PlayerWindow.beats := 8 |} (Example.loop_file 256) 8
              (repeat x00 256) [] eq_refl eq_refl eq_refl eq_refl eq_refl
              eq_refl eq_refl eq_refl)
    as (mss & self' & Hcall & _ & Hcount & _ & _ & _ & Hbeats).
  exists mss, self'. split; [exact Hcall |]. split; [exact Hcount |].
  apply Hbeats. reflexivity.
Defined.

(** C5, as stated, fails when the decoder delivers less than was asked for:
    of the 256 bytes of a loop of 8 beats only 128 exist, which is a multiple
    of the 128 bytes of a bar, and the slicer returns one bar, not
    [8 / 4]. *)
Lemma slicer_short_loop_has_fewer_bars :
  PlayerWindow.samples_per_beat 120%float 16 = Ok 8 /\
  PlayerWindow.bytes_per_bar 8 (PlayerWindow.bytes_per_sample Example.tiny16) = 128 /\
  exists self' h',
    PlayerWindow.cache_active_clip Example.window (Example.fs_with 128)
      "song" "basic" []
      = Ok ((Some ("song"%string, Example.loop_file 128), self'), h') /\
    map (fun m => Z.of_nat (length (MemorySource._data m))) h' = [128] /\
    128 mod 128 = 0 /\
    Z.of_nat (length (PlayerWindow.active_clip self')) = 1 /\
    Z.of_nat (length (PlayerWindow.active_clip self')) <> 8 / 4.
Proof.
  split; [reflexivity |]. split; [reflexivity |].
  eexists _, _. split; [lazy; reflexivity |].
  split; [reflexivity |]. split; [reflexivity |].
  split; [reflexivity |]. discriminate.
Qed.




(** * Further properties of the code *)

(** ** The fade-in beyond its third call *)

Section FadeInMore.

Import FadeIn.
Local Open Scope R_scope.

(** After three calls or more the effect rests in its last state. *)
Lemma run_done (xs : list Torch.Tensor) :
  (3 <= length xs)%nat -> run xs init = Ok s3.
Proof.
  intros Hlen. destruct (run_init xs) as (Hrun & _).
  rewrite Hrun, iter_step_init.
  destruct (length xs) as [| [| [| n]]]; try lia. reflexivity.
Qed.

(** [10 ** x] overflows on a finite exponent whose power leaves the range
    of the floats. *)
Lemma pow10_overflow (x : float) :
  Py.is_finite x = true -> overflow_threshold <= Rpower 10 (Py.F2R x) ->
  pow10 x = Raise OverflowError.
Proof.
  unfold pow10, Py.is_finite. intros Hfin Hge.
  destruct (Prim2SF x) as [s | s | | s m e]; try discriminate Hfin; cbv zeta;
    destruct (Rle_dec overflow_threshold (Rpower 10 (Py.F2R x))) as [_ | Hn];
    try reflexivity; contradiction.
Qed.

Lemma pow10_350 : overflow_threshold <= Rpower 10 (INR 350).
Proof.
  rewrite Rpower_pow by lra. unfold overflow_threshold.
  change 10 with (IZR 10). rewrite pow_IZR. apply IZR_le.
  vm_compute. discriminate.
Qed.


Lemma linspace_constant (a : R) (n : nat) : Torch.linspace a a n = repeat a n.
Proof.
  unfold Torch.linspace.
  assert (H : forall s, map (fun i => a + INR i * ((a - a) / (INR n - 1))) (seq s n)
                        = repeat a n).
  { generalize (INR n - 1). intros d. induction n as [| n IH]; intros s; [reflexivity |].
    simpl. rewrite IH. f_equal. unfold Rdiv. ring. }
  apply H.
Qed.

Lemma mul_row_ones (row : list R) : Torch.mul_row row (repeat 1 (length row)) = row.
Proof.
  induction row as [| x row IH]; [reflexivity |].
  simpl. rewrite IH. f_equal. ring.
Qed.

End FadeInMore.

(** X1.  After any number of [process] calls from the initial state the
    effect is done exactly when at least three calls were made; from then on
    the gain stays at 0. *)
Theorem fadein_done_iff_three_calls :
  forall xs : list Torch.Tensor,
    exists f,
      FadeIn.run xs FadeIn.init = Ok f /\
      (FadeIn.is_done f = true <-> (3 <= length xs)%nat) /\
      ((3 <= length xs)%nat -> FadeIn.gain f = 0%float).
Proof.
  intros xs. destruct (run_init xs) as (Hrun & _).
  eexists. split; [exact Hrun |]. rewrite iter_step_init.
  destruct (length xs) as [| [| [| n]]]; split; try split; intros H;
    try reflexivity; try lia; try discriminate H.
Qed.

(** X2.  Whatever the gain and the increment of a fade-in (also a negative
    increment, an infinity or a NaN), [step] never leaves a gain above 0 and
    leaves the increment alone.  A call of [process] that returns has ramped
    from the ratio of the gain to the ratio of the gain that [step] leaves,
    where the next call starts.  [process] raises [OverflowError] when
    [10 ** (gain / 20)] does for the gain it starts from: a finite gain
    whose ratio is beyond the range of the floats. *)
Theorem step_clamps_gain :
  forall f : FadeIn.t,
    (0 <? FadeIn.gain (FadeIn.step f))%float = false /\
    FadeIn.increment (FadeIn.step f) = FadeIn.increment f /\
    (forall (x out : Torch.Tensor) (f' : FadeIn.t),
       FadeIn.process f x = Ok (out, f') ->
       f' = FadeIn.step f /\
       exists a b,
         FadeIn.start_ratio f = Ok a /\
         FadeIn.end_ratio f = Ok b /\
         FadeIn.start_ratio f' = Ok b /\
         out = Torch.mul x (Torch.linspace a b (Torch.last_dim x))) /\
    (Py.is_finite (FadeIn.gain f / 20)%float = true ->
     (FadeIn.overflow_threshold <= Rpower 10 (Py.F2R (FadeIn.gain f / 20)%float))%R ->
     FadeIn.start_ratio f = Raise OverflowError /\
     forall x : Torch.Tensor, FadeIn.process f x = Raise OverflowError).
Proof.
  intros f. split; [| split; [reflexivity |]].
  { unfold FadeIn.step. cbn [FadeIn.gain].
    destruct (0 <? FadeIn.gain f + FadeIn.increment f)%float eqn:E;
      [reflexivity | exact E]. }
  split.
  - intros x out f' H.
    destruct (process_Ok _ _ _ _ H) as (a & b & Ha & Hb & _ & Hout & Hs).
    split; [exact Hs |]. exists a, b.
    split; [exact Ha |]. split; [exact Hb |].
    split; [rewrite Hs, <- end_ratio_step; exact Hb | exact Hout].
  - intros Hfin Hge.
    assert (Hs : FadeIn.start_ratio f = Raise OverflowError)
      by apply (pow10_overflow _ Hfin Hge).
    split; [exact Hs |].
    intros x. unfold FadeIn.process, FadeIn.fade. rewrite Hs. reflexivity.
Qed.

(** X2 on a fade-in whose gain was set to 7000 dB: the ratio 10^350 is no
    float. *)
Lemma step_clamps_gain_witness :
  FadeIn.process {| FadeIn.gain := 7000%float; FadeIn.increment := 10%float |}
    Example.one_frame_tensor
  = Raise OverflowError.
Proof.
  destruct (step_clamps_gain
              {| FadeIn.gain := 7000%float; FadeIn.increment := 10%float |})
    as (_ & _ & _ & Hover).
  apply Hover; [reflexivity |]. cbn [FadeIn.gain].
  replace (Py.F2R (7000 / 20)%float) with (INR 350); [apply pow10_350 |].
  symmetry. rewrite (F2R_of_Q _ (350 # 1)) by (vm_compute; reflexivity).
  rewrite INR_IZR_INZ. change (Z.of_nat 350) with 350%Z.
  unfold Q2R. simpl Qnum. simpl Qden. lra.
Defined.

(** X3.  A fade-in that is done (three or more calls after its
    construction) multiplies by a ramp of ones: [process] returns every
    rectangular tensor as it is. *)
Theorem process_after_completion_is_identity :
  forall (xs : list Torch.Tensor) (x : Torch.Tensor),
    (3 <= length xs)%nat ->
    Forall (fun row => length row = Torch.last_dim x) x ->
    exists f,
      FadeIn.run xs FadeIn.init = Ok f /\
      FadeIn.fade f (Torch.last_dim x) = Ok (repeat 1%R (Torch.last_dim x)) /\
      FadeIn.process f x = Ok (x, f).
Proof.
  intros xs x Hlen Hrect.
  assert (He : FadeIn.end_ratio FadeIn.s3 = Ok 1%R).
  { rewrite end_ratio_step, step_s3. apply start_ratio_s3. }
  assert (Hfade : FadeIn.fade FadeIn.s3 (Torch.last_dim x)
                  = Ok (repeat 1%R (Torch.last_dim x))).
  { rewrite (fade_intro _ _ _ _ start_ratio_s3 He), linspace_constant.
    reflexivity. }
  exists FadeIn.s3. split; [apply run_done, Hlen |]. split; [exact Hfade |].
  rewrite (process_intro _ x _ _ start_ratio_s3 He), step_s3, linspace_constant.
  do 2 f_equal. unfold Torch.mul.
  rewrite <- (map_id x) at 2. apply map_ext_in. intros row Hrow.
  rewrite Forall_forall in Hrect. rewrite <- (Hrect row Hrow).
  apply mul_row_ones.
Qed.

(** X3 on the one-column tensor of the examples after three calls. *)
Lemma process_after_completion_is_identity_witness :
  exists f,
    FadeIn.run [Example.one_frame_tensor; Example.one_frame_tensor;
                Example.one_frame_tensor] FadeIn.init = Ok f /\
    FadeIn.process f Example.one_frame_tensor = Ok (Example.one_frame_tensor, f).
Proof.
  destruct (process_after_completion_is_identity
              [Example.one_frame_tensor; Example.one_frame_tensor;
               Example.one_frame_tensor] Example.one_frame_tensor)
    as (f & Hrun & _ & Hp).
  - simpl. lia.
  - repeat constructor.
  - exists f. split; [exact Hrun | exact Hp].
Defined.

(** ** The fade-in never amplifies *)

Section Attenuation.

Import Numpy.
Local Open Scope R_scope.

Lemma trunc_nonneg (r : R) :
  0 <= r -> (0 <= trunc r)%Z /\ IZR (trunc r) <= r.
Proof.
  intros Hr. unfold trunc. destruct (Rle_dec 0 r) as [_ | Hn]; [| contradiction].
  destruct (base_Int_part r) as [Hle Hgt]. split; [| exact Hle].
  assert (H : (-1 < Int_part r)%Z) by (apply lt_IZR; lra). lia.
Qed.

Lemma trunc_nonpos (r : R) :
  r <= 0 -> (trunc r <= 0)%Z /\ r <= IZR (trunc r).
Proof.
  intros Hr. unfold trunc. destruct (Rle_dec 0 r) as [Hp | Hn].
  - assert (r = 0) as -> by lra.
    rewrite <- (Int_part_spec 0 0) by lra. split; [lia | lra].
  - destruct (base_Int_part (- r)) as [Hle Hgt].
    assert (H : (-1 < Int_part (- r))%Z) by (apply lt_IZR; lra).
    split; [lia |]. rewrite opp_IZR. lra.
Qed.

(** One sample under a gain of at most 1. *)
Lemma astype_int16_scaled (x : Z) (r : R) :
  int16 x -> 0 <= r <= 1 ->
  (Z.abs (astype_int16 (IZR x * r)) <= Z.abs x)%Z /\
  int16 (astype_int16 (IZR x * r)) /\
  ((0 <= x)%Z -> (0 <= astype_int16 (IZR x * r))%Z) /\
  ((x <= 0)%Z -> (astype_int16 (IZR x * r) <= 0)%Z).
Proof.
  unfold int16. intros Hx Hr.
  assert (Hbound : (0 <= x -> 0 <= trunc (IZR x * r) <= x)%Z /\
                   (x <= 0 -> x <= trunc (IZR x * r) <= 0)%Z).
  { split; intros Hs.
    - assert (H0 : 0 <= IZR x) by (apply IZR_le in Hs; exact Hs).
      destruct (trunc_nonneg (IZR x * r)) as [Hlo Hhi]; [nra |].
      split; [exact Hlo |]. apply le_IZR. nra.
    - assert (H0 : IZR x <= 0) by (apply IZR_le in Hs; exact Hs).
      destruct (trunc_nonpos (IZR x * r)) as [Hhi Hlo]; [nra |].
      split; [| exact Hhi]. apply le_IZR. nra. }
  destruct Hbound as [Hpos Hneg].
  assert (Hy : (Z.abs (trunc (IZR x * r)) <= Z.abs x /\
                -32768 <= trunc (IZR x * r) < 32768 /\
                (0 <= x -> 0 <= trunc (IZR x * r)) /\
                (x <= 0 -> trunc (IZR x * r) <= 0))%Z).
  { destruct (Z.le_ge_cases 0 x) as [Hs | Hs];
      [specialize (Hpos Hs) | specialize (Hneg Hs)]; lia. }
  unfold astype_int16, wrap16.
  rewrite Z.mod_small by lia.
  replace (trunc (IZR x * r) + 32768 - 32768)%Z with (trunc (IZR x * r)) by lia.
  exact Hy.
Qed.

Lemma mul_row_scaled (a : list Z) :
  forall fade : list R,
    length fade = length a ->
    Forall int16 a ->
    Forall (fun r => 0 <= r <= 1) fade ->
    Forall2 (fun x y => (Z.abs y <= Z.abs x)%Z /\ int16 y /\
                        ((0 <= x)%Z -> (0 <= y)%Z) /\ ((x <= 0)%Z -> (y <= 0)%Z))
      a (map astype_int16 (Torch.mul_row (map IZR a) fade)).
Proof.
  induction a as [| x a IH]; intros [| r fade] Hlen Ha Hf;
    try discriminate Hlen; [constructor |].
  inversion Ha as [| ? ? Hx Ha']; subst. inversion Hf as [| ? ? Hr Hf']; subst.
  simpl. constructor.
  - apply astype_int16_scaled; assumption.
  - apply IH; [simpl in Hlen; lia | assumption | assumption].
Qed.

Lemma linspace_unit_interval (a b : R) (n : nat) :
  0 < a -> a <= b -> b <= 1 ->
  Forall (fun r => 0 <= r <= 1) (Torch.linspace a b n).
Proof.
  intros H0 Hab H1. apply Forall_forall. intros r Hin.
  apply In_nth_error in Hin. destruct Hin as (i & Hi).
  destruct (linspace_monotone _ _ _ _ _ _ _ Hab (Nat.le_refl i) Hi Hi) as (Hlo & _ & Hhi).
  lra.
Qed.

End Attenuation.

(** X4.  After any number of [process] calls from the initial state, the
    next call never amplifies: on a stereo tensor of int16 samples, every
    sample that [astype(np.int16)] then yields lies in the int16 range
    (nothing wraps), has at most the magnitude of the input sample, and does
    not change sign. *)
Theorem fade_in_never_amplifies :
  forall (xs : list Torch.Tensor) (a b : list Z),
    length a = length b ->
    Forall Numpy.int16 a ->
    Forall Numpy.int16 b ->
    exists f ra rb f',
      FadeIn.run xs FadeIn.init = Ok f /\
      FadeIn.process f [map IZR a; map IZR b] = Ok ([ra; rb], f') /\
      Forall2 (fun x y => Z.abs y <= Z.abs x /\ Numpy.int16 y /\
                          (0 <= x -> 0 <= y) /\ (x <= 0 -> y <= 0))
        a (map Numpy.astype_int16 ra) /\
      Forall2 (fun x y => Z.abs y <= Z.abs x /\ Numpy.int16 y /\
                          (0 <= x -> 0 <= y) /\ (x <= 0 -> y <= 0))
        b (map Numpy.astype_int16 rb).
Proof.
  intros xs a b Hab Ha Hb.
  destruct (run_init xs) as (Hrun & Hr & _).
  destruct (reachable_process _ [map IZR a; map IZR b] Hr)
    as (s & e & _ & _ & H0 & Hse & H1 & Hp).
  unfold Torch.mul, Torch.last_dim in Hp. simpl map in Hp.
  rewrite length_map in Hp.
  eexists _, _, _, _. split; [exact Hrun |]. split; [exact Hp |].
  split; apply mul_row_scaled; try assumption.
  - apply linspace_length.
  - apply linspace_unit_interval; assumption.
  - rewrite linspace_length. exact Hab.
  - apply linspace_unit_interval; assumption.
Qed.

(** X4 on the channels of the two frames of the examples, first call. *)
Lemma fade_in_never_amplifies_witness :
  exists ra rb f',
    FadeIn.process FadeIn.init [map IZR [1; 3]; map IZR [2; 4]]
      = Ok ([ra; rb], f') /\
    Forall2 (fun x y => Z.abs y <= Z.abs x /\ Numpy.int16 y /\
                        (0 <= x -> 0 <= y) /\ (x <= 0 -> y <= 0))
      [1; 3] (map Numpy.astype_int16 ra).
Proof.
  destruct (fade_in_never_amplifies [] [1; 3] [2; 4])
    as (f & ra & rb & f' & Hrun & Hp & Ha & _).
  - reflexivity.
  - repeat constructor; unfold Numpy.int16; lia.
  - repeat constructor; unfold Numpy.int16; lia.
  - apply Ok_inj in Hrun. subst f.
    exists ra, rb, f'. split; [exact Hp | exact Ha].
Defined.

(** ** What [next_bar] keeps and what it refuses *)

Section NextBarMore.

Import Clip Ready.

Lemma frombuffer_int16_cases (data : list byte) :
  (exists ints, Numpy.frombuffer_int16 data = Ok ints /\
                length data = (2 * length ints)%nat) \/
  (Numpy.frombuffer_int16 data = Raise ValueError /\ Nat.odd (length data) = true).
Proof.
  induction data as [| b | lo hi data IH] using list_pair_ind.
  - left. exists []. split; reflexivity.
  - right. split; reflexivity.
  - destruct IH as [(ints & Hi & Hl) | [Hr Ho]].
    + left. exists (Numpy.int16_of_bytes lo hi :: ints). split.
      * simpl. rewrite Hi. reflexivity.
      * simpl. lia.
    + right. split.
      * simpl. rewrite Hr. reflexivity.
      * exact Ho.
Qed.

Lemma deinterleave_raises (data : list byte) :
  Z.of_nat (length data) mod 4 <> 0 -> deinterleave data = Raise ValueError.
Proof.
  intros Hmod. unfold deinterleave.
  destruct (frombuffer_int16_cases data) as [(raw & Hraw & Hl) | [Hr _]].
  - rewrite Hraw. simpl rbind. unfold Numpy.stack2.
    destruct (Nat.eqb_spec (length (Py.stride2 raw)) (length (Py.stride2 (tl raw))))
      as [Heq | _]; [| reflexivity].
    exfalso. apply Hmod. pose proof (stride2_length raw) as [Hsum _].
    replace (length data) with (4 * length (Py.stride2 raw))%nat by lia.
    rewrite Nat2Z.inj_mul, Z.mul_comm. apply Z.mod_mul. lia.
  - rewrite Hr. reflexivity.
Qed.

Lemma getitem_out_of_range {A : Type} (l : list A) (i : Z) :
  i < - Z.of_nat (length l) \/ Z.of_nat (length l) <= i ->
  Py.getitem l i = Raise IndexError.
Proof.
  intros H. unfold Py.getitem.
  destruct (Z.ltb_spec i 0) as [Hneg | Hpos].
  - destruct (Z.leb_spec 0 (Z.of_nat (length l) + i)) as [H0 | H0]; [| reflexivity].
    destruct (Z.ltb_spec (Z.of_nat (length l) + i) (Z.of_nat (length l))); [| reflexivity].
    lia.
  - destruct (Z.leb_spec 0 i) as [H0 | H0]; [| reflexivity].
    destruct (Z.ltb_spec i (Z.of_nat (length l))) as [H1 | H1]; [| reflexivity].
    lia.
Qed.

End NextBarMore.

(** X5.  A returning call of [next_bar] allocates exactly one buffer and
    touches nothing else: every object of the store stays at its address,
    the bars, the name, the element, the bpm, the key, the magnitude and the
    state of the clip are as before (the state never leaves what it was),
    [current_bar] is the returned buffer and [audio_format] the format of
    the bar that was read. *)
Theorem next_bar_keeps_store_and_metadata :
  forall (c c' : Clip.t) (h h' : Heap) (r : addr),
    Clip.next_bar c h = Ok ((r, c'), h') ->
    r = length h /\ length h' = S (length h) /\
    (forall a ms, nth_error h a = Some ms -> nth_error h' a = Some ms) /\
    Clip.bars c' = Clip.bars c /\ Clip.name c' = Clip.name c /\
    Clip.element c' = Clip.element c /\ Clip.bpm c' = Clip.bpm c /\
    Clip.key c' = Clip.key c /\ Clip.magnitude c' = Clip.magnitude c /\
    Clip.state c' = Clip.state c /\
    Clip.current_bar c' = Some r /\
    exists src ms,
      Py.getitem (Clip.bars c) (Clip.bar c) = Ok src /\
      nth_error h src = Some ms /\
      Clip.audio_format c' = Some (MemorySource.audio_format ms).
Proof.
  intros c c' h h' r Hcall. apply next_bar_inv in Hcall.
  destruct Hcall as (src & ms & chans & out & ms' & Hsrc & Hms & _ & _ & _ & _ & ->
                       & -> & ->).
  split; [reflexivity |]. split; [rewrite length_app; simpl; lia |].
  split.
  { intros a m Ha. rewrite nth_error_app1; [exact Ha |].
    apply nth_error_Some. congruence. }
  repeat (split; [reflexivity |]).
  exists src, ms. repeat split; assumption.
Qed.

(** X5 on the two-bar clip of the examples. *)
Lemma next_bar_keeps_store_and_metadata_witness :
  exists r c' h',
    Clip.next_bar Example.clip2 Example.heap2 = Ok ((r, c'), h') /\
    length h' = 3%nat /\ Clip.state c' = "cued"%string.
Proof.
  destruct (next_bar_playable Example.clip2 Example.heap2) as (c' & ms' & Hcall & _).
  - simpl. lia.
  - reflexivity.
  - reflexivity.
  - exists (length Example.heap2), c', (Example.heap2 ++ [ms']).
    split; [exact Hcall |].
    destruct (next_bar_keeps_store_and_metadata _ _ _ _ _ Hcall)
      as (_ & Hlen & _ & _ & _ & _ & _ & _ & _ & Hstate & _).
    split; [exact Hlen | exact Hstate].
Defined.

(** X6.  The buffer a call of [next_bar] returns has as many bytes as the
    bar that was read and its format, starts at read position 0, and is
    itself a buffer that [next_bar] can read: its length is a multiple of 4
    and the constructor accepts it. *)
Theorem next_bar_returns_playable_buffer :
  forall (c c' : Clip.t) (h h' : Heap) (r : addr),
    Clip.next_bar c h = Ok ((r, c'), h') ->
    exists src ms ms',
      Py.getitem (Clip.bars c) (Clip.bar c) = Ok src /\
      nth_error h src = Some ms /\
      nth_error h' r = Some ms' /\
      length (MemorySource._data ms') = length (MemorySource._data ms) /\
      MemorySource.audio_format ms' = MemorySource.audio_format ms /\
      MemorySource._file ms' = 0 /\
      Ready.playable ms' = true /\
      Ready.playable_at h' r = true.
Proof.
  intros c c' h h' r Hcall. apply next_bar_inv in Hcall.
  destruct Hcall as (src & ms & chans & out & ms' & Hsrc & Hms & Hc & Ha & Hre & Hinit
                       & -> & -> & _).
  pose proof (to_torch_stereo _ _ Hc) as Hst.
  apply (apply_effects_stereo _ (Clip.effects c) _ out) in Hst; [| exact Ha].
  destruct (reinterleave_stereo _ _ Hst) as (a & b & _ & Hre' & Hlen).
  rewrite Hre' in Hre. apply Ok_inj in Hre.
  destruct (deinterleave_Ok _ _ Hc) as (a0 & b0 & _ & _ & _ & _ & Hl).
  assert (Hsame : length (MemorySource._data ms') = length (MemorySource._data ms)).
  { rewrite <- Hre, Hlen. rewrite Hl at 1.
    rewrite (Nat.mul_comm 4 (length a0)), Nat.div_mul by lia. lia. }
  destruct (init_Ok _ _ _ Hinit) as (_ & Hfmt & Hfile & _).
  assert (Hnew : nth_error (h ++ [ms']) (length h) = Some ms').
  { rewrite nth_error_app2, Nat.sub_diag by lia. reflexivity. }
  assert (Hplay : Ready.playable ms' = true).
  { unfold Ready.playable. rewrite Hfmt, Hinit, Hsame, Hl.
    rewrite Nat2Z.inj_mul, Z.mul_comm, Z.mod_mul by lia. reflexivity. }
  exists src, ms, ms'. repeat split; try assumption.
  unfold Ready.playable_at. rewrite Hnew. exact Hplay.
Qed.

(** X6 on the two-bar clip of the examples. *)
Lemma next_bar_returns_playable_buffer_witness :
  exists r c' h',
    Clip.next_bar Example.clip2 Example.heap2 = Ok ((r, c'), h') /\
    Ready.playable_at h' r = true.
Proof.
  destruct (next_bar_playable Example.clip2 Example.heap2) as (c' & ms' & Hcall & _).
  - simpl. lia.
  - reflexivity.
  - reflexivity.
  - exists (length Example.heap2), c', (Example.heap2 ++ [ms']).
    split; [exact Hcall |].
    destruct (next_bar_returns_playable_buffer _ _ _ _ _ Hcall)
      as (src & ms & ms0 & _ & _ & _ & _ & _ & _ & _ & Hp).
    exact Hp.
Defined.

(** X7.  [next_bar] raises [IndexError] on a clip without bars and on a
    cursor outside [-len(bars), len(bars)), and [ValueError] when the bar
    under the cursor has a byte length that is not a multiple of 4; in each
    case no buffer is returned. *)
Theorem next_bar_raises :
  forall (c : Clip.t) (h : Heap),
    (Clip.bars c = [] -> Clip.next_bar c h = Raise IndexError) /\
    (Clip.bar c < - Z.of_nat (length (Clip.bars c)) \/
     Z.of_nat (length (Clip.bars c)) <= Clip.bar c ->
     Clip.next_bar c h = Raise IndexError) /\
    (forall src ms,
       Py.getitem (Clip.bars c) (Clip.bar c) = Ok src ->
       nth_error h src = Some ms ->
       Z.of_nat (length (MemorySource._data ms)) mod 4 <> 0 ->
       Clip.next_bar c h = Raise ValueError).
Proof.
  intros c h.
  assert (Hidx : Clip.bar c < - Z.of_nat (length (Clip.bars c)) \/
                 Z.of_nat (length (Clip.bars c)) <= Clip.bar c ->
                 Clip.next_bar c h = Raise IndexError).
  { intros Hout. unfold Clip.next_bar, bind, lift.
    rewrite (getitem_out_of_range _ _ Hout). reflexivity. }
  split; [| split; [exact Hidx |]].
  - intros Hnil. apply Hidx. rewrite Hnil. simpl. lia.
  - intros src ms Hsrc Hms Hmod.
    unfold Clip.next_bar, bind, lift, deref. rewrite Hsrc, Hms.
    unfold Clip.to_torch. rewrite (deinterleave_raises _ Hmod). reflexivity.
Qed.

(** X7 on a clip whose only bar has six bytes. *)
Lemma next_bar_raises_witness :
  Clip.next_bar (Clip.init "song" "intro" [0%nat] 128%float "8A")
    [Example.source [x01; x00; x02; x00; x03; x00] Example.stereo16]
  = Raise ValueError.
Proof.
  destruct (next_bar_raises (Clip.init "song" "intro" [0%nat] 128%float "8A")
              [Example.source [x01; x00; x02; x00; x03; x00] Example.stereo16])
    as (_ & _ & Hval).
  apply (Hval 0%nat (Example.source [x01; x00; x02; x00; x03; x00] Example.stereo16)
           eq_refl eq_refl).
  vm_compute. discriminate.
Defined.

(** ** A clip played on and on *)

Section Looping.

Import Clip Ready Driver.

Lemma post_chain_step (c c' : Clip.t) (h h' : Heap) (r : addr) :
  next_bar_post c h r c' h' -> effects c' = chain_step (effects c).
Proof. intros Hpost. apply (post_fields _ _ _ _ _ Hpost). Qed.

Lemma chain_step_nil (n : nat) : Nat.iter n chain_step [] = [].
Proof. induction n as [| n IH]; [reflexivity |]. simpl. rewrite IH. reflexivity. Qed.

Lemma chain_step_init (n : nat) :
  Nat.iter n chain_step [FadeIn.init]
  = match n with
    | O => [FadeIn.s0]
    | 1%nat => [FadeIn.s1]
    | 2%nat => [FadeIn.s2]
    | _ => []
    end.
Proof.
  destruct n as [| [| [| n]]]; try reflexivity.
  rewrite !Nat.iter_succ_r.
  change (chain_step (chain_step (chain_step [FadeIn.init]))) with (@nil FadeIn.t).
  apply chain_step_nil.
Qed.

Lemma calls_well_formed (n : nat) :
  forall (c : Clip.t) (h : Heap),
    well_formed c h = true ->
    exists c' mss,
      calls n c h = Ok ((seq (length h) n, c'), h ++ mss) /\
      length mss = n /\
      well_formed c' (h ++ mss) = true /\
      bars c' = bars c /\
      bar c' = (bar c + Z.of_nat n) mod Z.of_nat (length (bars c)) /\
      effects c' = Nat.iter n chain_step (effects c).
Proof.
  induction n as [| n IH]; intros c h Hwf.
  - exists c, []. rewrite app_nil_r.
    apply well_formed_spec in Hwf as Hwf'. destruct Hwf' as [Hbar _].
    repeat split; try assumption; try reflexivity.
    rewrite Z.add_0_r, Z.mod_small by exact Hbar. reflexivity.
  - destruct (next_bar_chain c h Hwf) as (c1 & ms1 & Hcall & Hpost & Hwf1).
    destruct (IH c1 (h ++ [ms1]) Hwf1) as (c' & mss & Hcalls & Hlen & Hwf' & Hbars & Hbar & Heff).
    destruct (post_fields _ _ _ _ _ Hpost) as (Hbars1 & Hbar1 & _).
    exists c', (ms1 :: mss).
    split; [| split; [| split; [| split; [| split]]]].
    + simpl calls. unfold bind at 1. rewrite Hcall.
      unfold bind at 1. rewrite Hcalls. unfold ret.
      rewrite length_app, Nat.add_1_r, <- app_assoc. reflexivity.
    + simpl. rewrite Hlen. reflexivity.
    + rewrite <- app_assoc in Hwf'. exact Hwf'.
    + rewrite Hbars. exact Hbars1.
    + rewrite Hbar, Hbars1, Hbar1, Z.add_mod_idemp_l.
      * f_equal. lia.
      * apply well_formed_spec in Hwf. lia.
    + rewrite Heff, (post_chain_step _ _ _ _ _ Hpost).
      rewrite <- Nat.iter_succ_r. reflexivity.
Qed.

End Looping.

(** X8.  [n] calls of [next_bar] in a row on a new clip over playable bars
    all return, with [n] new buffers at the next [n] addresses; afterwards
    the cursor is [n mod len(bars)] and the chain holds the fade-in at gain
    -30, -20, -10 for [n] = 0, 1, 2 and is empty from the third call on.
    From then on the clip loops its bars unchanged: the next call returns
    a buffer with the bytes and the format of bar [n mod len(bars)]. *)
Theorem clip_loops_bars_after_fade_in :
  forall (n : nat) (name element : string) (bars : list addr) (bpm : float)
         (key : string) (h : Heap),
    bars <> [] ->
    forallb (Ready.playable_at h) bars = true ->
    exists c' mss,
      Driver.calls n (Clip.init name element bars bpm key) h
        = Ok ((seq (length h) n, c'), h ++ mss) /\
      length mss = n /\
      Clip.bar c' = Z.of_nat n mod Z.of_nat (length bars) /\
      Clip.effects c'
        = match n with
          | O => [FadeIn.s0]
          | 1%nat => [FadeIn.s1]
          | 2%nat => [FadeIn.s2]
          | _ => []
          end /\
      ((3 <= n)%nat ->
       exists c'' ms_new src ms,
         Clip.next_bar c' (h ++ mss)
           = Ok ((length (h ++ mss), c''), (h ++ mss) ++ [ms_new]) /\
         Py.getitem bars (Z.of_nat n mod Z.of_nat (length bars)) = Ok src /\
         nth_error h src = Some ms /\
         MemorySource._data ms_new = MemorySource._data ms /\
         MemorySource.audio_format ms_new = MemorySource.audio_format ms).
Proof.
  intros n name element bars bpm key h Hne Hall.
  set (c0 := Clip.init name element bars bpm key).
  assert (Hwf0 : Ready.well_formed c0 h = true).
  { apply well_formed_spec. split; [| split; [exact Hall | reflexivity]].
    simpl. destruct bars; [congruence | simpl length; lia]. }
  destruct (calls_well_formed n c0 h Hwf0)
    as (c' & mss & Hcalls & Hlen & Hwf' & Hbars & Hbar & Heff).
  simpl in Hbars, Hbar. change (Clip.effects c0) with [FadeIn.init] in Heff.
  rewrite chain_step_init in Heff.
  exists c', mss.
  split; [exact Hcalls |]. split; [exact Hlen |]. split; [exact Hbar |].
  split; [exact Heff |].
  intros Hn.
  assert (Hempty : Clip.effects c' = []).
  { rewrite Heff. destruct n as [| [| [| n]]]; try lia. reflexivity. }
  destruct (next_bar_chain c' _ Hwf') as (c'' & ms_new & Hcall & Hpost & _).
  destruct (post_new_object _ _ _ _ _ Hpost)
    as (src & ms & chans & out & ms' & Hsrc & Hms & Hc & Hnew & Ha & Hre & Hfmt).
  rewrite nth_error_app2, Nat.sub_diag in Hnew by lia. injection Hnew as <-.
  apply apply_effects_fst in Ha. rewrite Hempty in Ha. rewrite Ha in Hre.
  rewrite (reinterleave_deinterleave _ _ Hc) in Hre. apply Ok_inj in Hre.
  rewrite Hbars, Hbar in Hsrc.
  assert (Hin : In src bars).
  { unfold Py.getitem in Hsrc.
    destruct ((0 <=? _) && (_ <? _)); [| discriminate Hsrc].
    destruct (nth_error bars _) as [a |] eqn:E; [| discriminate Hsrc].
    apply Ok_inj in Hsrc. subst a. apply (nth_error_In _ _ E). }
  assert (Hp : Ready.playable_at h src = true).
  { rewrite forallb_forall in Hall. apply Hall, Hin. }
  assert (Hms0 : nth_error h src = Some ms).
  { rewrite nth_error_app1 in Hms; [exact Hms | apply playable_at_lt, Hp]. }
  exists c'', ms_new, src, ms.
  repeat split; try assumption. symmetry. exact Hre.
Qed.

(** X8 on the two-bar clip of the examples, five calls. *)
Lemma clip_loops_bars_after_fade_in_witness :
  exists c' mss,
    Driver.calls 5 Example.clip2 Example.heap2
      = Ok (([2; 3; 4; 5; 6]%nat, c'), Example.heap2 ++ mss) /\
    Clip.bar c' = 1 /\ Clip.effects c' = [].
Proof.
  assert (Hne : [0%nat; 1%nat] <> []) by discriminate.
  destruct (clip_loops_bars_after_fade_in 5 "song" "intro" [0%nat; 1%nat]
              128%float "8A" Example.heap2 Hne eq_refl)
    as (c' & mss & Hcalls & _ & Hbar & Heff & _).
  exists c', mss. split; [exact Hcalls |]. split; [exact Hbar | exact Heff].
Defined.

(** ** More on the buffer: construction and seeking *)

Section BufferMore.

Import MemorySource.

Lemma mul_nan_r (x : float) : Prim2SF (nan * x)%float = S754_nan.
Proof. rewrite mul_spec. reflexivity. Qed.

End BufferMore.

(** X9.  The constructor of [MemorySource] never returns an object for a
    format whose byte rate is 0 (no channels, a sample rate of 0 or samples
    of less than 8 bits): the division for the duration raises, unless the
    conversion of the length already did. *)
Theorem init_rejects_zero_byte_rate :
  forall (data : list byte) (fmt : AudioFormat.t),
    AudioFormat.bytes_per_second fmt = 0 ->
    MemorySource.init data fmt = Raise ZeroDivisionError \/
    MemorySource.init data fmt = Raise OverflowError.
Proof.
  intros data fmt Hz. unfold MemorySource.init. rewrite Hz.
  change (Py.float_of_int 0) with (Ok 0%float). simpl rbind.
  unfold Py.float_of_int.
  destruct (binary_normalize prec emax (Z.of_nat (length data)) 0 false) as [s | s | | s m e];
    simpl rbind; try (left; reflexivity); right; reflexivity.
Qed.

(** X9 on a format with a sample rate of 0. *)
Lemma init_rejects_zero_byte_rate_witness :
  MemorySource.init Example.two_frames
    {| AudioFormat.channels := 2; AudioFormat.sample_size := 16;
       AudioFormat.sample_rate := 0 |} = Raise ZeroDivisionError \/
  MemorySource.init Example.two_frames
    {| AudioFormat.channels := 2; AudioFormat.sample_size := 16;
       AudioFormat.sample_rate := 0 |} = Raise OverflowError.
Proof.
  apply (init_rejects_zero_byte_rate Example.two_frames
           {| AudioFormat.channels := 2; AudioFormat.sample_size := 16;
              AudioFormat.sample_rate := 0 |}).
  reflexivity.
Defined.

(** X10.  On a buffer with [bytes_per_sample] 2 or 4, [seek] returns for
    every timestamp whose product with the byte rate is finite, also a
    negative one: the mask makes the position non-negative, so the position
    is an aligned offset in [0, 2^32) whatever the timestamp and the size of
    the buffer are.  With any other [bytes_per_sample] the offset reaches
    [BytesIO.seek] as it is: a negative offset from -2^63 on is refused
    with [ValueError], an offset below -2^63 or from 2^63 on with
    [OverflowError], and any other becomes the position, also past the end
    of the data. *)
Theorem seek_masked_position_range :
  forall (ms : MemorySource.t) (timestamp bps : float),
    let bs := AudioFormat.bytes_per_sample (MemorySource.audio_format ms) in
    Py.float_of_int (AudioFormat.bytes_per_second (MemorySource.audio_format ms))
      = Ok bps ->
    (bs = 2 \/ bs = 4 ->
     Py.is_finite (timestamp * bps)%float = true ->
     exists ms',
       MemorySource.seek ms timestamp = Ok ms' /\
       0 <= MemorySource._file ms' < 2 ^ 32 /\
       MemorySource._file ms' mod bs = 0) /\
    (bs <> 2 -> bs <> 4 ->
     forall offset,
       Py.int (timestamp * bps)%float = Ok offset ->
       (- 2 ^ 63 <= offset < 0 ->
        MemorySource.seek ms timestamp = Raise ValueError) /\
       (offset < - 2 ^ 63 \/ 2 ^ 63 <= offset ->
        MemorySource.seek ms timestamp = Raise OverflowError) /\
       (0 <= offset < 2 ^ 63 ->
        exists ms',
          MemorySource.seek ms timestamp = Ok ms' /\
          MemorySource._file ms' = offset)).
Proof.
  intros ms timestamp bps bs Hbps. split.
  - intros Hbs Hfin.
    destruct (seek_total ms timestamp bps Hbs Hbps Hfin) as (ms' & Hseek).
    exists ms'. split; [exact Hseek |].
    destruct (seek_Ok _ _ _ Hseek) as (bps' & offset & _ & _ & Hfile & _).
    fold bs in Hfile. rewrite Hfile.
    split; [apply align_range, Hbs |].
    destruct Hbs as [-> | ->]; [apply align2_mod | apply align4_mod].
  - intros H2 H4 offset Hoff.
    assert (Hseek : MemorySource.seek ms timestamp
                    = let? pos := MemorySource.file_seek offset in
                      Ok {| MemorySource._file := pos;
                            MemorySource._data := MemorySource._data ms;
                            MemorySource._max_offset := MemorySource._max_offset ms;
                            MemorySource.audio_format := MemorySource.audio_format ms;
                            MemorySource._duration := MemorySource._duration ms |}).
    { unfold MemorySource.seek. rewrite Hbps. simpl rbind. rewrite Hoff. simpl rbind.
      fold bs. unfold MemorySource.align.
      destruct (Z.eqb_spec bs 2) as [E | _]; [contradiction |].
      destruct (Z.eqb_spec bs 4) as [E | _]; [contradiction | reflexivity]. }
    rewrite Hseek. unfold MemorySource.file_seek.
    split; [| split].
    + intros Hneg.
      destruct (Z.ltb_spec offset (- 2 ^ 63)) as [Hlo | _]; [lia |].
      destruct (Z.leb_spec (2 ^ 63) offset) as [Hhi | _]; [lia |].
      destruct (Z.ltb_spec offset 0) as [_ | Hge]; [reflexivity | lia].
    + intros Hout.
      destruct (Z.ltb_spec offset (- 2 ^ 63)) as [_ | Hlo]; [reflexivity |].
      destruct (Z.leb_spec (2 ^ 63) offset) as [_ | Hhi]; [reflexivity | lia].
    + intros Hin.
      destruct (Z.ltb_spec offset (- 2 ^ 63)) as [Hlo | _]; [lia |].
      destruct (Z.leb_spec (2 ^ 63) offset) as [Hhi | _]; [lia |].
      destruct (Z.ltb_spec offset 0) as [Hneg | _]; [lia |].
      eexists. split; reflexivity.
Qed.

(** X10 on a 16-bit stereo buffer at -1 s: the position is 4294790896; and
    on a 32-bit stereo buffer (8 bytes per sample) at -1 s and
    at -2^100 s. *)
Lemma seek_masked_position_range_witness :
  (exists ms',
     MemorySource.seek (Example.source Example.two_frames Example.stereo16)
       (-1)%float = Ok ms' /\
     0 <= MemorySource._file ms' < 2 ^ 32 /\
     MemorySource._file ms' mod 4 = 0) /\
  MemorySource.seek (Example.source Example.two_frames Example.stereo32)
    (-1)%float = Raise ValueError /\
  MemorySource.seek (Example.source Example.two_frames Example.stereo32)
    (-0x1p100)%float = Raise OverflowError.
Proof.
  split; [| split].
  - destruct (seek_masked_position_range
                (Example.source Example.two_frames Example.stereo16)
                (-1)%float 176400%float eq_refl) as [Hmask _].
    exact (Hmask (or_intror eq_refl) eq_refl).
  - destruct (seek_masked_position_range
                (Example.source Example.two_frames Example.stereo32)
                (-1)%float 352800%float eq_refl) as [_ Hraw].
    assert (H2 : 8 <> 2) by discriminate. assert (H4 : 8 <> 4) by discriminate.
    destruct (Hraw H2 H4 (-352800) eq_refl) as (Hneg & _).
    apply Hneg. split; [discriminate | reflexivity].
  - destruct (seek_masked_position_range
                (Example.source Example.two_frames Example.stereo32)
                (-0x1p100)%float 352800%float eq_refl) as [_ Hraw].
    assert (H2 : 8 <> 2) by discriminate. assert (H4 : 8 <> 4) by discriminate.
    destruct (Hraw H2 H4 (- (352800 * 2 ^ 100)) eq_refl) as (_ & Hover & _).
    apply Hover. left. reflexivity.
Defined.

(** X11.  [seek] raises what [int()] raises: [ValueError] for a timestamp
    that is not a number, and [OverflowError] when the product of timestamp
    and byte rate is infinite. *)
Theorem seek_raises_on_non_finite :
  forall (ms : MemorySource.t) (bps : float),
    Py.float_of_int (AudioFormat.bytes_per_second (MemorySource.audio_format ms))
      = Ok bps ->
    MemorySource.seek ms nan = Raise ValueError /\
    (forall (timestamp : float) (s : bool),
       Prim2SF (timestamp * bps)%float = S754_infinity s ->
       MemorySource.seek ms timestamp = Raise OverflowError).
Proof.
  intros ms bps Hbps. split.
  - unfold MemorySource.seek. rewrite Hbps. simpl rbind.
    unfold Py.int. rewrite mul_nan_r. reflexivity.
  - intros timestamp s Hinf.
    unfold MemorySource.seek. rewrite Hbps. simpl rbind.
    unfold Py.int. rewrite Hinf. reflexivity.
Qed.

(** X11 on a 16-bit stereo buffer. *)
Lemma seek_raises_on_non_finite_witness :
  MemorySource.seek (Example.source Example.two_frames Example.stereo16) nan
    = Raise ValueError /\
  MemorySource.seek (Example.source Example.two_frames Example.stereo16) infinity
    = Raise OverflowError.
Proof.
  destruct (seek_raises_on_non_finite
              (Example.source Example.two_frames Example.stereo16)
              176400%float eq_refl) as [Hnan Hinf].
  split; [exact Hnan |]. apply (Hinf infinity false). reflexivity.
Defined.

(** X12.  [seek] does not depend on where the buffer was read before: after
    a first seek, a second one leaves the buffer exactly as it would have
    without the first, and repeating a seek changes nothing.  It alters
    neither the data nor the format, the length or the duration. *)
Theorem seek_last_one_wins :
  forall (ms ms1 : MemorySource.t) (t1 t2 : float),
    MemorySource.seek ms t1 = Ok ms1 ->
    MemorySource.seek ms1 t2 = MemorySource.seek ms t2 /\
    MemorySource.seek ms1 t1 = Ok ms1 /\
    MemorySource._data ms1 = MemorySource._data ms /\
    MemorySource.audio_format ms1 = MemorySource.audio_format ms /\
    MemorySource._max_offset ms1 = MemorySource._max_offset ms /\
    MemorySource._duration ms1 = MemorySource._duration ms.
Proof.
  intros ms ms1 t1 t2 Hseek.
  assert (Hfields : MemorySource._data ms1 = MemorySource._data ms /\
                    MemorySource.audio_format ms1 = MemorySource.audio_format ms /\
                    MemorySource._max_offset ms1 = MemorySource._max_offset ms /\
                    MemorySource._duration ms1 = MemorySource._duration ms).
  { destruct (seek_Ok _ _ _ Hseek) as (bps & offset & _ & _ & _ & _ & Hd & Hf & Hm & Hdur).
    repeat split; assumption. }
  destruct Hfields as (Hd & Hf & Hm & Hdur).
  assert (Hsame : forall t, MemorySource.seek ms1 t = MemorySource.seek ms t).
  { intros t. unfold MemorySource.seek. rewrite Hd, Hf, Hm, Hdur. reflexivity. }
  split; [apply Hsame |]. split; [| repeat split; assumption].
  rewrite Hsame. exact Hseek.
Qed.

(** X12 on a 16-bit stereo buffer sought to 2^-11 s. *)
Lemma seek_last_one_wins_witness :
  exists ms1,
    MemorySource.seek (Example.source Example.two_frames Example.stereo16)
      0.00048828125%float = Ok ms1 /\
    MemorySource.seek ms1 0.125%float
    = MemorySource.seek (Example.source Example.two_frames Example.stereo16)
        0.125%float.
Proof.
  eexists. split; [reflexivity |].
  apply (seek_last_one_wins (Example.source Example.two_frames Example.stereo16)
           _ 0.00048828125%float 0.125%float).
  reflexivity.
Defined.

(** X24.  A returning [seek(t)] has computed [int(t * bytes_per_second)]
    (the floor of the product when it is not negative) and moved the read
    position to it, masked with 0xfffffffe when [bytes_per_sample] is 2 and
    with 0xfffffffc when it is 4.  The masked position is a multiple of 2,
    respectively 4, and for an offset below 2^32 it is the offset rounded
    down to that multiple.  On a 16-bit stereo buffer [seek] returns
    whenever the product is finite, at a position that is 0 mod 4. *)
Theorem seek_aligns_offset :
  forall (ms : MemorySource.t) (timestamp : float),
    let fmt := MemorySource.audio_format ms in
    let bs := AudioFormat.bytes_per_sample fmt in
    (forall ms' : MemorySource.t,
       MemorySource.seek ms timestamp = Ok ms' ->
       exists bps offset,
         Py.float_of_int (AudioFormat.bytes_per_second fmt) = Ok bps /\
         Py.int (timestamp * bps)%float = Ok offset /\
         ((0 <=? timestamp * bps)%float = true ->
          0 <= offset /\
          (inject_Z offset <= Py.SF2Q (Prim2SF (timestamp * bps)%float))%Q /\
          (Py.SF2Q (Prim2SF (timestamp * bps)%float) < inject_Z offset + 1)%Q) /\
         MemorySource._data ms' = MemorySource._data ms /\
         (bs = 2 ->
          MemorySource._file ms' = Z.land offset 0xfffffffe /\
          MemorySource._file ms' mod 2 = 0 /\
          (0 <= offset < 2 ^ 32 -> MemorySource._file ms' = 2 * (offset / 2))) /\
         (bs = 4 ->
          MemorySource._file ms' = Z.land offset 0xfffffffc /\
          MemorySource._file ms' mod 4 = 0 /\
          (0 <= offset < 2 ^ 32 -> MemorySource._file ms' = 4 * (offset / 4)))) /\
    (AudioFormat.channels fmt = 2 ->
     AudioFormat.sample_size fmt = 16 ->
     forall bps : float,
       Py.float_of_int (AudioFormat.bytes_per_second fmt) = Ok bps ->
       Py.is_finite (timestamp * bps)%float = true ->
       exists ms', MemorySource.seek ms timestamp = Ok ms' /\
                   MemorySource._file ms' mod 4 = 0).
Proof.
  intros ms timestamp fmt bs. split.
  - intros ms' Hseek.
    destruct (seek_Ok _ _ _ Hseek) as (bps & offset & Hbps & Hoff & Hfile & _ & Hdata & _).
    fold fmt in Hbps, Hfile. fold bs in Hfile.
    exists bps, offset.
    split; [exact Hbps |]. split; [exact Hoff |].
    split; [intros Hpos; apply (int_floor _ _ Hpos Hoff) |].
    split; [exact Hdata |].
    split.
    + intros H2. rewrite H2 in Hfile. rewrite Hfile.
      split; [reflexivity |]. split; [apply align2_mod | apply align2_round].
    + intros H4. rewrite H4 in Hfile. rewrite Hfile.
      split; [reflexivity |]. split; [apply align4_mod | apply align4_round].
  - intros Hch Hsz bps Hbps Hfin.
    assert (Hbs : bs = 4).
    { unfold bs, AudioFormat.bytes_per_sample. rewrite Hch, Hsz. reflexivity. }
    destruct (seek_total ms timestamp bps (or_intror Hbs) Hbps Hfin) as (ms' & Hseek).
    exists ms'. split; [exact Hseek |].
    destruct (seek_Ok _ _ _ Hseek) as (bps' & offset & _ & _ & Hfile & _).
    fold fmt in Hfile. fold bs in Hfile. rewrite Hfile, Hbs. apply align4_mod.
Qed.

(** X24 on a 16-bit stereo buffer at 2^-11 s: the product 86.13 gives the
    offset 86 and the position 84. *)
Lemma seek_aligns_offset_witness :
  exists ms',
    MemorySource.seek (Example.source Example.two_frames Example.stereo16)
      0.00048828125%float = Ok ms' /\
    MemorySource._file ms' mod 4 = 0.
Proof.
  destruct (seek_aligns_offset (Example.source Example.two_frames Example.stereo16)
              0.00048828125%float) as [_ Hstereo].
  exact (Hstereo eq_refl eq_refl 176400%float eq_refl eq_refl).
Defined.

(** ** When the slicer fails *)

Section SlicerMore.

Import PlayerWindow.

Lemma dict_get_missing {V : Type} (d : list (string * V)) (k : string) :
  ~ In k (map fst d) -> Py.dict_get d k = Raise KeyError.
Proof.
  induction d as [| [k' v] d IH]; intros Hk; [reflexivity |].
  simpl. destruct (String.eqb_spec k' k) as [E | _].
  - exfalso. apply Hk. left. exact E.
  - apply IH. intros Hin. apply Hk. right. exact Hin.
Qed.

Lemma dict_get_In {V : Type} (d : list (string * V)) (k : string) (v : V) :
  Py.dict_get d k = Ok v -> In (k, v) d.
Proof.
  induction d as [| [k' v'] d IH]; intros H; [discriminate H |].
  simpl in H. destruct (String.eqb_spec k' k) as [E | _].
  - apply Ok_inj in H. subst. left. reflexivity.
  - right. apply IH, H.
Qed.

Lemma bars_raw_negative (data : list byte) (bpb : Z) :
  bpb < 0 -> bars_raw data bpb = Ok [].
Proof.
  intros Hb. unfold bars_raw, Py.range_step.
  destruct (Z.eqb_spec bpb 0) as [E | _]; [lia |].
  destruct (Z.ltb_spec 0 bpb) as [E | _]; [lia |].
  destruct (Z.ltb_spec (Z.of_nat (length data)) 0) as [E | _]; [lia |].
  reflexivity.
Qed.

End SlicerMore.

(** X13.  [cache_active_clip] raises [KeyError] for a clip name that is not
    in the manifest and for a loop name that is not among the loops of the
    clip, and [AttributeError] when the decoder returns no data at all; in
    these cases nothing is allocated and no clip is cached. *)
Theorem cache_active_clip_missing_entries :
  forall (self : PlayerWindow.t) (fs : PlayerWindow.FileSystem)
         (name loop : string) (h : Heap),
    (~ In name (map fst (PlayerWindow.clips self)) ->
     PlayerWindow.cache_active_clip self fs name loop h = Raise KeyError) /\
    (forall entry,
       Py.dict_get (PlayerWindow.clips self) name = Ok entry ->
       ~ In loop (map fst (PlayerWindow.loops entry)) ->
       PlayerWindow.cache_active_clip self fs name loop h = Raise KeyError) /\
    (forall entry meta src spb,
       Py.dict_get (PlayerWindow.clips self) name = Ok entry ->
       Py.dict_get (PlayerWindow.loops entry) loop = Ok (Some meta) ->
       fs (PlayerWindow.dir self ++ "/" ++ name ++ "/" ++ loop ++ ".wav")%string
         = Some src ->
       PlayerWindow.samples_per_beat (PlayerWindow.bpm entry)
         (AudioFormat.sample_rate (Pyglet.audio_format src)) = Ok spb ->
       Pyglet.get_audio_data src
         (spb * PlayerWindow.bytes_per_sample (Pyglet.audio_format src)
          * PlayerWindow.beats meta) = None ->
       PlayerWindow.cache_active_clip self fs name loop h = Raise AttributeError).
Proof.
  intros self fs name loop h. split; [| split].
  - intros Hname. unfold PlayerWindow.cache_active_clip, bind, lift.
    rewrite (dict_get_missing _ _ Hname). reflexivity.
  - intros entry Hentry Hloop. unfold PlayerWindow.cache_active_clip, bind, lift.
    rewrite Hentry, (dict_get_missing _ _ Hloop). reflexivity.
  - intros entry meta src spb Hentry Hmeta Hfs Hspb Hget.
    unfold PlayerWindow.cache_active_clip, bind, lift.
    rewrite Hentry, Hmeta, Hfs, Hspb, Hget. reflexivity.
Qed.

(** X13 on the manifest of the examples: an unknown loop, and an empty file. *)
Lemma cache_active_clip_missing_entries_witness :
  PlayerWindow.cache_active_clip Example.window (Example.fs_with 256)
    "song" "drop" [] = Raise KeyError /\
  PlayerWindow.cache_active_clip Example.window (Example.fs_with 0)
    "song" "basic" [] = Raise AttributeError.
Proof.
  split.
  - destruct (cache_active_clip_missing_entries Example.window
                (Example.fs_with 256) "song" "drop" []) as (_ & Hloop & _).
    apply (Hloop {| PlayerWindow.bpm := 120%float; PlayerWindow.key := "8A";
                    PlayerWindow.loops :=
                      [("basic"%string, Some {| PlayerWindow.beats := 8 |})] |}).
    + reflexivity.
    + simpl. intros [H | []]. discriminate H.
  - destruct (cache_active_clip_missing_entries Example.window
                (Example.fs_with 0) "song" "basic" []) as (_ & _ & Hnone).
    apply (Hnone {| PlayerWindow.bpm := 120%float; PlayerWindow.key := "8A";
                    PlayerWindow.loops :=
                      [("basic"%string, Some {| PlayerWindow.beats := 8 |})] |}
             {| PlayerWindow.beats := 8 |} (Example.loop_file 0) 8);
      reflexivity.
Defined.

(** X14.  For a loop that is in the manifest and on disk, a tempo of 0 bpm
    (or -0) makes [cache_active_clip] raise [ZeroDivisionError]; once the
    decoder has returned data, a [bytes_per_bar] of 0 raises [ValueError]
    (a [range] with step 0), and a negative [bytes_per_bar] makes the call
    return with no bar at all and the store as it was. *)
Theorem cache_active_clip_degenerate_tempo :
  forall (self : PlayerWindow.t) (fs : PlayerWindow.FileSystem)
         (name loop : string) (entry : PlayerWindow.ClipEntry)
         (meta : PlayerWindow.LoopMeta) (src : Pyglet.Source) (h : Heap),
    Py.dict_get (PlayerWindow.clips self) name = Ok entry ->
    Py.dict_get (PlayerWindow.loops entry) loop = Ok (Some meta) ->
    fs (PlayerWindow.dir self ++ "/" ++ name ++ "/" ++ loop ++ ".wav")%string
      = Some src ->
    ((PlayerWindow.bpm entry =? 0)%float = true ->
     PlayerWindow.cache_active_clip self fs name loop h = Raise ZeroDivisionError) /\
    (forall spb full_loop,
       PlayerWindow.samples_per_beat (PlayerWindow.bpm entry)
         (AudioFormat.sample_rate (Pyglet.audio_format src)) = Ok spb ->
       Pyglet.get_audio_data src
         (spb * PlayerWindow.bytes_per_sample (Pyglet.audio_format src)
          * PlayerWindow.beats meta) = Some full_loop ->
       (PlayerWindow.bytes_per_bar spb
          (PlayerWindow.bytes_per_sample (Pyglet.audio_format src)) = 0 ->
        PlayerWindow.cache_active_clip self fs name loop h = Raise ValueError) /\
       (PlayerWindow.bytes_per_bar spb
          (PlayerWindow.bytes_per_sample (Pyglet.audio_format src)) < 0 ->
        exists self',
          PlayerWindow.cache_active_clip self fs name loop h
            = Ok ((Some (name, src), self'), h) /\
          PlayerWindow.active_clip self' = [] /\
          PlayerWindow.active_bar self' = 0)).
Proof.
  intros self fs name loop entry meta src h Hentry Hmeta Hfs. split.
  - intros Hz. unfold PlayerWindow.cache_active_clip, bind, lift.
    rewrite Hentry, Hmeta, Hfs.
    unfold PlayerWindow.samples_per_beat, Py.truediv. rewrite Hz. reflexivity.
  - intros spb full_loop Hspb Hget. split.
    + intros Hb. unfold PlayerWindow.cache_active_clip, bind, lift.
      rewrite Hentry, Hmeta, Hfs, Hspb, Hget, Hb. reflexivity.
    + intros Hb. eexists. split.
      { unfold PlayerWindow.cache_active_clip, bind, lift, ret.
        rewrite Hentry, Hmeta, Hfs, Hspb, Hget.
        rewrite (bars_raw_negative _ _ Hb). reflexivity. }
      split; reflexivity.
Qed.

(** X14 on the loop of the examples with the tempo set to 0. *)
Lemma cache_active_clip_degenerate_tempo_witness :
  PlayerWindow.cache_active_clip Sample.still_window (Example.fs_with 256)
    "song" "basic" [] = Raise ZeroDivisionError.
Proof.
  refine (proj1 (cache_active_clip_degenerate_tempo Sample.still_window
                   (Example.fs_with 256) "song" "basic" Sample.still_entry
                   {| PlayerWindow.beats := 8 |} (Example.loop_file 256) []
                   eq_refl eq_refl eq_refl) eq_refl).
Defined.

(** ** End of stream: the bars in a cycle *)

Section EosFacts.

Import Eos.

Lemma on_player_eos_empty (w : PlayerWindow.t) (p : Player.t) :
  PlayerWindow.active_clip w = [] -> on_player_eos w p = Ok (w, p).
Proof. intros H. unfold on_player_eos. rewrite H. reflexivity. Qed.

Lemma on_player_eos_Ok (w : PlayerWindow.t) (p : Player.t) :
  0 <= PlayerWindow.active_bar w
    < Z.of_nat (length (PlayerWindow.active_clip w)) ->
  exists w' p',
    on_player_eos w p = Ok (w', p') /\
    PlayerWindow.active_clip w' = PlayerWindow.active_clip w /\
    PlayerWindow.active_bar w'
      = (PlayerWindow.active_bar w + 1)
        mod Z.of_nat (length (PlayerWindow.active_clip w)) /\
    Player.queued p'
      = Player.queued p
        ++ [nth (Z.to_nat (PlayerWindow.active_bar w))
              (PlayerWindow.active_clip w) O] /\
    Player.seeks p' = Player.seeks p /\
    Player.playing p' = true.
Proof.
  intros Hbar. unfold on_player_eos.
  destruct (Nat.eqb_spec (length (PlayerWindow.active_clip w)) 0) as [E | _];
    [rewrite E in Hbar; simpl in Hbar; lia |].
  simpl negb. cbv iota.
  destruct (getitem_index _ _ Hbar) as (src & Hsrc & Hnth).
  rewrite Hsrc. simpl rbind. unfold Py.mod_.
  destruct (Z.eqb_spec (Z.of_nat (length (PlayerWindow.active_clip w))) 0)
    as [E | _]; [lia |].
  simpl rbind. eexists _, _. split; [reflexivity |].
  cbn [PlayerWindow.active_clip PlayerWindow.active_bar Player.queued
       Player.seeks Player.playing Player.play Player.queue].
  repeat split.
  do 2 f_equal. symmetry. apply nth_error_nth. exact Hnth.
Qed.

End EosFacts.

Lemma eos_events_cycle (k : nat) :
  forall (w : PlayerWindow.t) (p : Player.t),
    0 <= PlayerWindow.active_bar w
      < Z.of_nat (length (PlayerWindow.active_clip w)) ->
    exists w' p',
      Eos.events k w p = Ok (w', p') /\
      PlayerWindow.active_clip w' = PlayerWindow.active_clip w /\
      PlayerWindow.active_bar w'
        = (PlayerWindow.active_bar w + Z.of_nat k)
          mod Z.of_nat (length (PlayerWindow.active_clip w)) /\
      Player.queued p'
        = Player.queued p
          ++ map (fun i =>
                    nth (Z.to_nat ((PlayerWindow.active_bar w + Z.of_nat i)
                                   mod Z.of_nat (length (PlayerWindow.active_clip w))))
                      (PlayerWindow.active_clip w) O)
                 (seq 0 k) /\
      Player.seeks p' = Player.seeks p /\
      (k <> O -> Player.playing p' = true).
Proof.
  induction k as [| k IH]; intros w p Hbar.
  - exists w, p. simpl. rewrite app_nil_r, Z.add_0_r, Z.mod_small by exact Hbar.
    repeat split. intros H. contradiction.
  - destruct (on_player_eos_Ok w p Hbar)
      as (w1 & p1 & Heos & Hclip1 & Hbar1 & Hq1 & Hs1 & Hplay1).
    assert (Hlen : 0 < Z.of_nat (length (PlayerWindow.active_clip w))) by lia.
    assert (Hbar1' : 0 <= PlayerWindow.active_bar w1
                       < Z.of_nat (length (PlayerWindow.active_clip w1))).
    { rewrite Hclip1, Hbar1. apply Z.mod_pos_bound. exact Hlen. }
    destruct (IH w1 p1 Hbar1')
      as (w' & p' & Hev & Hclip & Hbar' & Hq & Hs & Hplay).
    exists w', p'. simpl Eos.events. rewrite Heos. simpl rbind.
    split; [exact Hev |].
    split; [rewrite Hclip; exact Hclip1 |].
    split.
    { rewrite Hbar', Hclip1, Hbar1, Z.add_mod_idemp_l by lia. f_equal. lia. }
    split.
    { rewrite Hq, Hq1, <- app_assoc. f_equal.
      simpl seq. simpl map. rewrite Z.add_0_r, Z.mod_small by exact Hbar.
      simpl app. f_equal.
      rewrite <- seq_shift, map_map. apply map_ext. intros i.
      rewrite Hclip1, Hbar1, Z.add_mod_idemp_l by lia.
      do 3 f_equal. lia. }
    split; [rewrite Hs; exact Hs1 |].
    intros _. destruct k as [| k'].
    + simpl in Hev. apply Ok_inj in Hev. injection Hev as <- <-. exact Hplay1.
    + apply Hplay. discriminate.
Qed.

(** X15.  With cached bars and the bar index in range (as it is right after
    a clip was cached), [k] end-of-stream events in a row hand the player
    the bars in cyclic order, starting at the current index, and leave the
    index at [(active_bar + k) mod len(active_clip)]: the index never leaves
    the bars, the bars are not touched, nothing is sought, and the player is
    playing after the first event.  With no bar cached an end-of-stream
    event changes nothing. *)
Theorem eos_queues_bars_in_a_cycle :
  forall (k : nat) (w : PlayerWindow.t) (p : Player.t),
    (PlayerWindow.active_clip w = [] -> Eos.on_player_eos w p = Ok (w, p)) /\
    (0 <= PlayerWindow.active_bar w
       < Z.of_nat (length (PlayerWindow.active_clip w)) ->
     exists w' p',
       Eos.events k w p = Ok (w', p') /\
       PlayerWindow.active_clip w' = PlayerWindow.active_clip w /\
       PlayerWindow.active_bar w'
         = (PlayerWindow.active_bar w + Z.of_nat k)
           mod Z.of_nat (length (PlayerWindow.active_clip w)) /\
       Player.queued p'
         = Player.queued p
           ++ map (fun i =>
                     nth (Z.to_nat ((PlayerWindow.active_bar w + Z.of_nat i)
                                    mod Z.of_nat (length (PlayerWindow.active_clip w))))
                       (PlayerWindow.active_clip w) O)
                  (seq 0 k) /\
       Player.seeks p' = Player.seeks p /\
       (k <> O -> Player.playing p' = true)).
Proof.
  intros k w p. split.
  - intros Hempty. unfold Eos.on_player_eos. rewrite Hempty. reflexivity.
  - intros Hbar.
    destruct (eos_events_cycle k w p Hbar)
      as (w' & p' & Hev & Hclip & Hbar' & Hq & Hs & Hplay).
    exists w', p'. repeat split; assumption.
Qed.

(** X15 on a window with three cached bars: four events queue 0, 1, 2, 0. *)
Lemma eos_queues_bars_in_a_cycle_witness :
  exists w' p',
    Eos.events 4 Sample.cached_window Sample.idle_player = Ok (w', p') /\
    PlayerWindow.active_bar w' = 1 /\
    Player.queued p' = [0; 1; 2; 0]%nat.
Proof.
  destruct (eos_queues_bars_in_a_cycle 4 Sample.cached_window Sample.idle_player)
    as [_ Hcycle].
  destruct Hcycle as (w' & p' & Hev & _ & Hbar & Hq & _).
  - simpl. lia.
  - exists w', p'. split; [exact Hev |]. split; [exact Hbar | exact Hq].
Defined.

(** ** Controls, buttons and the layout *)

Section Controls.

Lemma hit_test_spec (c : Control.t) (px py : Z) :
  Control.hit_test c px py = true <->
  Control.x c < px < Control.x c + Control.width c /\
  Control.y c < py < Control.y c + Control.height c.
Proof.
  unfold Control.hit_test. rewrite !andb_true_iff, !Z.ltb_lt. tauto.
Qed.

Lemma drags_keep_button (drags : list (Z * Z)) :
  forall b : Button.t,
    Button.control
      (fold_left (fun b d => Button.on_mouse_drag b (fst d) (snd d)) drags b)
      = Button.control b /\
    Button.presses
      (fold_left (fun b d => Button.on_mouse_drag b (fst d) (snd d)) drags b)
      = Button.presses b.
Proof.
  induction drags as [| d drags IH]; intros b; [split; reflexivity |].
  simpl. destruct (IH (Button.on_mouse_drag b (fst d) (snd d))) as [Hc Hp].
  rewrite Hc, Hp. split; reflexivity.
Qed.

Lemma resizes_keep_layout (sizes : list (Z * Z)) :
  forall l : Layout.t,
    let l' := fold_left (fun l s => Layout.on_resize l (fst s) (snd s)) sizes l in
    Control.x (Layout.slider l') = Control.x (Layout.slider l) /\
    Control.y (Layout.slider l') = Control.y (Layout.slider l) /\
    Control.height (Layout.slider l') = Control.height (Layout.slider l) /\
    Layout.play_pause_button l' = Layout.play_pause_button l /\
    Layout.window_button l' = Layout.window_button l.
Proof.
  induction sizes as [| s sizes IH]; intros l; [repeat split |].
  simpl. destruct (IH (Layout.on_resize l (fst s) (snd s))) as (H1 & H2 & H3 & H4 & H5).
  rewrite H1, H2, H3, H4, H5. repeat split.
Qed.

End Controls.

(** X16.  [hit_test] excludes the border of a control: a point on its left,
    right, bottom or top edge does not hit, so with the integer coordinates
    of mouse events a control narrower or lower than 2 pixels is never hit. *)
Theorem hit_test_excludes_border :
  forall (c : Control.t) (px py : Z),
    (px = Control.x c \/ px = Control.x c + Control.width c \/
     py = Control.y c \/ py = Control.y c + Control.height c ->
     Control.hit_test c px py = false) /\
    (Control.width c <= 1 \/ Control.height c <= 1 ->
     Control.hit_test c px py = false) /\
    (Control.hit_test c px py = true ->
     2 <= Control.width c /\ 2 <= Control.height c).
Proof.
  intros c px py.
  assert (Hinside : Control.hit_test c px py = true ->
                    2 <= Control.width c /\ 2 <= Control.height c).
  { intros H. apply hit_test_spec in H. lia. }
  split; [| split; [| exact Hinside]].
  - intros Hedge. destruct (Control.hit_test c px py) eqn:E; [| reflexivity].
    apply hit_test_spec in E. lia.
  - intros Hsmall. destruct (Control.hit_test c px py) eqn:E; [| reflexivity].
    destruct (Hinside eq_refl). lia.
Qed.

(** X16 on the default control at its right edge. *)
Lemma hit_test_excludes_border_witness :
  Control.hit_test Control.default 10 5 = false.
Proof.
  apply (proj1 (hit_test_excludes_border Control.default 10 5)).
  right. left. reflexivity.
Defined.

(** X17.  Whatever the resizes of the window, the slider and the two
    buttons never overlap: a mouse press reaches at most one control. *)
Theorem mouse_press_reaches_at_most_one_control :
  forall (sizes : list (Z * Z)) (px py : Z),
    (length (Layout.on_mouse_press
               (fold_left (fun l s => Layout.on_resize l (fst s) (snd s))
                  sizes Layout.init) px py) <= 1)%nat.
Proof.
  intros sizes px py.
  destruct (resizes_keep_layout sizes Layout.init) as (Hx & Hy & Hh & Hp & Hw).
  set (l := fold_left (fun l s => Layout.on_resize l (fst s) (snd s)) sizes
              Layout.init) in *.
  unfold Layout.on_mouse_press, Layout.controls. rewrite Hp, Hw.
  cbn [filter].
  destruct (Control.hit_test (Layout.slider l) px py) eqn:Es;
    destruct (Control.hit_test (Layout.play_pause_button Layout.init) px py) eqn:Ep;
    destruct (Control.hit_test (Layout.window_button Layout.init) px py) eqn:Ew;
    cbn [length]; try lia;
    try apply hit_test_spec in Es; try apply hit_test_spec in Ep;
    try apply hit_test_spec in Ew;
    rewrite ?Hx, ?Hy, ?Hh in *;
    cbv [Layout.init Layout.slider Layout.play_pause_button Layout.window_button
         Layout.GUI_PADDING Layout.GUI_BUTTON_HEIGHT Control.default
         Control.x Control.y Control.width Control.height] in *;
    lia.
Qed.

(** X18.  A click on a button (a press, any drags, the release) dispatches
    [on_press] exactly when the release is inside the button, wherever the
    press and the drags were, and leaves the button not charged and not
    capturing. *)
Theorem button_fires_on_release_inside :
  forall (b : Button.t) (press release : Z * Z) (drags : list (Z * Z)),
    let b' := Button.click b press drags release in
    Button.presses b'
      = (if Control.hit_test (Button.control b) (fst release) (snd release)
         then S (Button.presses b) else Button.presses b) /\
    Button.charged b' = false /\
    Button.capturing b' = false /\
    Button.control b' = Button.control b.
Proof.
  intros b press release drags b'. unfold b', Button.click.
  destruct (drags_keep_button drags
              (Button.on_mouse_press b (fst press) (snd press))) as [Hc Hp].
  unfold Button.on_mouse_release. cbn [Button.presses Button.charged
    Button.capturing Button.control].
  rewrite Hc, Hp. repeat split.
Qed.

(** ** The slider *)

Section SliderFacts.

Import Slider.

Lemma SFltb_irrefl (x : spec_float) : SFltb x x = false.
Proof.
  unfold SFltb, SFcompare.
  destruct x as [s | s | | s m e]; try (destruct s; reflexivity); try reflexivity.
  rewrite Z.compare_refl, Pos.compare_cont_refl. destruct s; reflexivity.
Qed.

Lemma ltb_irrefl (x : float) : (x <? x)%float = false.
Proof. rewrite ltb_spec. apply SFltb_irrefl. Qed.

Lemma clamp_in_range (v lo hi : float) :
  (hi <? lo)%float = false ->
  (py_min (py_max v lo) hi <? lo)%float = false /\
  (hi <? py_min (py_max v lo) hi)%float = false.
Proof.
  intros Hrange. unfold py_min, py_max.
  destruct (v <? lo)%float eqn:Ev.
  - destruct (hi <? lo)%float eqn:Eh; [discriminate Hrange |].
    split; [apply ltb_irrefl | exact Eh].
  - destruct (hi <? v)%float eqn:Eh.
    + split; [exact Hrange | apply ltb_irrefl].
    + split; [exact Ev | exact Eh].
Qed.

Lemma step_keeps_pending (s s' : t) (i : input) :
  step s i s' ->
  (seek_value s <> None -> (1 <= scheduled s)%nat) ->
  (seek_value s' <> None -> (1 <= scheduled s')%nat) /\
  control s' = control s /\ min s' = min s /\ max s' = max s.
Proof.
  intros Hstep Hinv. destruct Hstep as [s s' px py H | s s' px py H | s px py | s n Hn].
  - unfold on_mouse_press in H. apply rbind_Ok in H. destruct H as (v & _ & H).
    apply Ok_inj in H. subst s'. cbn. repeat split. intros _. lia.
  - unfold on_mouse_drag in H. apply rbind_Ok in H. destruct H as (v & _ & H).
    apply Ok_inj in H. subst s'. cbn. repeat split. intros _.
    destruct (seek_value s) eqn:E; [apply Hinv; discriminate | lia].
  - cbn. repeat split. intros H. contradiction.
  - unfold seek_request. cbn [seek_value].
    destruct (seek_value s) eqn:E; cbn; repeat split; intros H; contradiction.
Qed.

End SliderFacts.

(** X19.  In every state a slider reaches from its construction through
    presses, drags, releases and runs of pending [seek_request] callbacks:
    while a dragged position is recorded in [seek_value], a [seek_request]
    is still pending, so the position is either dispatched or discarded by
    the release, never stranded; and the position, the size and the range of
    the slider are untouched. *)
Theorem slider_recorded_value_has_pending_request :
  forall (control : Control.t) (lo hi : float) (s : Slider.t),
    Slider.reachable (Slider.init control lo hi) s ->
    (Slider.seek_value s <> None -> (1 <= Slider.scheduled s)%nat) /\
    Slider.control s = control /\ Slider.min s = lo /\ Slider.max s = hi.
Proof.
  intros control lo hi s Hreach.
  induction Hreach as [| s s' i _ IH Hstep].
  - cbn. repeat split. intros H. contradiction.
  - destruct IH as (Hinv & Hc & Hlo & Hhi).
    destruct (step_keeps_pending _ _ _ Hstep Hinv) as (Hinv' & Hc' & Hlo' & Hhi').
    rewrite Hc', Hlo', Hhi'. repeat split; assumption.
Qed.

(** X19 on a slider of 100 pixels after a press and a drag. *)
Lemma slider_recorded_value_has_pending_request_witness :
  exists s,
    Slider.reachable
      (Slider.init {| Control.x := 4; Control.y := 24; Control.width := 100;
                      Control.height := 10 |} 0%float 100%float) s /\
    Slider.seek_value s = Some 50%float /\
    (1 <= Slider.scheduled s)%nat.
Proof.
  set (s0 := Slider.init {| Control.x := 4; Control.y := 24; Control.width := 100;
                            Control.height := 10 |} 0%float 100%float).
  assert (H1 : exists s1, Slider.on_mouse_press s0 14 30 = Ok s1)
    by (eexists; reflexivity).
  destruct H1 as (s1 & H1).
  assert (H2 : exists s2, Slider.on_mouse_drag s1 54 30 = Ok s2 /\
                          Slider.seek_value s2 = Some 50%float).
  { vm_compute in H1. apply Ok_inj in H1. subst s1. eexists. split; reflexivity. }
  destruct H2 as (s2 & H2 & Hv).
  assert (Hreach : Slider.reachable s0 s2).
  { eapply Slider.reach_step; [eapply Slider.reach_step; [apply Slider.reach_init |] |].
    - apply Slider.step_press. exact H1.
    - apply Slider.step_drag. exact H2. }
  exists s2. split; [exact Hreach |]. split; [exact Hv |].
  apply (slider_recorded_value_has_pending_request _ _ _ _ Hreach).
  rewrite Hv. discriminate.
Defined.

(** X20.  A drag records a position clamped to the range of the slider:
    provided [max] is not below [min], the recorded value is neither below
    [min] nor above [max] (for Python's [<], so also when the computed value
    is an infinity or not a number), and it dispatches nothing. *)
Theorem slider_drag_clamps_value :
  forall (s s' : Slider.t) (px py : Z),
    Slider.on_mouse_drag s px py = Ok s' ->
    (Slider.max s <? Slider.min s)%float = false ->
    exists value,
      Slider.seek_value s' = Some value /\
      (value <? Slider.min s)%float = false /\
      (Slider.max s <? value)%float = false /\
      Slider.dispatched s' = Slider.dispatched s.
Proof.
  intros s s' px py Hdrag Hrange.
  unfold Slider.on_mouse_drag in Hdrag.
  apply rbind_Ok in Hdrag. destruct Hdrag as (v & _ & H).
  apply Ok_inj in H. subst s'. cbn [Slider.seek_value Slider.dispatched].
  eexists. split; [reflexivity |].
  destruct (clamp_in_range v _ _ Hrange) as [Hlo Hhi].
  repeat split; assumption.
Qed.

(** X20 on a slider of 100 pixels dragged far to the right. *)
Lemma slider_drag_clamps_value_witness :
  exists s' value,
    Slider.on_mouse_drag
      (Slider.init {| Control.x := 4; Control.y := 24; Control.width := 100;
                      Control.height := 10 |} 0%float 100%float) 5000 30 = Ok s' /\
    Slider.seek_value s' = Some value /\
    (100 <? value)%float = false.
Proof.
  eexists. 
  destruct (slider_drag_clamps_value
              (Slider.init {| Control.x := 4; Control.y := 24; Control.width := 100;
                              Control.height := 10 |} 0%float 100%float)
              _ 5000 30 eq_refl eq_refl) as (value & Hv & _ & Hhi & _).
  exists value. split; [reflexivity |]. split; [exact Hv | exact Hhi].
Defined.

(** X21.  Scrolling leaves the play state as it found it: after
    [on_begin_scroll], any number of [on_change] events and [on_end_scroll],
    the player is playing exactly if it was before; in between it is
    paused; the positions were sought in the order of the events and
    nothing was queued. *)
Theorem scrolling_restores_play_state :
  forall (s : Scroll.t) (values : list float),
    let during :=
      fold_left Scroll.handle (map Slider.on_change values)
        (Scroll.handle s Slider.on_begin_scroll) in
    let after := Scroll.handle during Slider.on_end_scroll in
    Player.playing (Scroll.player during) = false /\
    Player.playing (Scroll.player after) = Player.playing (Scroll.player s) /\
    Player.seeks (Scroll.player after) = Player.seeks (Scroll.player s) ++ values /\
    Player.queued (Scroll.player after) = Player.queued (Scroll.player s).
Proof.
  intros s values.
  assert (H : forall vs s0,
             let s1 := fold_left Scroll.handle (map Slider.on_change vs) s0 in
             Scroll._player_playing s1 = Scroll._player_playing s0 /\
             Player.playing (Scroll.player s1) = Player.playing (Scroll.player s0) /\
             Player.seeks (Scroll.player s1) = Player.seeks (Scroll.player s0) ++ vs /\
             Player.queued (Scroll.player s1) = Player.queued (Scroll.player s0)).
  { induction vs as [| v vs IH]; intros s0.
    - cbn. rewrite app_nil_r. repeat split.
    - cbn [map fold_left]. destruct (IH (Scroll.handle s0 (Slider.on_change v)))
        as (H1 & H2 & H3 & H4).
      cbv zeta. rewrite H1, H2, H3, H4. cbn. rewrite <- app_assoc.
      repeat split. }
  intros during after.
  destruct (H values (Scroll.handle s Slider.on_begin_scroll)) as (H1 & H2 & H3 & H4).
  fold during in H1, H2, H3, H4. cbn in H1, H2, H3, H4.
  split; [exact H2 |].
  unfold after. cbn [Scroll.handle]. unfold Scroll.on_end_scroll. rewrite H1.
  destruct (Player.playing (Scroll.player s)) eqn:E; cbn.
  - repeat split; assumption.
  - rewrite H2. repeat split; assumption.
Qed.

(** X22.  The round trip in the other direction: a stereo tensor of int16
    values goes through [from_torch] into bytes from which [to_torch] reads
    the same two channels again, four bytes for every sample pair. *)
Theorem reinterleave_deinterleave_roundtrip :
  forall a b : list Z,
    length a = length b ->
    Forall Numpy.int16 a ->
    Forall Numpy.int16 b ->
    exists data,
      Clip.reinterleave [map IZR a; map IZR b] = Ok data /\
      length data = (4 * length a)%nat /\
      Clip.deinterleave data = Ok [a; b].
Proof.
  intros a b Hlen Ha Hb.
  exists (Numpy.tobytes (Numpy.interleave a b)).
  assert (Hall : Forall Numpy.int16 (Numpy.interleave a b))
    by (apply Forall_interleave; assumption).
  split; [| split].
  - unfold Clip.reinterleave, Numpy.assign_interleaved. simpl.
    rewrite !length_map, Hlen, Nat.eqb_refl. simpl.
    rewrite interleave_map, map_astype_IZR by exact Hall. reflexivity.
  - rewrite tobytes_length, interleave_length by exact Hlen. lia.
  - unfold Clip.deinterleave. rewrite frombuffer_tobytes by exact Hall.
    simpl rbind. destruct (stride2_interleave a b Hlen) as [H1 H2].
    rewrite H1, H2. unfold Numpy.stack2. rewrite Hlen, Nat.eqb_refl. reflexivity.
Qed.

(** X22 on the channels [1, 3] and [2, 4]. *)
Lemma reinterleave_deinterleave_roundtrip_witness :
  exists data,
    Clip.reinterleave [map IZR [1; 3]; map IZR [2; 4]] = Ok data /\
    Clip.deinterleave data = Ok [[1; 3]; [2; 4]].
Proof.
  destruct (reinterleave_deinterleave_roundtrip [1; 3] [2; 4]) as (data & Hre & _ & Hde).
  - reflexivity.
  - repeat constructor; unfold Numpy.int16; lia.
  - repeat constructor; unfold Numpy.int16; lia.
  - exists data. split; [exact Hre | exact Hde].
Defined.

(** X23.  Caching and playing compose: when [cache_active_clip] returns for
    a loop whose decoder delivered some data, every sequence of
    end-of-stream events that follows hands the player the freshly allocated
    bars, in the order they were sliced and over again from the first. *)
Theorem cached_bars_play_in_order :
  forall (self : PlayerWindow.t) (fs : PlayerWindow.FileSystem)
         (name loop : string) (entry : PlayerWindow.ClipEntry)
         (meta : PlayerWindow.LoopMeta) (src : Pyglet.Source) (spb : Z)
         (full_loop : list byte) (h : Heap),
    Py.dict_get (PlayerWindow.clips self) name = Ok entry ->
    Py.dict_get (PlayerWindow.loops entry) loop = Ok (Some meta) ->
    fs (PlayerWindow.dir self ++ "/" ++ name ++ "/" ++ loop ++ ".wav")%string
      = Some src ->
    PlayerWindow.samples_per_beat (PlayerWindow.bpm entry)
      (AudioFormat.sample_rate (Pyglet.audio_format src)) = Ok spb ->
    Pyglet.get_audio_data src
      (spb * PlayerWindow.bytes_per_sample (Pyglet.audio_format src)
       * PlayerWindow.beats meta) = Some full_loop ->
    full_loop <> [] ->
    0 < PlayerWindow.bytes_per_bar spb
          (PlayerWindow.bytes_per_sample (Pyglet.audio_format src)) ->
    forallb (Slices.constructible (Pyglet.audio_format src))
      (Slices.chunks
         (Z.to_nat (PlayerWindow.bytes_per_bar spb
                      (PlayerWindow.bytes_per_sample (Pyglet.audio_format src))))
         full_loop
         (Slices.bar_count (Z.of_nat (length full_loop))
            (PlayerWindow.bytes_per_bar spb
               (PlayerWindow.bytes_per_sample (Pyglet.audio_format src)))))
      = true ->
    exists mss self',
      PlayerWindow.cache_active_clip self fs name loop h
        = Ok ((Some (name, src), self'), h ++ mss) /\
      mss <> [] /\
      forall (k : nat) (p : Player.t),
        exists w' p',
          Eos.events k self' p = Ok (w', p') /\
          Player.queued p'
            = Player.queued p
              ++ map (fun i => (length h + i mod length mss)%nat) (seq 0 k) /\
          PlayerWindow.active_bar w' = Z.of_nat (k mod length mss).
Proof.
  intros self fs name loop entry meta src spb full_loop h
    Hentry Hmeta Hfs Hspb Hget Hne Hb Hall.
  destruct (cache_active_clip_returns self fs name loop entry meta src spb
              full_loop h Hentry Hmeta Hfs Hspb Hget Hb Hall)
    as (mss & self' & Hcall & Hclip & Hbar & Hdata & _).
  assert (Hn : length mss <> O).
  { rewrite <- (length_map MemorySource._data), Hdata, chunks_length.
    pose proof (bar_count_ge (Z.of_nat (length full_loop)) _ (Nat2Z.is_nonneg _) Hb) as Hge.
    destruct full_loop; [congruence |]. simpl length in *. intros Hz.
    rewrite Hz in Hge. lia. }
  exists mss, self'. split; [exact Hcall |].
  split; [intros ->; apply Hn; reflexivity |].
  intros k p.
  assert (Hrange : 0 <= PlayerWindow.active_bar self'
                     < Z.of_nat (length (PlayerWindow.active_clip self'))).
  { rewrite Hbar, Hclip, length_seq. lia. }
  destruct (eos_events_cycle k self' p Hrange)
    as (w' & p' & Hev & _ & Hbar' & Hq & _).
  rewrite Hclip, Hbar, length_seq in Hbar', Hq. simpl in Hbar', Hq.
  exists w', p'. split; [exact Hev |]. split.
  - rewrite Hq. f_equal. apply map_ext_in. intros i _.
    rewrite <- Nat2Z.inj_mod, Nat2Z.id.
    apply seq_nth. apply Nat.mod_upper_bound. exact Hn.
  - rewrite Hbar', Nat2Z.inj_mod. reflexivity.
Qed.

(** X23 on the loop of the examples: two bars at the addresses 0 and 1. *)
Lemma cached_bars_play_in_order_witness :
  exists mss self',
    PlayerWindow.cache_active_clip Example.window (Example.fs_with 256)
      "song" "basic" []
      = Ok ((Some ("song"%string, Example.loop_file 256), self'), [] ++ mss) /\
    exists w' p',
      Eos.events 3 self' Sample.idle_player = Ok (w', p') /\
      Player.queued p'
        = [] ++ map (fun i => (0 + i mod length mss)%nat) (seq 0 3).
Proof.
  assert (Hne : repeat x00 256 <> []) by discriminate.
  destruct (cached_bars_play_in_order Example.window (Example.fs_with 256)
              "song"%string "basic"%string
              {| PlayerWindow.bpm := 120%float; PlayerWindow.key := "8A";
                 PlayerWindow.loops :=
                   [("basic"%string, Some {| PlayerWindow.beats := 8 |})] |}
              {| PlayerWindow.beats := 8 |} (Example.loop_file 256) 8
              (repeat x00 256) [] eq_refl eq_refl eq_refl eq_refl eq_refl
              Hne eq_refl eq_refl)
    as (mss & self' & Hcall & _ & Hplay).
  exists mss, self'. split; [exact Hcall |].
  destruct (Hplay 3%nat Sample.idle_player) as (w' & p' & Hev & Hq & _).
  exists w', p'. split; [exact Hev | exact Hq].
Defined.
